(** * gopack: packaging one module version into a GOPROXY directory tree

    A shallow embedding of [gopack.go] (both program variants of the
    repository) and of the parts of [golang.org/x/mod/semver],
    [golang.org/x/mod/module], [bufio] and [sort] that the program calls,
    followed by the properties of the version list, of the atomic write and
    of the orchestration in [run].

    Go strings are byte strings; they are modelled by [string], whose
    characters are the 256 byte values. *)

From Stdlib Require Import ZArith Ascii String List Bool Sorting.Sorted Lia.
From Stdlib Require DecimalString.
From stdpp Require Import base option list sorting gmap sets strings.

Open Scope string_scope.
Open Scope Z_scope.

(** ** Byte and string helpers *)

(** [c1 <= c <= c2] on bytes, as Go compares them. *)
Definition byte_between (c1 c c2 : ascii) : bool :=
  ((c1 <=? c)%char && (c <=? c2)%char)%bool.

Definition is_digit (c : ascii) : bool := byte_between "0" c "9".
Definition is_upper (c : ascii) : bool := byte_between "A" c "Z".
Definition is_lower (c : ascii) : bool := byte_between "a" c "z".

(** The longest prefix of [s] whose bytes satisfy [p], and what follows it:
    the Go idiom [i := 0; for i < len(s) && p(s[i]) { i++ }; s[:i], s[i:]]. *)
Fixpoint span (p : ascii -> bool) (s : string) : string * string :=
  match s with
  | EmptyString => (EmptyString, EmptyString)
  | String c s' =>
      if p c then let '(a, b) := span p s' in (String c a, b)
      else (EmptyString, s)
  end.

(** [s[1:]] for a non-empty [s]. *)
Definition tail (s : string) : string :=
  match s with
  | EmptyString => EmptyString
  | String _ s' => s'
  end.

(** [x < y] on Go strings: bytewise lexicographic order. *)
Definition string_lt (x y : string) : bool := String.ltb x y.

Definition len (s : string) : Z := Z.of_nat (String.length s).

(** ** golang.org/x/mod/semver *)

Module semver.

(** [type parsed struct]. *)
Record parsed := mkParsed {
  major : string;
  minor : string;
  patch : string;
  short : string;
  prerelease : string;
  build : string
}.

Definition isIdentChar (c : ascii) : bool :=
  (is_upper c || is_lower c || is_digit c || (c =? "-")%char)%bool.

(** [isBadNum]: all digits, more than one of them, and a leading zero. *)
Definition isBadNum (v : string) : bool :=
  let '(d, rest) := span is_digit v in
  match rest, v with
  | EmptyString, String c (String _ _) => (c =? "0")%char
  | _, _ => false
  end.

(** [isNum]: all digits (the empty string included). *)
Definition isNum (v : string) : bool :=
  match snd (span is_digit v) with
  | EmptyString => true
  | _ => false
  end.

(** [parseInt]: a decimal number without leading zero, and the rest. *)
Definition parseInt (v : string) : option (string * string) :=
  match v with
  | EmptyString => None
  | String c _ =>
      if negb (is_digit c) then None
      else
        let '(t, rest) := span is_digit v in
        if ((c =? "0")%char && negb (String.length t =? 1)%nat)%bool then None
        else Some (t, rest)
  end.

(** The scanning loop shared by [parsePrerelease] and [parseBuild]: [cur] is
    [v[start:i]], [seen] is [v[:i]] and the argument is [v[i:]]. The loop of
    [parsePrerelease] stops at ['+'] and rejects bad numbers; the one of
    [parseBuild] does neither. *)
Fixpoint scanIdents (pre : bool) (seen cur v : string) : option (string * string) :=
  match v with
  | EmptyString =>
      if ((cur =? "")%string || (pre && isBadNum cur))%bool then None
      else Some (seen, EmptyString)
  | String c v' =>
      if (pre && (c =? "+")%char)%bool then
        if ((cur =? "")%string || isBadNum cur)%bool then None
        else Some (seen, v)
      else if (negb (isIdentChar c) && negb (c =? ".")%char)%bool then None
      else if (c =? ".")%char then
        if ((cur =? "")%string || (pre && isBadNum cur))%bool then None
        else scanIdents pre (seen ++ String c EmptyString) EmptyString v'
      else scanIdents pre (seen ++ String c EmptyString) (cur ++ String c EmptyString) v'
  end.

Definition parsePrerelease (v : string) : option (string * string) :=
  match v with
  | String "-" v' => scanIdents true "-" EmptyString v'
  | _ => None
  end.

Definition parseBuild (v : string) : option (string * string) :=
  match v with
  | String "+" v' => scanIdents false "+" EmptyString v'
  | _ => None
  end.

(** The last part of [parse], after the patch number: an optional
    pre-release, an optional build, and nothing more. *)
Definition parseTail (ma mi pa v : string) : option parsed :=
  match (match v with
         | String "-" _ => parsePrerelease v
         | _ => Some (EmptyString, v)
         end) with
  | None => None
  | Some (pre, v) =>
      match (match v with
             | String "+" _ => parseBuild v
             | _ => Some (EmptyString, v)
             end) with
      | None => None
      | Some (bu, v) =>
          match v with
          | EmptyString => Some (mkParsed ma mi pa EmptyString pre bu)
          | _ => None
          end
      end
  end.

Definition parse (v : string) : option parsed :=
  match v with
  | String "v" v1 =>
      match parseInt v1 with
      | None => None
      | Some (ma, v2) =>
          match v2 with
          | EmptyString => Some (mkParsed ma "0" "0" ".0.0" EmptyString EmptyString)
          | String "." v3 =>
              match parseInt v3 with
              | None => None
              | Some (mi, v4) =>
                  match v4 with
                  | EmptyString => Some (mkParsed ma mi "0" ".0" EmptyString EmptyString)
                  | String "." v5 =>
                      match parseInt v5 with
                      | None => None
                      | Some (pa, v6) => parseTail ma mi pa v6
                      end
                  | _ => None
                  end
              end
          | _ => None
          end
      end
  | _ => None
  end.

(** [IsValid] reports whether [v] is a valid semantic version string. *)
Definition IsValid (v : string) : bool :=
  match parse v with Some _ => true | None => false end.

Definition compareInt (x y : string) : Z :=
  if (x =? y)%string then 0
  else if len x <? len y then -1
  else if len x >? len y then 1
  else if string_lt x y then -1 else 1.

(** [nextIdent]: the bytes up to the first ['.'], and the rest. *)
Definition nextIdent (x : string) : string * string :=
  span (fun c => negb (c =? ".")%char) x.

(** One comparison of two differing identifiers in [comparePrerelease]. *)
Definition compareIdent (dx dy : string) : Z :=
  let ix := isNum dx in
  let iy := isNum dy in
  if negb (eqb ix iy) then (if ix then -1 else 1)
  else if (ix && (len dx <? len dy))%bool then -1
  else if (ix && (len dx >? len dy))%bool then 1
  else if string_lt dx dy then -1 else 1.

(** The loop [for x != "" && y != ""] of [comparePrerelease]. Every turn
    drops at least one byte of [x], so [String.length x] turns are enough;
    [fuel] counts them. *)
Fixpoint comparePrereleaseLoop (fuel : nat) (x y : string) : Z :=
  match x, y with
  | String _ x1, String _ y1 =>
      match fuel with
      | O => 0
      | S fuel' =>
          let '(dx, x2) := nextIdent x1 in
          let '(dy, y2) := nextIdent y1 in
          if negb (dx =? dy)%string then compareIdent dx dy
          else comparePrereleaseLoop fuel' x2 y2
      end
  | EmptyString, _ => -1
  | _, _ => 1
  end.

Definition comparePrerelease (x y : string) : Z :=
  if (x =? y)%string then 0
  else if (x =? "")%string then 1
  else if (y =? "")%string then -1
  else comparePrereleaseLoop (String.length x) x y.

(** [Compare]: -1, 0 or +1; an invalid version is less than a valid one
    and equal to any other invalid one. *)
Definition Compare (v w : string) : Z :=
  match parse v, parse w with
  | None, None => 0
  | None, Some _ => -1
  | Some _, None => 1
  | Some pv, Some pw =>
      let c := compareInt (major pv) (major pw) in
      if negb (c =? 0) then c else
      let c := compareInt (minor pv) (minor pw) in
      if negb (c =? 0) then c else
      let c := compareInt (patch pv) (patch pw) in
      if negb (c =? 0) then c else
      comparePrerelease (prerelease pv) (prerelease pw)
  end.

End semver.

(** ** golang.org/x/mod/module: escaping *)

Fixpoint string_exists (p : ascii -> bool) (s : string) : bool :=
  match s with
  | EmptyString => false
  | String c s' => (p c || string_exists p s')%bool
  end.

Fixpoint string_flat_map (f : ascii -> string) (s : string) : string :=
  match s with
  | EmptyString => EmptyString
  | String c s' => f c ++ string_flat_map f s'
  end.

Fixpoint string_map (f : ascii -> ascii) (s : string) : string :=
  match s with
  | EmptyString => EmptyString
  | String c s' => String (f c) (string_map f s')
  end.

(** [byte(r + 'a' - 'A')]. *)
Definition lower_byte (c : ascii) : ascii := ascii_of_N (N_of_ascii c + 32).

(** ASCII lower-casing of one byte and of a string ([strings.ToLower] on
    ASCII text). *)
Definition to_lower_byte (c : ascii) : ascii := if is_upper c then lower_byte c else c.
Definition to_lower (s : string) : string := string_map to_lower_byte s.

Module module.

(** [utf8.RuneSelf]: bytes below it are the one-byte runes. A byte at or
    above it starts (or breaks) a longer rune, whose value is at least
    [RuneSelf] too, so [r >= utf8.RuneSelf] holds for some rune of [s]
    exactly when some byte of [s] is at or above [RuneSelf]. *)
Definition RuneSelf : N := 128.

Definition escapeByte (c : ascii) : string :=
  if is_upper c then String "!" (String (lower_byte c) EmptyString)
  else String c EmptyString.

(** [escapeString]: an error for ['!'] and for non-ASCII runes; the string
    itself when it has no upper-case letter; otherwise every upper-case
    letter replaced by ['!'] and its lower-case form. *)
Definition escapeString (s : string) : option string :=
  if string_exists (fun c => (c =? "!")%char || (RuneSelf <=? N_of_ascii c)%N)%bool s
  then None
  else if negb (string_exists is_upper s) then Some s
  else Some (string_flat_map escapeByte s).

(** [EscapePath] and [EscapeVersion] first validate their argument with
    [CheckPath] and [checkElem(v, filePath)]; these two checks belong to the
    library and are taken as parameters. *)
Definition EscapePath (CheckPath : string -> bool) (path : string) : option string :=
  if CheckPath path then escapeString path else None.

Definition EscapeVersion (checkElem : string -> bool) (v : string) : option string :=
  if (negb (checkElem v) || string_exists (fun c => (c =? "!")%char) v)%bool then None
  else escapeString v.

End module.

(** ** sort.Slice

    [sort.Slice(x, less)] sorts in place with an algorithm that depends on
    the Go release and on the length of the slice, and it is documented as
    not stable. The program is modelled against the documented contract:
    the result is a rearrangement of the slice in which no element is
    [less] than an element before it, provided [less] is a strict weak
    ordering of the elements. *)

Record strict_weak (less : string -> string -> bool) (l : list string) : Prop := {
  sw_irrefl : forall a, a ∈ l -> less a a = false;
  sw_trans : forall a b c, a ∈ l -> b ∈ l -> c ∈ l ->
    less a b = true -> less b c = true -> less a c = true;
  sw_negtrans : forall a b c, a ∈ l -> b ∈ l -> c ∈ l ->
    less a b = false -> less b c = false -> less a c = false
}.

(** [a] may stand before [b] in a slice sorted by [less]. *)
Definition not_after (less : string -> string -> bool) (a b : string) : Prop :=
  less b a = false.

Class SliceSorter := {
  sort_Slice : (string -> string -> bool) -> list string -> list string;
  sort_Slice_perm : forall less l, sort_Slice less l ≡ₚ l;
  sort_Slice_sorted : forall less l,
    strict_weak less l -> StronglySorted (not_after less) (sort_Slice less l)
}.

(** The insertion sort of package [sort], which [sort.Slice] runs on slices
    of at most 12 elements:
    [for i := a + 1; i < b; i++ { for j := i; j > a && less(j, j-1); j-- { swap(j, j-1) } }].
    [rpre] is the sorted prefix [data[a:i]] read from its end; [bubble] is
    the inner loop moving [data[i]] down. *)
Fixpoint bubble (less : string -> string -> bool) (x : string) (rpre : list string)
  : list string :=
  match rpre with
  | [] => [x]
  | e :: r => if less x e then e :: bubble less x r else x :: rpre
  end.

Definition insertionSort (less : string -> string -> bool) (l : list string) : list string :=
  reverse (fold_left (fun rpre x => bubble less x rpre) l []).

(** A second sorter within the contract: it reads the slice from its end, so
    elements that compare equal come out in the opposite order. *)
Definition insertionSortRev (less : string -> string -> bool) (l : list string)
  : list string :=
  insertionSort less (reverse l).

(** ** The output tree

    A directory of the output tree is named by its path as the program
    computes it, and a file by its directory and its name in it:
    [filepath.Join(dir, name)] for a [name] without separator. The tree maps
    each directory that exists to its entries. *)

Record File := mkFile { f_data : string; f_mode : Z }.

Abbreviation FS := (gmap string (gmap string File)).

Definition file_at (fs : FS) (dir base : string) : option File :=
  match fs !! dir with
  | Some d => d !! base
  | None => None
  end.

Definition put_file (dir base : string) (f : File) (fs : FS) : FS :=
  match fs !! dir with
  | Some d => <[dir := <[base := f]> d]> fs
  | None => fs
  end.

Definition del_file (dir base : string) (fs : FS) : FS :=
  match fs !! dir with
  | Some d => <[dir := delete base d]> fs
  | None => fs
  end.

(** The bytes of a file, when it exists. *)
Definition data_at (fs : FS) (dir base : string) : option string :=
  f_data <$> file_at fs dir base.

(** [w_fs] is the tree as it stands; [w_hist] lists, latest first, every
    state the tree has gone through: what another process, or a reader after
    the program was killed, can have seen. *)
Record World := mkWorld { w_fs : FS; w_hist : list FS }.

(** ** System calls that can fail *)

Inductive Site :=
| MkdirAllAtV
| ModOpen | ModWrite | ModClose
| InfoOpen | InfoWrite | InfoClose
| ZipCreateTemp | ZipWrite | ZipClose | ZipRename | ZipRemove
| ListOpen | ListScan
| TmpCreate | TmpWrite | TmpChmod | TmpClose | TmpRename | TmpRemove.

(** What the operating system decides during one run: which calls fail, how
    many bytes a failing write stores before it fails, the random numbers
    [os.CreateTemp] draws for its names, and the clock: the RFC 3339 text
    of [time.Now().UTC()], or [None] when [Time.MarshalJSON] rejects it. *)
Record Oracle := mkOracle {
  fails : Site -> bool;
  short_write : Site -> nat;
  rand : Site -> list N;
  time_Now : option string
}.

Inductive error :=
| Errorf (msg : string)
| Wrap (msg : string) (e : error)
| InvalidVersion (v : string)
| SysErr (s : Site)
| LibErr (pkg : string)
| ErrNotExist
| ErrExist
| ErrPatternHasSeparator
| ErrTooLong.

(** ** Computations on the world *)

Definition M (A : Type) : Type := World -> (error + A) * World.

Definition ret {A} (a : A) : M A := fun w => (inr a, w).
Definition fail {A} (e : error) : M A := fun w => (inl e, w).
Definition bind {A B} (m : M A) (k : A -> M B) : M B := fun w =>
  match m w with
  | (inl e, w') => (inl e, w')
  | (inr a, w') => k a w'
  end.

Global Instance M_ret : MRet M := @ret.
Global Instance M_bind : MBind M := fun A B k m => bind m k.

(** [err := m]: the error is a value, not a return. *)
Definition try {A} (m : M A) : M (error + A) := fun w =>
  let '(r, w') := m w in (inr r, w').

(** [_ = m]: the error is dropped. *)
Definition discard {A} (m : M A) : M unit := fun w => (inr tt, snd (m w)).

(** [defer cleanup] before [body]: [cleanup] runs when [body] returns,
    whatever it returns. *)
Definition defer {A} (cleanup : M unit) (body : M A) : M A := fun w =>
  let '(r, w1) := body w in (r, snd (cleanup w1)).

Definition lift {A} (x : option A) (e : error) : M A :=
  match x with
  | Some a => ret a
  | None => fail e
  end.

Definition get_fs : M FS := fun w => (inr (w_fs w), w).

(** The tree goes through [states], the first one first. *)
Definition commit (states : list FS) : M unit := fun w =>
  (inr tt, mkWorld (List.last states (w_fs w)) (reverse states ++ w_hist w)).

(** ** Package os *)

Definition dirPerm : Z := 7 * 64 + 5 * 8 + 5.
Definition filePerm : Z := 6 * 64 + 4 * 8 + 4.
Definition tempPerm : Z := 6 * 64.

Definition os_MkdirAll (o : Oracle) (s : Site) (dir : string) (perm : Z) : M unit :=
  if fails o s then fail (SysErr s)
  else
    fs ← get_fs;
    match fs !! dir with
    | Some _ => ret tt
    | None => commit [<[dir := ∅]> fs]
    end.

(** [f.Write(data)] on the open file [dir/base]: the bytes reach the file
    one after the other; a failing write stops after [short_write] bytes. *)
Definition File_Write (o : Oracle) (s : Site) (dir base data : string) : M unit :=
  fs ← get_fs;
  match file_at fs dir base with
  | None => fail (SysErr s)
  | Some f =>
      let n := if fails o s then Nat.min (short_write o s) (String.length data)
               else String.length data in
      commit ((fun k => put_file dir base (mkFile (f_data f ++ substring 0 k data) (f_mode f)) fs)
                <$> seq 1 n);;
      if fails o s then fail (SysErr s) else ret tt
  end.

Definition File_Chmod (o : Oracle) (s : Site) (dir base : string) (perm : Z) : M unit :=
  if fails o s then fail (SysErr s)
  else
    fs ← get_fs;
    match file_at fs dir base with
    | None => fail (SysErr s)
    | Some f => commit [put_file dir base (mkFile (f_data f) perm) fs]
    end.

Definition File_Close (o : Oracle) (s : Site) : M unit :=
  if fails o s then fail (SysErr s) else ret tt.

(** [os.WriteFile]: open with [O_WRONLY|O_CREATE|O_TRUNC], write, close. An
    existing file keeps its mode and loses its bytes at once. *)
Definition os_WriteFile (o : Oracle) (sOpen sWrite sClose : Site)
    (dir base data : string) (perm : Z) : M unit :=
  if fails o sOpen then fail (SysErr sOpen)
  else
    fs ← get_fs;
    match fs !! dir with
    | None => fail (SysErr sOpen)
    | Some d =>
        let mode := match d !! base with Some f => f_mode f | None => perm end in
        commit [put_file dir base (mkFile EmptyString mode) fs];;
        err ← try (File_Write o sWrite dir base data);
        err1 ← try (File_Close o sClose);
        match err, err1 with
        | inl e, _ => fail e
        | inr _, inl e1 => fail e1
        | inr _, inr _ => ret tt
        end
    end.

(** [os.Rename] inside one directory. *)
Definition os_Rename (o : Oracle) (s : Site) (dir old new : string) : M unit :=
  if fails o s then fail (SysErr s)
  else
    fs ← get_fs;
    match file_at fs dir old with
    | None => fail (SysErr s)
    | Some f => commit [put_file dir new f (del_file dir old fs)]
    end.

(** [os.Remove]: it can fail as any call can, and it fails for an entry
    that does not exist. The program calls it on its own temporary files
    and drops its error. *)
Definition os_Remove (o : Oracle) (s : Site) (dir base : string) : M unit :=
  if fails o s then fail (SysErr s)
  else
    fs ← get_fs;
    match file_at fs dir base with
    | None => fail ErrNotExist
    | Some _ => commit [del_file dir base fs]
    end.

(** [os.Open] followed by reading the whole file: [None] when the file does
    not exist ([os.IsNotExist]). *)
Definition os_Open (o : Oracle) (s : Site) (dir base : string) : M (option string) :=
  if fails o s then fail (SysErr s)
  else fs ← get_fs; ret (data_at fs dir base).

(** [strings.LastIndexByte(pattern, '*')] and the split around it. *)
Fixpoint split_last_star (s : string) : option (string * string) :=
  match s with
  | EmptyString => None
  | String c s' =>
      match split_last_star s' with
      | Some (p, q) => Some (String c p, q)
      | None => if (c =? "*")%char then Some (EmptyString, s') else None
      end
  end.

Definition prefixAndSuffix (pattern : string) : option (string * string) :=
  if string_exists (fun c => (c =? "/")%char) pattern then None
  else Some (match split_last_star pattern with
             | Some ps => ps
             | None => (pattern, EmptyString)
             end).

(** [itoa.Uitoa(uint(uint32(r)))]. *)
Definition Uitoa (r : N) : string :=
  DecimalString.NilEmpty.string_of_uint (N.to_uint (r mod 2 ^ 32)).

Definition tempTries : nat := N.to_nat 10000.

(** [os.CreateTemp]: the first of at most 10000 random names that is free in
    [dir] is created, empty, with mode 0600. *)
Definition os_CreateTemp (o : Oracle) (s : Site) (dir pattern : string) : M string :=
  match prefixAndSuffix pattern with
  | None => fail ErrPatternHasSeparator
  | Some (pre, suf) =>
      if fails o s then fail (SysErr s)
      else
        fs ← get_fs;
        match fs !! dir with
        | None => fail (SysErr s)
        | Some d =>
            let names := (fun r => pre ++ Uitoa r ++ suf) <$> take tempTries (rand o s) in
            match List.find (fun n => bool_decide (d !! n = None)) names with
            | None => fail ErrExist
            | Some name =>
                commit [put_file dir name (mkFile EmptyString tempPerm) fs];;
                ret name
            end
        end
  end.

(** ** bufio.Scanner with the default split function [ScanLines] *)

Definition nl : string := String "010" EmptyString.
Definition cr : ascii := "013"%char.

Definition MaxScanTokenSize : Z := 64 * 1024.

(** The lines of [s] as [ScanLines] cuts them, before [dropCR]: each ends at
    a newline, which is dropped; what follows the last newline is a line
    only when it is not empty. [cur] holds the bytes of the line in
    progress. *)
Fixpoint rawLines (cur s : string) : list string :=
  match s with
  | EmptyString => if (cur =? "")%string then [] else [cur]
  | String c s' =>
      if (c =? "010")%char then cur :: rawLines EmptyString s'
      else rawLines (cur ++ String c EmptyString) s'
  end.

Fixpoint dropCR (data : string) : string :=
  match data with
  | EmptyString => EmptyString
  | String c EmptyString => if (c =? cr)%char then EmptyString else data
  | String c s' => String c (dropCR s')
  end.

(** The [sc.Text()] of every [sc.Scan()], or [sc.Err()]: a failed read, or
    [ErrTooLong] for a line that does not fit the buffer. *)
Definition Scanner_lines (o : Oracle) (s : Site) (data : string) : error + list string :=
  if fails o s then inl (SysErr s)
  else
    let raw := rawLines EmptyString data in
    if existsb (fun l => MaxScanTokenSize <=? len l) raw then inl ErrTooLong
    else inr (dropCR <$> raw).

(** ** gopack.go, first variant: [writeFileAtomic] and [updateListFile] *)

(** [writeFileAtomic] writes [data] to [dir/baseName] atomically. *)
Definition writeFileAtomic (o : Oracle) (dir baseName data : string) (perm : Z) : M unit :=
  tmpName ← os_CreateTemp o TmpCreate dir (baseName ++ ".tmp-*");
  defer (discard (os_Remove o TmpRemove dir tmpName))
    (err ← try (File_Write o TmpWrite dir tmpName data);
     match err with
     | inl e => discard (File_Close o TmpClose);; fail e
     | inr _ =>
         err ← try (File_Chmod o TmpChmod dir tmpName perm);
         match err with
         | inl e => discard (File_Close o TmpClose);; fail e
         | inr _ =>
             File_Close o TmpClose;;
             os_Rename o TmpRename dir tmpName baseName
         end
     end).

(** The comparison handed to [sort.Slice]. *)
Definition semver_less (a b : string) : bool := semver.Compare a b <? 0.

(** The first part of [updateListFile]: the lines of the existing list that
    are valid versions; none when there is no list. *)
Definition readList (o : Oracle) (atVDir : string) : M (list string) :=
  f ← os_Open o ListOpen atVDir "list";
  match f with
  | None => ret []
  | Some data =>
      match Scanner_lines o ListScan data with
      | inl e => fail (Wrap "scan list" e)
      | inr lines =>
          ret (List.filter (fun line => negb (line =? "")%string && semver.IsValid line)%bool lines)
      end
  end.

(** The bytes written: every version followed by a newline. *)
Definition compose (versions : list string) : string :=
  fold_right (fun v out => v ++ nl ++ out) EmptyString versions.

(** [updateListFile] updates the [@v/list] file. *)
Definition updateListFile `{SliceSorter} (o : Oracle) (atVDir newVer : string) : M unit :=
  existing ← readList o atVDir;
  let seen : gset string := list_to_set existing in
  let existing := if decide (newVer ∈ seen) then existing else (existing ++ [newVer])%list in
  let existing := sort_Slice semver_less existing in
  writeFileAtomic o atVDir "list" (compose existing) filePerm.

(** ** What [run] reads: the source tree and the libraries

    [filepath_Abs] and [filepath_Join] are the lexical operations of
    [path/filepath]; [src_gomod] is the content of [go.mod] in a source
    directory ([None] when [os.ReadFile] fails); [modfile_Parse] gives the
    module path of a parsed [go.mod] ([None]: parse error; [Some None]: no
    module directive); [zip_CreateFromDir] gives the bytes the archive
    builder writes for a module path, a version and a source directory, and
    whether it succeeded. The source tree lies outside the output tree. *)
Record Env := mkEnv {
  filepath_Abs : string -> option string;
  filepath_Join : string -> string -> string;
  src_gomod : string -> option string;
  modfile_Parse : string -> option (option string);
  module_CheckPath : string -> bool;
  module_checkElem : string -> bool;
  zip_CreateFromDir : string -> string -> string -> string * bool
}.

(** [type info struct] and its [json.Marshal]. The bytes of a version that
    [semver.IsValid] accepts are letters, digits, ['.'], ['-'] and ['+'],
    which a JSON string holds as they are. *)
Record info := mkInfo { Version : string; Time : option string }.

Definition dquote : string := String "034" EmptyString.
Definition json_string (s : string) : string := dquote ++ s ++ dquote.

Definition json_Marshal (i : info) : option string :=
  match Time i with
  | None => None
  | Some t =>
      Some ("{" ++ json_string "Version" ++ ":" ++ json_string (Version i) ++ ","
                ++ json_string "Time" ++ ":" ++ json_string t ++ "}")
  end.

Module WithList.

(** [run] of the first program: the three files and the list. *)
Definition run `{SliceSorter} (E : Env) (o : Oracle) (srcDir version outRoot : string)
  : M (list (string * string)) :=
  if ((srcDir =? "")%string || (version =? "")%string || (outRoot =? "")%string)%bool
  then fail (Errorf "required flags: -src, -version, -out")
  else if negb (semver.IsValid version) then fail (InvalidVersion version)
  else
    absSrc ← lift (filepath_Abs E srcDir) (LibErr "filepath");
    goModBytes ← lift (src_gomod E absSrc) (Wrap "read go.mod" (LibErr "os"));
    modf ← lift (modfile_Parse E goModBytes) (Wrap "parse go.mod" (LibErr "modfile"));
    match modf with
    | None | Some EmptyString => fail (Errorf "cannot determine module path from go.mod")
    | Some modPath =>
        escPath ← lift (module.EscapePath (module_CheckPath E) modPath)
                       (Wrap "escape module path" (LibErr "module"));
        escVer ← lift (module.EscapeVersion (module_checkElem E) version)
                      (Wrap "escape version" (LibErr "module"));
        let modDir := filepath_Join E outRoot escPath in
        let atV := filepath_Join E modDir "@v" in
        os_MkdirAll o MkdirAllAtV atV dirPerm;;
        os_WriteFile o ModOpen ModWrite ModClose atV (escVer ++ ".mod") goModBytes filePerm;;
        ib ← lift (json_Marshal (mkInfo version (time_Now o))) (LibErr "json");
        let ib := ib ++ nl in
        os_WriteFile o InfoOpen InfoWrite InfoClose atV (escVer ++ ".info") ib filePerm;;
        tmpZip ← os_CreateTemp o ZipCreateTemp atV "zip-*";
        defer (discard (os_Remove o ZipRemove atV tmpZip))
          (defer (discard (File_Close o ZipClose))
             (let '(bytes, ok) := zip_CreateFromDir E modPath version absSrc in
              File_Write o ZipWrite atV tmpZip bytes;;
              (if ok then ret tt else fail (LibErr "zip"));;
              File_Close o ZipClose;;
              let zipFile := escVer ++ ".zip" in
              os_Rename o ZipRename atV tmpZip zipFile;;
              err ← try (updateListFile o atV version);
              match err with
              | inl e => fail (Wrap "update list" e)
              | inr _ =>
                  ret [(atV, escVer ++ ".mod"); (atV, escVer ++ ".info");
                       (atV, zipFile); (atV, "list")]
              end))
    end.

End WithList.

Module WithoutList.

(** [run] of the second program: the three files only. *)
Definition run (E : Env) (o : Oracle) (srcDir version outRoot : string)
  : M (list (string * string)) :=
  if ((srcDir =? "")%string || (version =? "")%string || (outRoot =? "")%string)%bool
  then fail (Errorf "required flags: -src, -version, -out")
  else if negb (semver.IsValid version) then fail (InvalidVersion version)
  else
    absSrc ← lift (filepath_Abs E srcDir) (LibErr "filepath");
    goModBytes ← lift (src_gomod E absSrc) (Wrap "read go.mod" (LibErr "os"));
    modf ← lift (modfile_Parse E goModBytes) (Wrap "parse go.mod" (LibErr "modfile"));
    match modf with
    | None | Some EmptyString => fail (Errorf "cannot determine module path from go.mod")
    | Some modPath =>
        escPath ← lift (module.EscapePath (module_CheckPath E) modPath)
                       (Wrap "escape module path" (LibErr "module"));
        escVer ← lift (module.EscapeVersion (module_checkElem E) version)
                      (Wrap "escape version" (LibErr "module"));
        let modDir := filepath_Join E outRoot escPath in
        let atV := filepath_Join E modDir "@v" in
        os_MkdirAll o MkdirAllAtV atV dirPerm;;
        os_WriteFile o ModOpen ModWrite ModClose atV (escVer ++ ".mod") goModBytes filePerm;;
        ib ← lift (json_Marshal (mkInfo version (time_Now o))) (LibErr "json");
        let ib := ib ++ nl in
        os_WriteFile o InfoOpen InfoWrite InfoClose atV (escVer ++ ".info") ib filePerm;;
        tmpZip ← os_CreateTemp o ZipCreateTemp atV "zip-*";
        defer (discard (os_Remove o ZipRemove atV tmpZip))
          (defer (discard (File_Close o ZipClose))
             (let '(bytes, ok) := zip_CreateFromDir E modPath version absSrc in
              File_Write o ZipWrite atV tmpZip bytes;;
              (if ok then ret tt else fail (LibErr "zip"));;
              File_Close o ZipClose;;
              let zipFile := escVer ++ ".zip" in
              os_Rename o ZipRename atV tmpZip zipFile;;
              ret [(atV, escVer ++ ".mod"); (atV, escVer ++ ".info"); (atV, zipFile)]))
    end.

End WithoutList.

Example semver_examples :
  semver.IsValid "v1.2.3" = true /\ semver.IsValid "1.2.3" = false /\
  semver.IsValid "v1.2" = true /\ semver.IsValid "v2.0.0-beta" = true /\
  semver.IsValid "v1.0.0+build" = true /\ semver.IsValid "" = false /\
  semver.IsValid "v01.0.0" = false /\ semver.IsValid "v1.0.0-01" = false /\
  semver.IsValid "v1.0.0-a..b" = false /\ semver.IsValid "v1.0.0+" = false /\
  semver.Compare "v2.0.0-beta" "v1.2.0" = 1 /\
  semver.Compare "v1.0.0-alpha" "v1.0.0" = -1 /\
  semver.Compare "v1.0.0-alpha" "v1.0.0-alpha.1" = -1 /\
  semver.Compare "v1.0.0-alpha.1" "v1.0.0-alpha.beta" = -1 /\
  semver.Compare "v1.0.0-beta.2" "v1.0.0-beta.11" = -1 /\
  semver.Compare "v1.0.0" "v1.0.0+build" = 0 /\
  semver.Compare "v1.10.0" "v1.9.0" = 1.
Proof. repeat split; vm_compute; reflexivity. Qed.

(** * Properties *)

(** ** The two sorters keep the contract of [sort.Slice] *)

Section InsertionSort.

Variable less : string -> string -> bool.

(** The order of a sorted prefix read from its end. *)
Let not_before (a b : string) : Prop := less a b = false.

Lemma strict_weak_asym l a b :
  strict_weak less l -> a ∈ l -> b ∈ l -> less a b = true -> less b a = false.
Proof.
  intros SW Ha Hb Hab.
  destruct (less b a) eqn:Hba; [|reflexivity].
  rewrite <- (sw_irrefl less l SW a Ha).
  symmetry. eapply sw_trans; eauto.
Qed.

Lemma strict_weak_subseteq l k :
  strict_weak less l -> k ⊆ l -> strict_weak less k.
Proof.
  intros [I T N] Hs. split.
  - intros a Ha. apply I, Hs, Ha.
  - intros a b c Ha Hb Hc. apply T; apply Hs; assumption.
  - intros a b c Ha Hb Hc. apply N; apply Hs; assumption.
Qed.

Lemma bubble_perm x rpre : bubble less x rpre ≡ₚ x :: rpre.
Proof.
  induction rpre as [|e r IH]; simpl; [reflexivity|].
  destruct (less x e); [|reflexivity].
  rewrite IH. apply Permutation_swap.
Qed.

Lemma bubble_sorted l x rpre :
  strict_weak less l -> x ∈ l -> rpre ⊆ l ->
  StronglySorted not_before rpre ->
  StronglySorted not_before (bubble less x rpre).
Proof.
  intros SW Hx. induction rpre as [|e r IH]; intros Hsub Hs; simpl.
  - repeat constructor.
  - apply StronglySorted_inv in Hs as [Hr He].
    assert (Hel : e ∈ l) by (apply Hsub; left).
    assert (Hrl : r ⊆ l) by (intros y Hy; apply Hsub; right; exact Hy).
    destruct (less x e) eqn:Hxe.
    + constructor; [apply IH; assumption|].
      rewrite (bubble_perm x r). constructor; [|exact He].
      eapply strict_weak_asym; eauto.
    + constructor; [constructor; assumption|].
      constructor; [exact Hxe|].
      rewrite Forall_forall in He |- *. intros y Hy.
      apply (sw_negtrans less l SW x e y); auto.
      apply He, Hy.
Qed.

Lemma insertion_fold_perm l acc :
  fold_left (fun rpre x => bubble less x rpre) l acc ≡ₚ l ++ acc.
Proof.
  revert acc. induction l as [|x l IH]; intros acc; simpl; [reflexivity|].
  rewrite IH, bubble_perm. symmetry. apply Permutation_middle.
Qed.

Lemma insertion_fold_sorted full l acc :
  strict_weak less full -> l ⊆ full -> acc ⊆ full ->
  StronglySorted not_before acc ->
  StronglySorted not_before (fold_left (fun rpre x => bubble less x rpre) l acc).
Proof.
  intros SW. revert acc. induction l as [|x l IH]; intros acc Hl Hacc Hs; simpl.
  - exact Hs.
  - assert (Hx : x ∈ full) by (apply Hl; left).
    apply IH.
    + intros y Hy. apply Hl. right. exact Hy.
    + intros y Hy. rewrite bubble_perm in Hy.
      apply elem_of_cons in Hy as [->|Hy]; [exact Hx|apply Hacc, Hy].
    + eapply bubble_sorted; eauto.
Qed.

Lemma StronglySorted_rev_flip (R : string -> string -> Prop) l :
  StronglySorted R l -> StronglySorted (fun a b => R b a) (reverse l).
Proof.
  induction 1 as [|a l Hs IH Ha]; [constructor|].
  rewrite reverse_cons.
  apply StronglySorted_app_2.
  - intros x y Hx Hy. apply list_elem_of_singleton in Hy as ->.
    rewrite Forall_forall in Ha. apply Ha.
    apply elem_of_reverse. exact Hx.
  - exact IH.
  - repeat constructor.
Qed.

Lemma insertionSort_perm l : insertionSort less l ≡ₚ l.
Proof.
  unfold insertionSort. rewrite reverse_Permutation, insertion_fold_perm.
  rewrite app_nil_r. reflexivity.
Qed.

Lemma insertionSort_sorted l :
  strict_weak less l -> StronglySorted (not_after less) (insertionSort less l).
Proof.
  intros SW. unfold insertionSort.
  apply (StronglySorted_rev_flip not_before).
  apply (insertion_fold_sorted l); [exact SW|set_solver|set_solver|constructor].
Qed.

End InsertionSort.

#[refine] Instance GoInsertionSort : SliceSorter := {| sort_Slice := insertionSort |}.
Proof.
  - intros less l. apply insertionSort_perm.
  - intros less l. apply insertionSort_sorted.
Defined.

#[refine] Instance GoInsertionSortRev : SliceSorter := {| sort_Slice := insertionSortRev |}.
Proof.
  - intros less l. unfold insertionSortRev.
    rewrite insertionSort_perm. apply reverse_Permutation.
  - intros less l SW. unfold insertionSortRev. apply insertionSort_sorted.
    apply (strict_weak_subseteq less l); [exact SW|].
    intros y Hy. rewrite elem_of_reverse in Hy. exact Hy.
Defined.

(** ** Three-way comparisons that order their arguments

    [semver.Compare] and its helpers return -1, 0 or +1. Such a function is
    a preorder comparison on the values satisfying [P] when it is reflexive,
    changes sign when its arguments are exchanged, and [<= 0] is
    transitive. *)

Record cmp_preorder {A : Type} (P : A -> Prop) (cmp : A -> A -> Z) : Prop := {
  cp_refl : forall a, P a -> cmp a a = 0;
  cp_opp : forall a b, P a -> P b -> cmp b a = - cmp a b;
  cp_trans : forall a b c, P a -> P b -> P c ->
    cmp a b <= 0 -> cmp b c <= 0 -> cmp a c <= 0
}.

(** First [c1], and [c2] where [c1] sees no difference. *)
Definition lex {A : Type} (c1 c2 : A -> A -> Z) (a b : A) : Z :=
  if negb (c1 a b =? 0) then c1 a b else c2 a b.

Definition zcmp (a b : Z) : Z := if a <? b then -1 else if b <? a then 1 else 0.

Definition scmp (x y : string) : Z :=
  if (x =? y)%string then 0 else if string_lt x y then -1 else 1.

Section Comparisons.

Context {A : Type} (P : A -> Prop).

Lemma cp_lt_le (cmp : A -> A -> Z) a b c :
  cmp_preorder P cmp -> P a -> P b -> P c ->
  cmp a b < 0 -> cmp b c <= 0 -> cmp a c < 0.
Proof.
  intros H Ha Hb Hc Hab Hbc.
  assert (Hac : cmp a c <= 0) by (eapply (cp_trans P cmp H a b c); auto; lia).
  destruct (Z.eq_dec (cmp a c) 0) as [Hz|]; [|lia].
  assert (Hca : cmp c a <= 0) by (rewrite (cp_opp P cmp H a c); auto; lia).
  pose proof (cp_trans P cmp H b c a Hb Hc Ha Hbc Hca) as Hba.
  rewrite (cp_opp P cmp H a b) in Hba; auto. lia.
Qed.

Lemma cp_le_lt (cmp : A -> A -> Z) a b c :
  cmp_preorder P cmp -> P a -> P b -> P c ->
  cmp a b <= 0 -> cmp b c < 0 -> cmp a c < 0.
Proof.
  intros H Ha Hb Hc Hab Hbc.
  assert (Hac : cmp a c <= 0) by (eapply (cp_trans P cmp H a b c); auto; lia).
  destruct (Z.eq_dec (cmp a c) 0) as [Hz|]; [|lia].
  assert (Hca : cmp c a <= 0) by (rewrite (cp_opp P cmp H a c); auto; lia).
  pose proof (cp_trans P cmp H c a b Hc Ha Hb Hca Hab) as Hcb.
  rewrite (cp_opp P cmp H b c) in Hcb; auto. lia.
Qed.

Lemma cp_eq_trans (cmp : A -> A -> Z) a b c :
  cmp_preorder P cmp -> P a -> P b -> P c ->
  cmp a b = 0 -> cmp b c = 0 -> cmp a c = 0.
Proof.
  intros H Ha Hb Hc Hab Hbc.
  assert (cmp a c <= 0) by (eapply (cp_trans P cmp H a b c); auto; lia).
  assert (cmp c a <= 0).
  { eapply (cp_trans P cmp H c b a); auto.
    - rewrite (cp_opp P cmp H b c); auto; lia.
    - rewrite (cp_opp P cmp H a b); auto; lia. }
  rewrite (cp_opp P cmp H a c) in *; auto. lia.
Qed.

Lemma lex_preorder (c1 c2 : A -> A -> Z) :
  cmp_preorder P c1 -> cmp_preorder P c2 -> cmp_preorder P (lex c1 c2).
Proof.
  intros H1 H2. split.
  - intros a Ha. unfold lex. rewrite (cp_refl P c1 H1 a Ha). simpl.
    apply (cp_refl P c2 H2 a Ha).
  - intros a b Ha Hb. unfold lex.
    rewrite (cp_opp P c1 H1 a b Ha Hb), (cp_opp P c2 H2 a b Ha Hb).
    destruct (Z.eqb_spec (c1 a b) 0) as [E|E];
      destruct (Z.eqb_spec (- c1 a b) 0) as [E'|E']; simpl; lia.
  - intros a b c Ha Hb Hc. unfold lex.
    destruct (Z.eqb_spec (c1 a b) 0) as [Eab|Eab];
      destruct (Z.eqb_spec (c1 b c) 0) as [Ebc|Ebc]; simpl; intros Hab Hbc.
    + rewrite (cp_eq_trans c1 a b c); auto. simpl.
      eapply (cp_trans P c2 H2 a b c); auto.
    + assert (c1 a c < 0) by (eapply (cp_le_lt c1 a b c); auto; lia).
      destruct (Z.eqb_spec (c1 a c) 0); simpl; lia.
    + assert (c1 a c < 0) by (eapply (cp_lt_le c1 a b c); auto; lia).
      destruct (Z.eqb_spec (c1 a c) 0); simpl; lia.
    + assert (c1 a c < 0) by (eapply (cp_lt_le c1 a b c); auto; lia).
      destruct (Z.eqb_spec (c1 a c) 0); simpl; lia.
Qed.

End Comparisons.

(** A comparison of images is a comparison. *)
Lemma pullback_preorder {A B : Type} (f : A -> B) (P : B -> Prop) (cmp : B -> B -> Z) :
  cmp_preorder P cmp ->
  cmp_preorder (fun a => P (f a)) (fun a b => cmp (f a) (f b)).
Proof.
  intros H. split.
  - intros a Ha. apply (cp_refl P cmp H). exact Ha.
  - intros a b Ha Hb. apply (cp_opp P cmp H); assumption.
  - intros a b c Ha Hb Hc. apply (cp_trans P cmp H); assumption.
Qed.

Lemma cmp_preorder_ext {A : Type} (P : A -> Prop) (c c' : A -> A -> Z) :
  (forall a b, P a -> P b -> c' a b = c a b) ->
  cmp_preorder P c -> cmp_preorder P c'.
Proof.
  intros E H. split.
  - intros a Ha. rewrite E by assumption. apply (cp_refl P c H a Ha).
  - intros a b Ha Hb. rewrite !E by assumption. apply (cp_opp P c H); assumption.
  - intros a b d Ha Hb Hd. rewrite !E by assumption. apply (cp_trans P c H); assumption.
Qed.

Lemma zcmp_preorder : cmp_preorder (fun _ => True) zcmp.
Proof.
  split; unfold zcmp.
  - intros a _. rewrite Z.ltb_irrefl. reflexivity.
  - intros a b _ _. destruct (Z.ltb_spec a b), (Z.ltb_spec b a); lia.
  - intros a b c _ _ _.
    destruct (Z.ltb_spec a b), (Z.ltb_spec b a), (Z.ltb_spec b c),
      (Z.ltb_spec c b), (Z.ltb_spec a c), (Z.ltb_spec c a); lia.
Qed.

Lemma string_compare_refl y : String.compare y y = Eq.
Proof.
  induction y as [|c y IH]; simpl; [reflexivity|].
  unfold Ascii.compare. rewrite N.compare_refl. exact IH.
Qed.

Lemma string_lt_spec x y : string_lt x y = true <-> (x ≤ y)%string /\ x <> y.
Proof.
  unfold string_lt, String.ltb, String.le, String.leb.
  destruct (String.compare x y) eqn:E.
  - apply String.compare_eq_iff in E. subst. split; [discriminate|].
    intros [_ H]. contradiction.
  - split; [|reflexivity]. intros _. split; [exact I|].
    intros ->. rewrite string_compare_refl in E. discriminate.
  - split; [discriminate|]. intros [H _]. destruct H.
Qed.

Lemma scmp_le x y : scmp x y <= 0 <-> (x ≤ y)%string.
Proof.
  unfold scmp. destruct (String.eqb_spec x y) as [->|Hne].
  - split; [reflexivity|lia].
  - destruct (string_lt x y) eqn:E.
    + apply string_lt_spec in E as [H _]. split; [auto|lia].
    + split; [lia|]. intros H.
      assert (string_lt x y = true) by (apply string_lt_spec; auto).
      congruence.
Qed.

Lemma scmp_eq x y : scmp x y = 0 <-> x = y.
Proof.
  unfold scmp. destruct (String.eqb_spec x y) as [->|Hne]; [tauto|].
  destruct (string_lt x y); split; (lia || contradiction).
Qed.

Lemma scmp_preorder : cmp_preorder (fun _ => True) scmp.
Proof.
  split.
  - intros a _. apply scmp_eq. reflexivity.
  - intros a b _ _. unfold scmp.
    rewrite (String.eqb_sym b a).
    destruct (String.eqb_spec a b) as [->|Hne]; [reflexivity|].
    destruct (string_lt a b) eqn:Eab, (string_lt b a) eqn:Eba; try reflexivity.
    + apply string_lt_spec in Eab as [H1 _], Eba as [H2 _].
      destruct Hne. apply (anti_symm String.le); assumption.
    + destruct (total String.le a b) as [H|H].
      * assert (string_lt a b = true) by (apply string_lt_spec; auto). congruence.
      * assert (string_lt b a = true) by (apply string_lt_spec; auto). congruence.
  - intros a b c _ _ _. rewrite !scmp_le. intros H1 H2. etransitivity; eassumption.
Qed.

(** ** [compareInt] and the comparison of identifiers are orders *)

Lemma compareInt_lex x y :
  semver.compareInt x y = lex (fun a b => zcmp (len a) (len b)) scmp x y.
Proof.
  unfold semver.compareInt, lex, zcmp, scmp.
  rewrite Z.gtb_ltb.
  destruct (String.eqb_spec x y) as [->|Hne].
  - rewrite Z.ltb_irrefl. reflexivity.
  - destruct (len x <? len y); [reflexivity|].
    destruct (len y <? len x); reflexivity.
Qed.

Lemma compareInt_preorder : cmp_preorder (fun _ => True) semver.compareInt.
Proof.
  apply (cmp_preorder_ext _ (lex (fun a b => zcmp (len a) (len b)) scmp)).
  - intros a b _ _. apply compareInt_lex.
  - apply lex_preorder.
    + apply (pullback_preorder len (fun _ => True) zcmp zcmp_preorder).
    + apply scmp_preorder.
Qed.

(** The comparison of two identifiers of a pre-release: equal identifiers
    compare equal, differing ones as [compareIdent] says. *)
Definition cmpIdent (dx dy : string) : Z :=
  if (dx =? dy)%string then 0 else semver.compareIdent dx dy.

Definition ident_class (d : string) : Z := if semver.isNum d then 0 else 1.
Definition ident_size (d : string) : Z := if semver.isNum d then len d else 0.

Lemma cmpIdent_lex dx dy :
  cmpIdent dx dy =
  lex (fun a b => zcmp (ident_class a) (ident_class b))
      (lex (fun a b => zcmp (ident_size a) (ident_size b)) scmp) dx dy.
Proof.
  unfold cmpIdent, semver.compareIdent, lex, zcmp, scmp, ident_class, ident_size.
  rewrite Z.gtb_ltb.
  destruct (String.eqb_spec dx dy) as [->|Hne].
  - rewrite !Z.ltb_irrefl. reflexivity.
  - destruct (semver.isNum dx), (semver.isNum dy); simpl; try reflexivity.
    destruct (len dx <? len dy); [reflexivity|].
    destruct (len dy <? len dx); reflexivity.
Qed.

Lemma cmpIdent_preorder : cmp_preorder (fun _ => True) cmpIdent.
Proof.
  eapply cmp_preorder_ext.
  - intros a b _ _. apply cmpIdent_lex.
  - apply lex_preorder; [|apply lex_preorder].
    + apply (pullback_preorder ident_class (fun _ => True) zcmp zcmp_preorder).
    + apply (pullback_preorder ident_size (fun _ => True) zcmp zcmp_preorder).
    + apply scmp_preorder.
Qed.

Lemma compareIdent_nonzero dx dy : semver.compareIdent dx dy <> 0.
Proof.
  unfold semver.compareIdent.
  repeat match goal with |- context [if ?b then _ else _] => destruct b end; lia.
Qed.

Lemma cmpIdent_eq dx dy : cmpIdent dx dy = 0 <-> dx = dy.
Proof.
  unfold cmpIdent. destruct (String.eqb_spec dx dy) as [->|Hne]; [tauto|].
  split; [|contradiction]. intros H. destruct (compareIdent_nonzero dx dy H).
Qed.

(** ** Lists of identifiers *)

(** Lexicographic comparison of two lists; a proper prefix comes first. *)
Fixpoint list_lex (c : string -> string -> Z) (k1 k2 : list string) : Z :=
  match k1, k2 with
  | [], [] => 0
  | [], _ :: _ => -1
  | _ :: _, [] => 1
  | a :: k1', b :: k2' => if negb (c a b =? 0) then c a b else list_lex c k1' k2'
  end.

Lemma list_lex_preorder_upto (c : string -> string -> Z) n :
  cmp_preorder (fun _ => True) c ->
  cmp_preorder (fun k : list string => (List.length k <= n)%nat) (list_lex c).
Proof.
  intros H. induction n as [|n IH].
  - split.
    + intros [|a k] Hk; [reflexivity|simpl in Hk; lia].
    + intros [|a k] [|b k'] Hk Hk'; simpl in *; (reflexivity || lia).
    + intros [|a k] [|b k'] [|d k''] Hk Hk' Hk''; simpl in *; lia.
  - pose (P' := fun p : string * list string => (List.length (snd p) <= n)%nat).
    assert (L : cmp_preorder P'
                  (lex (fun p q => c (fst p) (fst q))
                       (fun p q => list_lex c (snd p) (snd q)))).
    { apply lex_preorder.
      - split.
        + intros p _. apply (cp_refl _ c H). exact I.
        + intros p q _ _. apply (cp_opp _ c H); exact I.
        + intros p q r _ _ _. apply (cp_trans _ c H); exact I.
      - apply (pullback_preorder snd _ (list_lex c) IH). }
    split.
    + intros [|a k] Hk; [reflexivity|].
      apply (cp_refl _ _ L (a, k)). unfold P'. simpl in *. lia.
    + intros [|a k] [|b k'] Hk Hk'; try reflexivity.
      apply (cp_opp _ _ L (a, k) (b, k')); unfold P'; simpl in *; lia.
    + intros [|a k] [|b k'] [|d k''] Hk Hk' Hk''; try (simpl; lia).
      apply (cp_trans _ _ L (a, k) (b, k') (d, k'')); unfold P'; simpl in *; lia.
Qed.

Lemma list_lex_preorder (c : string -> string -> Z) :
  cmp_preorder (fun _ => True) c -> cmp_preorder (fun _ => True) (list_lex c).
Proof.
  intros H. split.
  - intros a _.
    apply (cp_refl _ _ (list_lex_preorder_upto c (List.length a) H)). lia.
  - intros a b _ _.
    apply (cp_opp _ _ (list_lex_preorder_upto c (List.length a + List.length b) H)); lia.
  - intros a b d _ _ _.
    apply (cp_trans _ _ (list_lex_preorder_upto c
             (List.length a + List.length b + List.length d) H)); lia.
Qed.

(** The key of a pre-release string: no identifier for the empty string, which
    stands for a release and comes last. *)
Definition cmpPre (k1 k2 : list string) : Z :=
  match k1, k2 with
  | [], [] => 0
  | [], _ :: _ => 1
  | _ :: _, [] => -1
  | _, _ => list_lex cmpIdent k1 k2
  end.

Lemma cmpPre_preorder : cmp_preorder (fun _ => True) cmpPre.
Proof.
  pose proof (list_lex_preorder cmpIdent cmpIdent_preorder) as L.
  split.
  - intros [|a k] _; [reflexivity|]. apply (cp_refl _ _ L). exact I.
  - intros [|a k] [|b k'] _ _; try reflexivity.
    apply (cp_opp _ _ L); exact I.
  - intros [|a k] [|b k'] [|d k''] _ _ _; try (unfold cmpPre; lia).
    apply (cp_trans _ _ L); exact I.
Qed.

(** ** [comparePrerelease] compares the lists of identifiers *)

(** The identifiers of [s], cut at every ['.']: what the loop of
    [comparePrerelease] reads with [nextIdent], one after the other. *)
Fixpoint split_dot (s : string) : list string :=
  match s with
  | EmptyString => [EmptyString]
  | String c s' =>
      if (c =? ".")%char then EmptyString :: split_dot s'
      else match split_dot s' with
           | h :: t => String c h :: t
           | [] => [String c EmptyString]
           end
  end.

Definition idents_of (x : string) : list string :=
  match x with
  | EmptyString => []
  | String _ x1 => split_dot x1
  end.

(** The loop, on the identifiers: as in the source, it answers -1 when
    both lists end together. *)
Fixpoint lexIdents (k1 k2 : list string) : Z :=
  match k1, k2 with
  | a :: k1', b :: k2' =>
      if negb (a =? b)%string then semver.compareIdent a b else lexIdents k1' k2'
  | [], _ => -1
  | _, [] => 1
  end.

Lemma split_dot_nonempty s : split_dot s <> [].
Proof.
  destruct s as [|c s]; simpl; [discriminate|].
  destruct (c =? ".")%char; [discriminate|].
  destruct (split_dot s); discriminate.
Qed.

Lemma nextIdent_split x1 :
  split_dot x1 = fst (semver.nextIdent x1) :: idents_of (snd (semver.nextIdent x1)).
Proof.
  unfold semver.nextIdent.
  induction x1 as [|c s IH]; simpl; [reflexivity|].
  destruct (Ascii.eqb_spec c ".") as [->|Hc]; simpl; [reflexivity|].
  rewrite IH. destruct (span _ s) as [a b]. reflexivity.
Qed.

Lemma span_length p s :
  (String.length (snd (span p s)) <= String.length s)%nat.
Proof.
  induction s as [|c s IH]; simpl; [lia|].
  destruct (p c); simpl; [|lia].
  destruct (span p s) as [a b]. simpl in *. lia.
Qed.

(** Enough fuel: the loop does what [lexIdents] does. *)
Lemma comparePrereleaseLoop_idents fuel x y :
  (String.length x <= fuel)%nat ->
  semver.comparePrereleaseLoop fuel x y = lexIdents (idents_of x) (idents_of y).
Proof.
  revert x y. induction fuel as [|fuel IH]; intros [|c x1] y Hf;
    simpl in Hf; try lia; try (destruct y; reflexivity).
  destruct y as [|d y1].
  - simpl. destruct (split_dot x1) eqn:E; [destruct (split_dot_nonempty x1 E)|reflexivity].
  - cbn [semver.comparePrereleaseLoop idents_of].
    rewrite (nextIdent_split x1), (nextIdent_split y1).
    pose proof (span_length (fun c => negb (c =? ".")%char) x1) as Hl.
    fold (semver.nextIdent x1) in Hl.
    destruct (semver.nextIdent x1) as [dx x2], (semver.nextIdent y1) as [dy y2].
    cbn [fst snd lexIdents] in *.
    destruct (negb (dx =? dy)%string); [reflexivity|].
    apply IH. lia.
Qed.

Lemma lexIdents_list_lex k1 k2 :
  k1 <> k2 -> lexIdents k1 k2 = list_lex cmpIdent k1 k2.
Proof.
  revert k2. induction k1 as [|a k1 IH]; intros [|b k2] Hne; simpl;
    try reflexivity; try congruence.
  unfold cmpIdent at 1 2.
  destruct (String.eqb_spec a b) as [->|Hab]; simpl.
  - apply IH. congruence.
  - destruct (Z.eqb_spec (semver.compareIdent a b) 0) as [E|E]; [|reflexivity].
    destruct (compareIdent_nonzero a b E).
Qed.

(** [split_dot] loses nothing. *)
Fixpoint join_dot (k : list string) : string :=
  match k with
  | [] => EmptyString
  | [a] => a
  | a :: k' => a ++ String "." (join_dot k')
  end.

Lemma join_dot_head c h t : join_dot (String c h :: t) = String c (join_dot (h :: t)).
Proof. destruct t; reflexivity. Qed.

Lemma join_split_dot s : join_dot (split_dot s) = s.
Proof.
  induction s as [|c s IH]; [reflexivity|].
  simpl. pose proof (split_dot_nonempty s) as Hn.
  destruct (split_dot s) as [|h t] eqn:E; [contradiction|].
  destruct (Ascii.eqb_spec c ".") as [->|Hc].
  - change (join_dot (EmptyString :: h :: t)) with (String "." (join_dot (h :: t))).
    rewrite IH. reflexivity.
  - rewrite join_dot_head, IH. reflexivity.
Qed.

(** The pre-release strings [parse] produces: empty, or starting with ['-']. *)
Definition wf_prerelease (x : string) : Prop :=
  x = EmptyString \/ exists x1, x = String "-" x1.

Lemma idents_of_inj x y :
  wf_prerelease x -> wf_prerelease y -> idents_of x = idents_of y -> x = y.
Proof.
  intros [->|[x1 ->]] [->|[y1 ->]]; simpl; intros E.
  - reflexivity.
  - destruct (split_dot_nonempty y1). auto.
  - destruct (split_dot_nonempty x1). auto.
  - f_equal. rewrite <- (join_split_dot x1), <- (join_split_dot y1), E. reflexivity.
Qed.

Lemma comparePrerelease_idents x y :
  wf_prerelease x -> wf_prerelease y ->
  semver.comparePrerelease x y = cmpPre (idents_of x) (idents_of y).
Proof.
  intros Hx Hy. unfold semver.comparePrerelease.
  destruct (String.eqb_spec x y) as [->|Hne].
  - symmetry. apply (cp_refl _ _ cmpPre_preorder). exact I.
  - destruct x as [|c x1]; [|destruct y as [|d y1]].
    + simpl. destruct y as [|d y1]; [contradiction|]. simpl.
      destruct (split_dot y1) eqn:E; [destruct (split_dot_nonempty y1 E)|reflexivity].
    + simpl. destruct (split_dot x1) eqn:E; [destruct (split_dot_nonempty x1 E)|reflexivity].
    + cbn [String.eqb].
      rewrite comparePrereleaseLoop_idents by lia.
      rewrite lexIdents_list_lex.
      2:{ intros E. apply Hne. apply idents_of_inj; assumption. }
      simpl. destruct (split_dot x1) eqn:Ex; [destruct (split_dot_nonempty x1 Ex)|].
      destruct (split_dot y1) eqn:Ey; [destruct (split_dot_nonempty y1 Ey)|].
      reflexivity.
Qed.

Lemma comparePrerelease_preorder : cmp_preorder wf_prerelease semver.comparePrerelease.
Proof.
  apply (cmp_preorder_ext _ (fun x y => cmpPre (idents_of x) (idents_of y))).
  - intros a b Ha Hb. apply comparePrerelease_idents; assumption.
  - pose proof (pullback_preorder idents_of (fun _ => True) cmpPre cmpPre_preorder) as H.
    split.
    + intros a _. apply (cp_refl _ _ H). exact I.
    + intros a b _ _. apply (cp_opp _ _ H); exact I.
    + intros a b c _ _ _. apply (cp_trans _ _ H); exact I.
Qed.

(** ** [semver.Compare] is a preorder comparison on all strings *)

Lemma string_app_cons c s t : String c s ++ t = String c (s ++ t).
Proof. reflexivity. Qed.

Lemma string_app_nil_l t : EmptyString ++ t = t.
Proof. reflexivity. Qed.

Lemma string_app_nil_r s : s ++ EmptyString = s.
Proof. induction s as [|c s IH]; [reflexivity|]. rewrite string_app_cons, IH. reflexivity. Qed.

Lemma string_app_assoc s t u : (s ++ t) ++ u = s ++ (t ++ u).
Proof.
  induction s as [|c s IH]; [reflexivity|].
  rewrite !string_app_cons, IH. reflexivity.
Qed.

Lemma string_app_length s t :
  String.length (s ++ t) = (String.length s + String.length t)%nat.
Proof.
  induction s as [|c s IH]; [reflexivity|].
  rewrite string_app_cons. simpl. rewrite IH. reflexivity.
Qed.

Lemma scanIdents_prefix pre seen cur v t r :
  semver.scanIdents pre seen cur v = Some (t, r) -> exists s, t = seen ++ s.
Proof.
  revert seen cur. induction v as [|c v IH]; intros seen cur; simpl.
  - destruct (_ || _)%bool; [discriminate|].
    intros [= <- <-]. exists EmptyString. symmetry. apply string_app_nil_r.
  - destruct (pre && (c =? "+")%char)%bool.
    { destruct (_ || _)%bool; [discriminate|].
      intros [= <- <-]. exists EmptyString. symmetry. apply string_app_nil_r. }
    destruct (negb (semver.isIdentChar c) && negb (c =? ".")%char)%bool; [discriminate|].
    destruct (c =? ".")%char.
    + destruct (_ || _)%bool; [discriminate|].
      intros H. apply IH in H as [s ->]. rewrite string_app_assoc. eauto.
    + intros H. apply IH in H as [s ->]. rewrite string_app_assoc. eauto.
Qed.

Lemma parseTail_wf ma mi pa v p :
  semver.parseTail ma mi pa v = Some p -> wf_prerelease (semver.prerelease p).
Proof.
  unfold semver.parseTail.
  destruct (match v with String "-" _ => semver.parsePrerelease v | _ => Some (EmptyString, v) end)
    as [[pre v']|] eqn:E1; [|discriminate].
  destruct (match v' with String "+" _ => semver.parseBuild v' | _ => Some (EmptyString, v') end)
    as [[bu v'']|]; [|discriminate].
  destruct v''; [|discriminate]. intros [= <-]. simpl.
  assert (Hpre : semver.parsePrerelease v = Some (pre, v') \/ pre = EmptyString).
  { destruct v as [|c v0]; [right; congruence|].
    destruct (Ascii.eqb_spec c "-") as [->|Hc]; [left; exact E1|].
    right. destruct c as [[] [] [] [] [] [] [] []]; try congruence. }
  destruct Hpre as [Hp| ->]; [|left; reflexivity].
  unfold semver.parsePrerelease in Hp.
  destruct v as [|c v0]; [discriminate|].
  destruct (Ascii.eqb_spec c "-") as [->|Hc].
  - apply scanIdents_prefix in Hp as [s ->]. right. eexists. reflexivity.
  - destruct c as [[] [] [] [] [] [] [] []]; try discriminate. congruence.
Qed.

Lemma parse_wf v p : semver.parse v = Some p -> wf_prerelease (semver.prerelease p).
Proof.
  unfold semver.parse.
  repeat match goal with
  | |- match ?x with _ => _ end = Some _ -> _ =>
      match x with
      | semver.parseInt _ => destruct x as [[? ?]|]
      | _ => destruct x
      end
  end; try discriminate; try (intros [= <-]; left; reflexivity).
  all: apply parseTail_wf.
Qed.

(** [Compare] on two parsed versions. *)
Definition cmpParsed (p q : semver.parsed) : Z :=
  lex (fun p q => semver.compareInt (semver.major p) (semver.major q))
    (lex (fun p q => semver.compareInt (semver.minor p) (semver.minor q))
       (lex (fun p q => semver.compareInt (semver.patch p) (semver.patch q))
          (fun p q => semver.comparePrerelease (semver.prerelease p) (semver.prerelease q))))
    p q.

Lemma cmpParsed_preorder :
  cmp_preorder (fun p => wf_prerelease (semver.prerelease p)) cmpParsed.
Proof.
  assert (I3 : forall f : semver.parsed -> string,
             cmp_preorder (fun p => wf_prerelease (semver.prerelease p))
               (fun p q => semver.compareInt (f p) (f q))).
  { intros f.
    pose proof (pullback_preorder f _ _ compareInt_preorder) as H.
    split.
    - intros a _. apply (cp_refl _ _ H). exact I.
    - intros a b _ _. apply (cp_opp _ _ H); exact I.
    - intros a b c _ _ _. apply (cp_trans _ _ H); exact I. }
  unfold cmpParsed. repeat apply lex_preorder; try apply I3.
  apply (pullback_preorder semver.prerelease _ _ comparePrerelease_preorder).
Qed.

Lemma Compare_parsed v w :
  semver.Compare v w =
  match semver.parse v, semver.parse w with
  | None, None => 0
  | None, Some _ => -1
  | Some _, None => 1
  | Some p, Some q => cmpParsed p q
  end.
Proof. reflexivity. Qed.

Theorem Compare_preorder : cmp_preorder (fun _ => True) semver.Compare.
Proof.
  pose proof cmpParsed_preorder as H.
  split.
  - intros v _. rewrite Compare_parsed.
    destruct (semver.parse v) as [p|] eqn:E; [|reflexivity].
    apply (cp_refl _ _ H). eapply parse_wf; eauto.
  - intros v w _ _. rewrite !Compare_parsed.
    destruct (semver.parse v) as [p|] eqn:Ev, (semver.parse w) as [q|] eqn:Ew;
      try reflexivity.
    apply (cp_opp _ _ H); eapply parse_wf; eauto.
  - intros u v w _ _ _. rewrite !Compare_parsed.
    destruct (semver.parse u) as [p|] eqn:Eu, (semver.parse v) as [q|] eqn:Ev,
      (semver.parse w) as [r|] eqn:Ew; try lia.
    apply (cp_trans _ _ H); eapply parse_wf; eauto.
Qed.

(** The [less] of [updateListFile] is a strict weak ordering of any slice. *)
Theorem semver_less_strict_weak l : strict_weak semver_less l.
Proof.
  pose proof Compare_preorder as H. unfold semver_less.
  split.
  - intros a _. rewrite (cp_refl _ _ H a I). reflexivity.
  - intros a b c _ _ _ Hab Hbc.
    apply Z.ltb_lt in Hab, Hbc. apply Z.ltb_lt.
    apply (cp_lt_le (fun _ => True) semver.Compare a b c); auto. lia.
  - intros a b c _ _ _ Hab Hbc.
    apply Z.ltb_ge in Hab, Hbc. apply Z.ltb_ge.
    assert (semver.Compare c a <= 0).
    { apply (cp_trans _ _ H c b a); auto.
      - rewrite (cp_opp _ _ H b c); auto. lia.
      - rewrite (cp_opp _ _ H a b); auto. lia. }
    rewrite (cp_opp _ _ H c a) in *; auto. lia.
Qed.

(** What a sorted slice means for [semver.Compare]. *)
Lemma not_after_Compare a b : not_after semver_less a b <-> semver.Compare a b <= 0.
Proof.
  unfold not_after, semver_less.
  rewrite (cp_opp _ _ Compare_preorder a b I I), Z.ltb_ge. lia.
Qed.

(** ** The output tree: lookups after an update *)

Lemma file_at_put_file fs dir base f d b :
  is_Some (fs !! dir) ->
  file_at (put_file dir base f fs) d b =
  if decide (d = dir /\ b = base) then Some f else file_at fs d b.
Proof.
  intros [e He]. unfold file_at, put_file. rewrite He.
  destruct (decide (d = dir)) as [->|Hd].
  - rewrite lookup_insert_eq, He.
    destruct (decide (b = base)) as [->|Hb].
    + rewrite lookup_insert_eq. rewrite decide_True by auto. reflexivity.
    + rewrite lookup_insert_ne by auto. rewrite decide_False by tauto. reflexivity.
  - rewrite lookup_insert_ne by auto. rewrite decide_False by tauto. reflexivity.
Qed.

Lemma file_at_del_file fs dir base d b :
  file_at (del_file dir base fs) d b =
  if decide (d = dir /\ b = base) then None else file_at fs d b.
Proof.
  unfold file_at, del_file. destruct (fs !! dir) as [e|] eqn:He.
  - destruct (decide (d = dir)) as [->|Hd].
    + rewrite lookup_insert_eq, He.
      destruct (decide (b = base)) as [->|Hb].
      * rewrite lookup_delete_eq. rewrite decide_True by auto. reflexivity.
      * rewrite lookup_delete_ne by auto. rewrite decide_False by tauto. reflexivity.
    + rewrite lookup_insert_ne by auto. rewrite decide_False by tauto. reflexivity.
  - destruct (decide (d = dir /\ b = base)) as [[-> ->]|]; [|reflexivity].
    rewrite He. reflexivity.
Qed.

Lemma put_file_dirs fs dir base f d :
  is_Some (put_file dir base f fs !! d) <-> is_Some (fs !! d).
Proof.
  unfold put_file. destruct (fs !! dir) as [e|] eqn:He; [|tauto].
  destruct (decide (d = dir)) as [->|Hd].
  - rewrite lookup_insert_eq, He. split; eauto.
  - rewrite lookup_insert_ne by auto. tauto.
Qed.

Lemma del_file_dirs fs dir base d :
  is_Some (del_file dir base fs !! d) <-> is_Some (fs !! d).
Proof.
  unfold del_file. destruct (fs !! dir) as [e|] eqn:He; [|tauto].
  destruct (decide (d = dir)) as [->|Hd].
  - rewrite lookup_insert_eq, He. split; eauto.
  - rewrite lookup_insert_ne by auto. tauto.
Qed.

Lemma file_at_dir fs dir base f : file_at fs dir base = Some f -> is_Some (fs !! dir).
Proof. unfold file_at. destruct (fs !! dir); [eauto|discriminate]. Qed.

(** Creating an entry that was free and removing it again restores the tree. *)
Lemma del_put_file fs dir base f :
  file_at fs dir base = None -> del_file dir base (put_file dir base f fs) = fs.
Proof.
  unfold file_at, del_file, put_file. destruct (fs !! dir) as [e|] eqn:He.
  - intros Hb. rewrite lookup_insert_eq, insert_insert_eq, delete_insert_eq.
    rewrite delete_id by exact Hb. apply insert_id. exact He.
  - intros _. rewrite He. reflexivity.
Qed.

Lemma put_put_file fs dir base f g :
  put_file dir base f (put_file dir base g fs) = put_file dir base f fs.
Proof.
  unfold put_file. destruct (fs !! dir) as [e|] eqn:He.
  - rewrite lookup_insert_eq, insert_insert_eq, insert_insert_eq. reflexivity.
  - rewrite He. reflexivity.
Qed.

(** ** How the tree changes during a computation *)

(** [s] has the directories of [fs], and the files of [fs] except, at most,
    the entries of [dir] whose name satisfies [N]. *)
Definition differs_in (dir : string) (N : string -> Prop) (fs s : FS) : Prop :=
  (forall d, is_Some (fs !! d) -> is_Some (s !! d)) /\
  (forall d b, ~ (d = dir /\ N b) -> file_at s d b = file_at fs d b).

(** [w'] continues [w]: its history is the one of [w] with new states in
    front, each related by [R] to the tree of [w], the latest being the tree
    of [w']. *)
Definition continues (R : FS -> FS -> Prop) (w w' : World) : Prop :=
  exists new, w_hist w' = (new ++ w_hist w)%list /\
              w_fs w' = hd (w_fs w) new /\
              Forall (R (w_fs w)) new.

(** [s] was the state of the tree at some point after [w], up to [w']. *)
Definition seen_between (w w' : World) (s : FS) : Prop :=
  exists new, w_hist w' = (new ++ w_hist w)%list /\ s ∈ new.

Lemma differs_in_refl dir N fs : differs_in dir N fs fs.
Proof. split; auto. Qed.

Lemma differs_in_trans dir N fs1 fs2 fs3 :
  differs_in dir N fs1 fs2 -> differs_in dir N fs2 fs3 -> differs_in dir N fs1 fs3.
Proof.
  intros [D1 F1] [D2 F2]. split; [auto|].
  intros d b H. rewrite F2, F1 by exact H. reflexivity.
Qed.

Lemma differs_in_mono dir (N N' : string -> Prop) fs s :
  (forall b, N b -> N' b) -> differs_in dir N fs s -> differs_in dir N' fs s.
Proof.
  intros HN [D F]. split; [exact D|].
  intros d b H. apply F. intros [-> Hb]. apply H. auto.
Qed.

Lemma continues_refl R w : continues R w w.
Proof. exists []. repeat split. constructor. Qed.

Lemma continues_cur R w w' :
  (forall fs, R fs fs) -> continues R w w' -> R (w_fs w) (w_fs w').
Proof.
  intros Hr (new & _ & -> & HF). destruct new as [|s new]; simpl; [apply Hr|].
  inversion HF; assumption.
Qed.

Lemma continues_trans R w1 w2 w3 :
  (forall fs, R fs fs) ->
  (forall a b c, R a b -> R b c -> R a c) ->
  continues R w1 w2 -> continues R w2 w3 -> continues R w1 w3.
Proof.
  intros Hr Ht H12 H23.
  pose proof (continues_cur R w1 w2 Hr H12) as Hc.
  destruct H12 as (n1 & E1 & C1 & F1), H23 as (n2 & E2 & C2 & F2).
  exists (n2 ++ n1)%list. split; [|split].
  - rewrite E2, E1. apply app_assoc.
  - rewrite C2. destruct n2; simpl; [exact C1|reflexivity].
  - apply Forall_app. split; [|exact F1].
    eapply Forall_impl; [exact F2|]. intros s Hs. eapply Ht; eauto.
Qed.

Lemma continues_mono (R R' : FS -> FS -> Prop) w w' :
  (forall s, R (w_fs w) s -> R' (w_fs w) s) -> continues R w w' -> continues R' w w'.
Proof.
  intros H (new & E & C & F). exists new. repeat split; auto.
  eapply Forall_impl; eauto.
Qed.

Lemma seen_between_trans_l w1 w2 w3 R s :
  seen_between w1 w2 s -> continues R w2 w3 -> seen_between w1 w3 s.
Proof.
  intros (n1 & E1 & H1) (n2 & E2 & _). exists (n2 ++ n1)%list. split.
  - rewrite E2, E1. apply app_assoc.
  - apply elem_of_app. auto.
Qed.

Lemma seen_between_trans_r w1 w2 w3 R s :
  continues R w1 w2 -> seen_between w2 w3 s -> seen_between w1 w3 s.
Proof.
  intros (n1 & E1 & _) (n2 & E2 & H2). exists (n2 ++ n1)%list. split.
  - rewrite E2, E1. apply app_assoc.
  - apply elem_of_app. auto.
Qed.

(** ** Stepping through a computation *)

Lemma bind_inv {A B} (m : M A) (k : A -> M B) w r w' :
  (m ≫= k) w = (r, w') ->
  (exists e, m w = (inl e, w') /\ r = inl e) \/
  (exists a w1, m w = (inr a, w1) /\ k a w1 = (r, w')).
Proof.
  unfold mbind, M_bind, bind. destruct (m w) as [[e|a] w1].
  - intros [= <- <-]. left. eauto.
  - intros H. right. eauto.
Qed.

Lemma bind_inr {A B} (m : M A) (k : A -> M B) w b w' :
  (m ≫= k) w = (inr b, w') ->
  exists a w1, m w = (inr a, w1) /\ k a w1 = (inr b, w').
Proof.
  intros H. apply bind_inv in H as [(e & _ & He)|H]; [discriminate|exact H].
Qed.

Lemma hd_reverse (l : list FS) d : hd d (reverse l) = List.last l d.
Proof.
  induction l as [|a l IH] using rev_ind; [reflexivity|].
  rewrite reverse_app, last_last. reflexivity.
Qed.

Lemma commit_eq states w :
  commit states w = (inr tt, mkWorld (List.last states (w_fs w)) (reverse states ++ w_hist w)).
Proof. reflexivity. Qed.

Lemma commit_continues R states w :
  Forall (R (w_fs w)) states -> continues R w (snd (commit states w)).
Proof.
  intros H. exists (reverse states). simpl. repeat split.
  - symmetry. apply hd_reverse.
  - apply Forall_reverse. exact H.
Qed.

Lemma continues_one R w s :
  R (w_fs w) s -> continues R w (mkWorld s (s :: w_hist w)).
Proof. intros H. exists [s]. repeat split. repeat constructor. exact H. Qed.

Lemma seen_one w s : seen_between w (mkWorld s (s :: w_hist w)) s.
Proof. exists [s]. split; [reflexivity|]. apply list_elem_of_singleton. reflexivity. Qed.

Lemma commit_seen states w s : s ∈ states -> seen_between w (snd (commit states w)) s.
Proof.
  intros H. exists (reverse states). simpl. split; [reflexivity|].
  apply elem_of_reverse. exact H.
Qed.

Lemma differs_in_put_file dir base f fs :
  differs_in dir (eq base) fs (put_file dir base f fs).
Proof.
  split.
  - intros d. apply put_file_dirs.
  - intros d b H. destruct (fs !! dir) as [e|] eqn:He.
    + rewrite file_at_put_file by eauto.
      rewrite decide_False; [reflexivity|]. intros [-> ->]. apply H. auto.
    + unfold put_file. rewrite He. reflexivity.
Qed.

Lemma differs_in_del_file dir base fs :
  differs_in dir (eq base) fs (del_file dir base fs).
Proof.
  split.
  - intros d. apply del_file_dirs.
  - intros d b H. rewrite file_at_del_file.
    rewrite decide_False; [reflexivity|]. intros [-> ->]. apply H. auto.
Qed.

(** [s] is [fs] except, at most, for the entry [base] of [dir]. *)
Definition only_at (dir base : string) (fs s : FS) : Prop :=
  del_file dir base s = del_file dir base fs.

Lemma del_del_file fs dir base :
  del_file dir base (del_file dir base fs) = del_file dir base fs.
Proof.
  unfold del_file. destruct (fs !! dir) as [e|] eqn:He.
  - rewrite lookup_insert_eq, insert_insert_eq, delete_delete_eq. reflexivity.
  - rewrite He. reflexivity.
Qed.

Lemma del_file_put_file fs dir base f :
  del_file dir base (put_file dir base f fs) = del_file dir base fs.
Proof.
  unfold del_file, put_file. destruct (fs !! dir) as [e|] eqn:He.
  - rewrite lookup_insert_eq, insert_insert_eq, delete_insert_eq. reflexivity.
  - rewrite He. reflexivity.
Qed.

Lemma del_file_id fs dir base : file_at fs dir base = None -> del_file dir base fs = fs.
Proof.
  unfold file_at, del_file. destruct (fs !! dir) as [e|] eqn:He; [|reflexivity].
  intros Hb. rewrite delete_id by exact Hb. apply insert_id. exact He.
Qed.

Lemma only_at_refl dir base fs : only_at dir base fs fs.
Proof. reflexivity. Qed.

Lemma only_at_trans dir base a b c :
  only_at dir base a b -> only_at dir base b c -> only_at dir base a c.
Proof. unfold only_at. congruence. Qed.

Lemma only_at_put_file dir base f fs : only_at dir base fs (put_file dir base f fs).
Proof. apply del_file_put_file. Qed.

Lemma only_at_del_file dir base fs : only_at dir base fs (del_file dir base fs).
Proof. apply del_del_file. Qed.

Lemma only_at_differs dir base fs s :
  only_at dir base fs s -> differs_in dir (eq base) fs s.
Proof.
  unfold only_at. intros H. split.
  - intros d. rewrite <- (del_file_dirs s dir base d), H, del_file_dirs. auto.
  - intros d b Hn.
    assert (E : forall t, file_at (del_file dir base t) d b = file_at t d b).
    { intros t. rewrite file_at_del_file, decide_False; [reflexivity|].
      intros [-> ->]. apply Hn. auto. }
    rewrite <- (E s), H, E. reflexivity.
Qed.

(** Two trees that agree outside a free entry are equal. *)
Lemma only_at_free dir base fs s :
  only_at dir base fs s -> file_at fs dir base = None -> file_at s dir base = None -> s = fs.
Proof.
  unfold only_at. intros H H1 H2.
  rewrite <- (del_file_id s dir base H2), <- (del_file_id fs dir base H1). exact H.
Qed.

(** ** What each system call does *)

Lemma os_MkdirAll_spec o s dir perm w r w' :
  os_MkdirAll o s dir perm w = (r, w') ->
  continues (differs_in dir (fun _ => False)) w w' /\
  (r = inr tt -> is_Some (w_fs w' !! dir)) /\
  (fails o s = true -> r = inl (SysErr s)).
Proof.
  unfold os_MkdirAll, mbind, M_bind, bind, get_fs, fail, ret.
  destruct (fails o s).
  - intros [= <- <-]. split; [apply continues_refl|]. split; [discriminate|auto].
  - destruct (w_fs w !! dir) as [e|] eqn:He.
    + intros [= <- <-]. split; [apply continues_refl|].
      split; [rewrite He; eauto|discriminate].
    + rewrite commit_eq. intros [= <- <-]. split; [|split; [|discriminate]].
      * apply continues_one. split.
        -- intros d [x Hx]. destruct (decide (d = dir)) as [->|Hd].
           ++ rewrite lookup_insert_eq. eauto.
           ++ rewrite lookup_insert_ne by auto. eauto.
        -- intros d b _. unfold file_at.
           destruct (decide (d = dir)) as [->|Hd].
           ++ rewrite lookup_insert_eq, He. apply lookup_empty.
           ++ rewrite lookup_insert_ne by auto. reflexivity.
      * intros _. cbn [w_fs List.last]. rewrite lookup_insert_eq. eauto.
Qed.

Lemma substring_full s : substring 0 (String.length s) s = s.
Proof. induction s as [|c s IH]; simpl; [reflexivity|]. rewrite IH. reflexivity. Qed.

Lemma last_fmap_seq (f : nat -> FS) n d :
  List.last (f <$> seq 1 n) d = match n with O => d | S _ => f n end.
Proof.
  destruct n as [|n]; [reflexivity|].
  rewrite seq_S, fmap_app. simpl. rewrite last_last. reflexivity.
Qed.

Lemma File_Write_spec o s dir base data w r w' :
  File_Write o s dir base data w = (r, w') ->
  continues (only_at dir base) w w' /\
  (r = inr tt ->
   fails o s = false /\
   exists f, file_at (w_fs w) dir base = Some f /\
             file_at (w_fs w') dir base = Some (mkFile (f_data f ++ data) (f_mode f)) /\
             forall k, (1 <= k <= String.length data)%nat ->
               exists st, seen_between w w' st /\
                 file_at st dir base = Some (mkFile (f_data f ++ substring 0 k data) (f_mode f))) /\
  (fails o s = true -> r = inl (SysErr s)).
Proof.
  unfold File_Write, mbind, M_bind, bind, get_fs, fail, ret.
  destruct (file_at (w_fs w) dir base) as [f|] eqn:Hf.
  - rewrite commit_eq.
    set (n := if fails o s then Nat.min _ _ else String.length data).
    set (st := fun k => put_file dir base _ (w_fs w)).
    intros H.
    assert (Hw : w' = mkWorld (List.last (st <$> seq 1 n) (w_fs w))
                        (reverse (st <$> seq 1 n) ++ w_hist w))
      by (destruct (fails o s); inversion H; reflexivity).
    assert (Hr : r = if fails o s then inl (SysErr s) else inr tt)
      by (destruct (fails o s); inversion H; reflexivity).
    clear H. subst w'. pose proof (file_at_dir _ _ _ _ Hf) as Hd.
    split; [|split].
    + apply (commit_continues _ (st <$> seq 1 n)).
      apply Forall_fmap, Forall_forall. intros k _. apply only_at_put_file.
    + intros ->. destruct (fails o s) eqn:Ef; [discriminate|]. split; [reflexivity|].
      exists f. split; [reflexivity|]. subst n. split.
      * simpl. rewrite last_fmap_seq. destruct data as [|c data].
        -- simpl. rewrite Hf, string_app_nil_r. destruct f; reflexivity.
        -- cbn [String.length]. unfold st.
           rewrite file_at_put_file, decide_True by auto.
           rewrite <- (substring_full (String c data)) at 2. reflexivity.
      * intros k Hk. exists (st k). split.
        -- apply (commit_seen (st <$> seq 1 (String.length data))).
           apply list_elem_of_fmap. exists k. split; [reflexivity|].
           apply elem_of_seq. lia.
        -- unfold st. rewrite file_at_put_file, decide_True by auto. reflexivity.
    + intros E. rewrite E in Hr. exact Hr.
  - intros [= <- <-]. split; [apply continues_refl|]. split; [discriminate|].
    reflexivity.
Qed.

Lemma File_Chmod_spec o s dir base perm w r w' :
  File_Chmod o s dir base perm w = (r, w') ->
  continues (only_at dir base) w w' /\
  (r = inr tt ->
   fails o s = false /\
   exists f, file_at (w_fs w) dir base = Some f /\
             file_at (w_fs w') dir base = Some (mkFile (f_data f) perm)) /\
  (fails o s = true -> r = inl (SysErr s)).
Proof.
  unfold File_Chmod, mbind, M_bind, bind, get_fs, fail, ret.
  destruct (fails o s).
  - intros [= <- <-]. split; [apply continues_refl|]. split; [discriminate|auto].
  - destruct (file_at (w_fs w) dir base) as [f|] eqn:Hf.
    + rewrite commit_eq. intros [= <- <-]. split; [|split; [|discriminate]].
      * apply continues_one. apply only_at_put_file.
      * intros _. split; [reflexivity|]. exists f. split; [reflexivity|].
        cbn [w_fs List.last]. rewrite file_at_put_file by (eapply file_at_dir; eauto).
        rewrite decide_True by auto. reflexivity.
    + intros [= <- <-]. split; [apply continues_refl|]. split; discriminate.
Qed.

Lemma File_Close_spec o s w r w' :
  File_Close o s w = (r, w') ->
  w' = w /\ (r = inr tt -> fails o s = false) /\ (fails o s = true -> r = inl (SysErr s)).
Proof.
  unfold File_Close, fail, ret. destruct (fails o s); intros [= <- <-]; repeat split;
    auto; discriminate.
Qed.

Lemma os_Rename_spec o s dir old new w r w' :
  os_Rename o s dir old new w = (r, w') ->
  (r = inr tt ->
   fails o s = false /\
   exists f, file_at (w_fs w) dir old = Some f /\
     w' = mkWorld (put_file dir new f (del_file dir old (w_fs w)))
                  (put_file dir new f (del_file dir old (w_fs w)) :: w_hist w)) /\
  (r <> inr tt -> w' = w) /\
  (fails o s = true -> r = inl (SysErr s)).
Proof.
  unfold os_Rename, mbind, M_bind, bind, get_fs, fail, ret.
  destruct (fails o s).
  - intros [= <- <-]. split; [discriminate|]. split; auto.
  - destruct (file_at (w_fs w) dir old) as [f|] eqn:Hf.
    + rewrite commit_eq. intros [= <- <-]. split; [|split; [congruence|discriminate]].
      intros _. split; [reflexivity|]. exists f. split; reflexivity.
    + intros [= <- <-]. split; [discriminate|]. split; [reflexivity|discriminate].
Qed.

(** A removal that fails, or finds no entry, changes nothing; one that
    succeeds deletes the entry. *)
Lemma os_Remove_spec o s dir base w r w' :
  os_Remove o s dir base w = (r, w') ->
  (file_at (w_fs w) dir base = None -> w' = w) /\
  (fails o s = true -> w' = w) /\
  (is_Some (file_at (w_fs w) dir base) -> fails o s = false ->
   w' = mkWorld (del_file dir base (w_fs w)) (del_file dir base (w_fs w) :: w_hist w)).
Proof.
  unfold os_Remove, mbind, M_bind, bind, get_fs, fail, ret.
  destruct (fails o s).
  { intros [= <- <-]. split; [reflexivity|]. split; [reflexivity|discriminate]. }
  destruct (file_at (w_fs w) dir base) as [f|] eqn:Hf.
  - rewrite commit_eq. intros [= <- <-]. split; [discriminate|]. split; [discriminate|].
    reflexivity.
  - intros [= <- <-]. split; [reflexivity|]. split; [reflexivity|]. intros [x Hx]. discriminate.
Qed.

Lemma os_Remove_continues o s dir base w r w' :
  os_Remove o s dir base w = (r, w') ->
  continues (only_at dir base) w w' /\
  (fails o s = false -> file_at (w_fs w') dir base = None).
Proof.
  intros H. apply os_Remove_spec in H as (H1 & H2 & H3).
  destruct (fails o s) eqn:Hs.
  { rewrite H2 by reflexivity. split; [apply continues_refl|discriminate]. }
  destruct (file_at (w_fs w) dir base) as [f|] eqn:Hf.
  - rewrite H3 by eauto. split.
    + apply continues_one. apply only_at_del_file.
    + intros _. simpl. rewrite file_at_del_file, decide_True by auto. reflexivity.
  - rewrite H1 by reflexivity. split; [apply continues_refl|intros _; exact Hf].
Qed.

Lemma os_Open_spec o s dir base w r w' :
  os_Open o s dir base w = (r, w') ->
  w' = w /\
  (fails o s = true -> r = inl (SysErr s)) /\
  (fails o s = false -> r = inr (data_at (w_fs w) dir base)).
Proof.
  unfold os_Open, mbind, M_bind, bind, get_fs, fail, ret, mret, M_ret, ret.
  destruct (fails o s); intros [= <- <-]; repeat split; auto; discriminate.
Qed.

Lemma find_spec {A} (p : A -> bool) l x :
  List.find p l = Some x -> x ∈ l /\ p x = true.
Proof.
  intros H. apply find_some in H as [H1 H2]. split; [|exact H2].
  apply list_elem_of_In. exact H1.
Qed.

Lemma os_CreateTemp_spec o s dir pattern w r w' :
  os_CreateTemp o s dir pattern w = (r, w') ->
  (forall name, r = inr name ->
     fails o s = false /\
     is_Some (w_fs w !! dir) /\
     file_at (w_fs w) dir name = None /\
     (exists pre suf n, prefixAndSuffix pattern = Some (pre, suf) /\
                        name = pre ++ Uitoa n ++ suf) /\
     w' = mkWorld (put_file dir name (mkFile EmptyString tempPerm) (w_fs w))
                  (put_file dir name (mkFile EmptyString tempPerm) (w_fs w) :: w_hist w)) /\
  (forall e, r = inl e -> w' = w) /\
  (fails o s = true -> exists e, r = inl e).
Proof.
  unfold os_CreateTemp, mbind, M_bind, bind, get_fs, fail, ret.
  destruct (prefixAndSuffix pattern) as [[pre suf]|] eqn:Hp.
  2:{ intros [= <- <-]. split; [discriminate|]. split; eauto. }
  destruct (fails o s).
  { intros [= <- <-]. split; [discriminate|]. split; eauto. }
  destruct (w_fs w !! dir) as [d|] eqn:Hd.
  2:{ intros [= <- <-]. split; [discriminate|]. split; [auto|discriminate]. }
  destruct (List.find _ _) as [name|] eqn:Hfind.
  2:{ intros [= <- <-]. split; [discriminate|]. split; [auto|discriminate]. }
  rewrite commit_eq. intros [= <- <-].
  split; [|split; [discriminate|discriminate]].
  intros ? [= <-]. apply find_spec in Hfind as [Hin Hfree].
  apply bool_decide_eq_true in Hfree.
  apply list_elem_of_fmap in Hin as (n & -> & _).
  split; [reflexivity|]. split; [eauto|]. split.
  - unfold file_at. rewrite Hd. exact Hfree.
  - split; [|reflexivity]. exists pre, suf, n. split; reflexivity.
Qed.

Lemma os_WriteFile_spec o sO sW sC dir base data perm w r w' :
  os_WriteFile o sO sW sC dir base data perm w = (r, w') ->
  continues (only_at dir base) w w' /\
  (r = inr tt ->
   fails o sO = false /\ fails o sW = false /\ fails o sC = false /\
   is_Some (w_fs w !! dir) /\
   data_at (w_fs w') dir base = Some data /\
   forall k, (k <= String.length data)%nat ->
     exists st, seen_between w w' st /\ data_at st dir base = Some (substring 0 k data)) /\
  (fails o sO = true \/ fails o sW = true \/ fails o sC = true -> r <> inr tt).
Proof.
  unfold os_WriteFile.
  destruct (fails o sO) eqn:EO.
  { unfold fail. intros [= <- <-]. split; [apply continues_refl|].
    split; [discriminate|]. intros _; discriminate. }
  intros H. apply bind_inv in H as [(e & H & _)|(fs & w0 & H & H1)]; [discriminate|].
  injection H as <- <-.
  destruct (w_fs w !! dir) as [d|] eqn:Hd.
  2:{ injection H1 as <- <-. split; [apply continues_refl|].
      split; [discriminate|]. intros _; discriminate. }
  set (mode := match d !! base with Some f => f_mode f | None => perm end) in H1.
  apply bind_inv in H1 as [(e & H & _)|([] & w1 & H & H1)]; [discriminate|].
  rewrite commit_eq in H. injection H as <-.
  cbn [w_fs w_hist List.last reverse rev_append app] in H1.
  set (fs1 := put_file dir base (mkFile EmptyString mode) (w_fs w)) in *.
  set (w1 := mkWorld fs1 (fs1 :: w_hist w)) in *.
  assert (C1 : continues (only_at dir base) w w1)
    by (apply continues_one, only_at_put_file).
  assert (F1 : file_at fs1 dir base = Some (mkFile EmptyString mode)).
  { unfold fs1. rewrite file_at_put_file, decide_True by eauto. reflexivity. }
  apply bind_inv in H1 as [(e & H & _)|(err & w2 & H & H1)].
  { unfold try in H. destruct (File_Write _ _ _ _ _ _); discriminate. }
  unfold try in H. destruct (File_Write o sW dir base data w1) as [rw w2'] eqn:HW.
  injection H as <- <-.
  apply File_Write_spec in HW as (C2 & HWok & HWfail).
  apply bind_inv in H1 as [(e & H & _)|(err1 & w3 & H & H1)].
  { unfold try in H. destruct (File_Close _ _ _); discriminate. }
  unfold try in H. destruct (File_Close o sC w2') as [rc w3'] eqn:HC.
  injection H as <- <-.
  apply File_Close_spec in HC as (-> & HCok & HCfail).
  assert (C : continues (only_at dir base) w w2').
  { eapply continues_trans; eauto using only_at_refl, only_at_trans. }
  assert (Hw' : w' = w2') by (destruct rw, rc; inversion H1; reflexivity).
  subst w'. split; [exact C|].
  destruct rw as [e|[]].
  { injection H1 as <-. split; [discriminate|]. intros _; discriminate. }
  destruct rc as [e|[]].
  { injection H1 as <-. split; [discriminate|]. intros _; discriminate. }
  injection H1 as <-.
  destruct (HWok eq_refl) as (EW & f & Hf & Hf' & Hk).
  change (file_at fs1 dir base = Some f) in Hf. rewrite F1 in Hf. injection Hf as <-.
  cbn [f_data f_mode] in *.
  split.
  - intros _. repeat split; auto.
    + unfold data_at. rewrite Hf'. reflexivity.
    + intros k Hk'. destruct k as [|k].
      * exists fs1. split.
        -- eapply seen_between_trans_l; [apply seen_one|exact C2].
        -- unfold data_at. rewrite F1. simpl. destruct data; reflexivity.
      * destruct (Hk (S k)) as (st & Hs & Hst); [lia|].
        exists st. split.
        -- eapply seen_between_trans_r; [exact C1|exact Hs].
        -- unfold data_at. rewrite Hst. reflexivity.
  - intros [E|[E|E]]; [congruence|congruence|].
    rewrite (HCok eq_refl) in E. discriminate.
Qed.

(** ** [writeFileAtomic] *)

(** The names [os.CreateTemp] gives the temporary file of [base]. *)
Definition is_temp_of (base name : string) : Prop :=
  exists n, name = (base ++ ".tmp-") ++ Uitoa n ++ EmptyString.

Lemma split_last_star_tmp base :
  split_last_star (base ++ ".tmp-*") = Some (base ++ ".tmp-", EmptyString).
Proof.
  induction base as [|c b IH]; [reflexivity|].
  rewrite !string_app_cons. simpl. rewrite IH. reflexivity.
Qed.

Lemma prefixAndSuffix_tmp base ps :
  prefixAndSuffix (base ++ ".tmp-*") = Some ps -> ps = (base ++ ".tmp-", EmptyString).
Proof.
  unfold prefixAndSuffix. destruct (string_exists _ _); [discriminate|].
  rewrite split_last_star_tmp. congruence.
Qed.

Lemma is_temp_of_neq base name : is_temp_of base name -> name <> base.
Proof.
  intros [n ->] E. apply (f_equal String.length) in E.
  rewrite !string_app_length in E. simpl in E. lia.
Qed.

Lemma try_inr {A} (m : M A) w a w' : try m w = (inr a, w') -> m w = (a, w').
Proof. unfold try. destruct (m w) as [r w1]. intros [= <- <-]. reflexivity. Qed.

Lemma try_inl {A} (m : M A) w e w' : try m w = (inl e, w') -> False.
Proof. unfold try. destruct (m w) as [r w1]. discriminate. Qed.

Lemma discard_Close o s w : discard (File_Close o s) w = (inr tt, w).
Proof. unfold discard, File_Close, fail, ret. destruct (fails o s); reflexivity. Qed.

(** The part of [writeFileAtomic] between the creation of the temporary file
    and the deferred removal. *)
Definition atomicBody (o : Oracle) (dir baseName data tmpName : string) (perm : Z) : M unit :=
  err ← try (File_Write o TmpWrite dir tmpName data);
  match err with
  | inl e => discard (File_Close o TmpClose);; fail e
  | inr _ =>
      err ← try (File_Chmod o TmpChmod dir tmpName perm);
      match err with
      | inl e => discard (File_Close o TmpClose);; fail e
      | inr _ =>
          File_Close o TmpClose;;
          os_Rename o TmpRename dir tmpName baseName
      end
  end.

Lemma atomicBody_spec o dir base data tmp perm w r w' :
  file_at (w_fs w) dir tmp = Some (mkFile EmptyString tempPerm) ->
  atomicBody o dir base data tmp perm w = (r, w') ->
  exists w3, continues (only_at dir tmp) w w3 /\
    ((r = inr tt /\
      fails o TmpWrite = false /\ fails o TmpChmod = false /\
      fails o TmpClose = false /\ fails o TmpRename = false /\
      w' = mkWorld (put_file dir base (mkFile data perm) (del_file dir tmp (w_fs w3)))
                   (put_file dir base (mkFile data perm) (del_file dir tmp (w_fs w3))
                      :: w_hist w3)) \/
     (r <> inr tt /\ w' = w3)).
Proof.
  intros Htmp H. unfold atomicBody in H.
  apply bind_inv in H as [(e & H & _)|(err & w1 & H & H1)].
  { destruct (try_inl _ _ _ _ H). }
  apply try_inr in H. rename err into rw, H into HW.
  apply File_Write_spec in HW as (C1 & HWok & _).
  destruct rw as [e|[]].
  { apply bind_inv in H1 as [(e' & H & _)|([] & w2 & H & H1)].
    { rewrite discard_Close in H. discriminate. }
    rewrite discard_Close in H. injection H as <-.
    injection H1 as <- <-. exists w1. split; [exact C1|]. right. split; [discriminate|reflexivity]. }
  destruct (HWok eq_refl) as (EW & f & Hf & Hf' & _).
  rewrite Htmp in Hf. injection Hf as <-. cbn [f_data f_mode] in Hf'.
  apply bind_inv in H1 as [(e & H & _)|(err & w2 & H & H1)].
  { destruct (try_inl _ _ _ _ H). }
  apply try_inr in H. rename err into rc, H into HC.
  apply File_Chmod_spec in HC as (C2 & HCok & _).
  assert (C12 : continues (only_at dir tmp) w w2).
  { eapply continues_trans; eauto using only_at_refl, only_at_trans. }
  destruct rc as [e|[]].
  { apply bind_inv in H1 as [(e' & H & _)|([] & w3 & H & H1)].
    { rewrite discard_Close in H. discriminate. }
    rewrite discard_Close in H. injection H as <-.
    injection H1 as <- <-. exists w2. split; [exact C12|]. right. split; [discriminate|reflexivity]. }
  destruct (HCok eq_refl) as (EC & f & Hf & Hf2). rewrite Hf' in Hf. injection Hf as <-.
  cbn [f_data] in Hf2.
  apply bind_inv in H1 as [(e & H & ->)|([] & w3 & H & H1)].
  { apply File_Close_spec in H as (-> & _ & _).
    exists w2. split; [exact C12|]. right. split; [discriminate|reflexivity]. }
  apply File_Close_spec in H as (-> & HCl & _).
  apply os_Rename_spec in H1 as (HRok & HRerr & _).
  exists w2. split; [exact C12|].
  destruct r as [e|[]].
  - right. split; [discriminate|apply HRerr; discriminate].
  - left. destruct (HRok eq_refl) as (ER & f & Hf & ->).
    rewrite Hf2 in Hf. injection Hf as <-. simpl in Hf2. repeat split; auto.
Qed.

Lemma writeFileAtomic_unfold o dir base data perm :
  writeFileAtomic o dir base data perm =
  (tmpName ← os_CreateTemp o TmpCreate dir (base ++ ".tmp-*");
   defer (discard (os_Remove o TmpRemove dir tmpName))
     (atomicBody o dir base data tmpName perm)).
Proof. reflexivity. Qed.

Lemma only_at_other dir tmp base fs s :
  tmp <> base -> only_at dir tmp fs s -> file_at s dir base = file_at fs dir base.
Proof.
  intros Hne H. apply only_at_differs in H as [_ H]. apply H.
  intros [_ E]. auto.
Qed.

Lemma writeFileAtomic_spec o dir base data perm w r w' :
  writeFileAtomic o dir base data perm w = (r, w') ->
  exists tmp earlier,
    is_temp_of base tmp /\
    Forall (only_at dir tmp (w_fs w)) earlier /\
    ((r = inr tt /\ is_Some (w_fs w !! dir) /\
      fails o TmpCreate = false /\ fails o TmpWrite = false /\
      fails o TmpChmod = false /\ fails o TmpClose = false /\ fails o TmpRename = false /\
      w' = mkWorld (put_file dir base (mkFile data perm) (w_fs w))
                   (put_file dir base (mkFile data perm) (w_fs w) :: earlier ++ w_hist w)) \/
     (r <> inr tt /\ only_at dir tmp (w_fs w) (w_fs w') /\
      (fails o TmpRemove = false -> w_fs w' = w_fs w) /\
      w_hist w' = (earlier ++ w_hist w)%list)).
Proof.
  rewrite writeFileAtomic_unfold. intros H.
  apply bind_inv in H as [(e & H & ->)|(tmp & w1 & H & H1)].
  { apply os_CreateTemp_spec in H as (_ & He & _). rewrite (He e eq_refl).
    exists ((base ++ ".tmp-") ++ Uitoa 0 ++ EmptyString), []. split; [eexists; reflexivity|].
    split; [constructor|]. right. split; [discriminate|]. split; [apply only_at_refl|].
    split; reflexivity. }
  apply os_CreateTemp_spec in H as (Hok & _ & _).
  destruct (Hok tmp eq_refl) as (EC & Hdir & Hfree & (pre & suf & n & Hps & Hname) & Hw1).
  apply prefixAndSuffix_tmp in Hps. injection Hps as -> ->.
  assert (Htmp : is_temp_of base tmp) by (exists n; exact Hname).
  pose proof (is_temp_of_neq base tmp Htmp) as Hne.
  set (fs1 := put_file dir tmp (mkFile EmptyString tempPerm) (w_fs w)) in *.
  assert (O1 : only_at dir tmp (w_fs w) fs1) by apply only_at_put_file.
  unfold defer in H1.
  destruct (atomicBody o dir base data tmp perm w1) as [rb wb] eqn:Hb.
  injection H1 as <- <-.
  apply atomicBody_spec in Hb.
  2:{ rewrite Hw1. cbn [w_fs]. unfold fs1.
      rewrite file_at_put_file, decide_True by auto. reflexivity. }
  destruct Hb as (w3 & (new3 & Eh & Ec & HF) & Hcase).
  rewrite Hw1 in Eh, Ec, HF. cbn [w_fs w_hist] in Eh, Ec, HF.
  assert (HF' : Forall (only_at dir tmp (w_fs w)) (new3 ++ [fs1])).
  { apply Forall_app. split; [|repeat constructor; exact O1].
    eapply Forall_impl; [exact HF|]. intros s Hs. eapply only_at_trans; eauto. }
  assert (O3 : only_at dir tmp (w_fs w) (w_fs w3)).
  { rewrite Ec. destruct new3 as [|s new3]; [exact O1|].
    inversion HF'; assumption. }
  assert (Ed : del_file dir tmp (w_fs w3) = w_fs w).
  { rewrite O3. apply del_file_id. exact Hfree. }
  assert (Eh' : w_hist w3 = ((new3 ++ [fs1]) ++ w_hist w)%list).
  { rewrite Eh, <- app_assoc. reflexivity. }
  destruct Hcase as [(-> & EW & ECh & ECl & ER & ->)|(Hr & ->)].
  - exists tmp, (new3 ++ [fs1])%list. split; [exact Htmp|]. split; [exact HF'|]. left.
    rewrite Ed, Eh'. repeat split; auto.
    unfold discard.
    destruct (os_Remove o TmpRemove dir tmp _) as [rr wr] eqn:HR.
    apply os_Remove_spec in HR as [HR _]. cbn [snd]. apply HR.
    cbn [w_fs]. rewrite file_at_put_file by exact Hdir.
    rewrite decide_False by (intros [_ E]; exact (Hne E)). exact Hfree.
  - unfold discard. destruct (os_Remove o TmpRemove dir tmp w3) as [rr wr] eqn:HR. cbn [snd].
    apply os_Remove_spec in HR as (HR1 & HR2 & HR3).
    destruct (fails o TmpRemove) eqn:Hrm.
    { rewrite HR2 by reflexivity.
      exists tmp, (new3 ++ [fs1])%list. split; [exact Htmp|]. split; [exact HF'|].
      right. split; [exact Hr|]. split; [exact O3|]. split; [discriminate|exact Eh']. }
    destruct (file_at (w_fs w3) dir tmp) as [f|] eqn:Hf.
    + rewrite HR3 by eauto. rewrite Ed.
      exists tmp, (w_fs w :: new3 ++ [fs1])%list. split; [exact Htmp|]. split.
      * constructor; [apply only_at_refl|exact HF'].
      * right. split; [exact Hr|]. split; [apply only_at_refl|]. split; [reflexivity|].
        cbn [w_hist]. rewrite Eh'. reflexivity.
    + rewrite HR1 by reflexivity.
      assert (E3 : w_fs w3 = w_fs w) by (apply (only_at_free dir tmp); assumption).
      exists tmp, (new3 ++ [fs1])%list. split; [exact Htmp|]. split; [exact HF'|].
      right. split; [exact Hr|]. rewrite E3. split; [apply only_at_refl|].
      split; [reflexivity|exact Eh'].
Qed.

(** An oracle under which the write to the temporary file stores a few
    bytes and fails, and the removal of the temporary file fails too. *)
Definition cleanupFails : Oracle :=
  mkOracle (fun s => match s with TmpWrite | TmpRemove => true | _ => false end)
           (fun _ => 3%nat) (fun _ => [7]%N) None.

(** C3, as stated, where the write and then the removal fail: the target
    keeps its bytes, and the temporary file is not removed; it stays with the
    bytes that were written. *)
Lemma writeFileAtomic_leaves_temporary_file :
  fst (writeFileAtomic cleanupFails "d" "list" "v1.0.0" filePerm
         (mkWorld {[ "d" := {[ "list" := mkFile "old" filePerm ]} ]} []))
    = inl (SysErr TmpWrite) /\
  file_at (w_fs (snd (writeFileAtomic cleanupFails "d" "list" "v1.0.0" filePerm
                        (mkWorld {[ "d" := {[ "list" := mkFile "old" filePerm ]} ]} []))))
    "d" "list" = Some (mkFile "old" filePerm) /\
  file_at (w_fs (snd (writeFileAtomic cleanupFails "d" "list" "v1.0.0" filePerm
                        (mkWorld {[ "d" := {[ "list" := mkFile "old" filePerm ]} ]} []))))
    "d" "list.tmp-7" = Some (mkFile "v1." tempPerm).
Proof. repeat split; vm_compute; reflexivity. Qed.

(** C3, amended. If the creation of the temporary file, the write, the
    chmod or the close fails, [writeFileAtomic] fails. When it fails (a
    failing rename included), the target holds what it held, in the tree it
    leaves and in every state the tree went through; the tree it leaves
    differs from the one it found at one temporary name at most, and is the
    tree it found when the removal of the temporary file does not fail:
    the error of [os.Remove] is dropped, so a removal that fails leaves the
    temporary file behind. When the call succeeds, the target was unchanged
    in every state before the last one, which the rename produced and in
    which the target holds exactly [data] with mode [perm], and no temporary
    file is left. *)
Theorem writeFileAtomic_atomic o dir baseName data perm w :
  let '(r, w') := writeFileAtomic o dir baseName data perm w in
  (fails o TmpCreate = true \/ fails o TmpWrite = true \/
   fails o TmpChmod = true \/ fails o TmpClose = true -> r <> inr tt) /\
  (r <> inr tt ->
     file_at (w_fs w') dir baseName = file_at (w_fs w) dir baseName /\
     (forall s, seen_between w w' s ->
        file_at s dir baseName = file_at (w_fs w) dir baseName) /\
     (exists tmp, is_temp_of baseName tmp /\ only_at dir tmp (w_fs w) (w_fs w')) /\
     (fails o TmpRemove = false -> w_fs w' = w_fs w)) /\
  (r = inr tt ->
     exists earlier,
       w_hist w' = (w_fs w' :: earlier ++ w_hist w)%list /\
       Forall (fun s => file_at s dir baseName = file_at (w_fs w) dir baseName) earlier /\
       file_at (w_fs w') dir baseName = Some (mkFile data perm) /\
       only_at dir baseName (w_fs w) (w_fs w')).
Proof.
  destruct (writeFileAtomic o dir baseName data perm w) as [r w'] eqn:H.
  apply writeFileAtomic_spec in H as (tmp & earlier & Htmp & HF & Hcase).
  pose proof (is_temp_of_neq _ _ Htmp) as Hne.
  assert (HF' : Forall (fun s => file_at s dir baseName = file_at (w_fs w) dir baseName) earlier).
  { eapply Forall_impl; [exact HF|]. intros s Hs. eapply only_at_other; eauto. }
  destruct Hcase as [(-> & Hd & E1 & E2 & E3 & E4 & E5 & ->)|(Hr & Eo & Efs & Eh)].
  - split; [intros [E|[E|[E|E]]]; congruence|]. split; [congruence|].
    intros _. exists earlier. cbn [w_fs w_hist]. split; [reflexivity|]. split; [exact HF'|].
    split; [|apply only_at_put_file].
    rewrite file_at_put_file, decide_True by auto. reflexivity.
  - split; [intros _; exact Hr|]. split; [|contradiction].
    intros _. split; [eapply only_at_other; eauto|]. split; [|split; [eauto|exact Efs]].
    intros s (new & En & Hs). rewrite Eh in En. apply app_inv_tail in En. subst new.
    rewrite Forall_forall in HF'. apply HF', Hs.
Qed.

(** ** Why a call fails *)

Lemma File_Write_fail o s dir base data w e w' :
  File_Write o s dir base data w = (inl e, w') ->
  fails o s = true \/ file_at (w_fs w) dir base = None.
Proof.
  unfold File_Write, mbind, M_bind, bind, get_fs, fail, ret.
  destruct (file_at (w_fs w) dir base); [|auto].
  rewrite commit_eq. destruct (fails o s); [auto|discriminate].
Qed.

Lemma File_Chmod_fail o s dir base perm w e w' :
  File_Chmod o s dir base perm w = (inl e, w') ->
  fails o s = true \/ file_at (w_fs w) dir base = None.
Proof.
  unfold File_Chmod, mbind, M_bind, bind, get_fs, fail, ret.
  destruct (fails o s); [auto|].
  destruct (file_at (w_fs w) dir base); [|auto].
  rewrite commit_eq. discriminate.
Qed.

Lemma os_Rename_fail o s dir old new w e w' :
  os_Rename o s dir old new w = (inl e, w') ->
  fails o s = true \/ file_at (w_fs w) dir old = None.
Proof.
  unfold os_Rename, mbind, M_bind, bind, get_fs, fail, ret.
  destruct (fails o s); [auto|].
  destruct (file_at (w_fs w) dir old); [|auto].
  rewrite commit_eq. discriminate.
Qed.

(** [os.CreateTemp] fails for a pattern with a separator, when the call is
    refused, when the directory is missing, or when each of the names it
    tries is taken. *)
Lemma os_CreateTemp_fail o s dir pattern w e w' :
  os_CreateTemp o s dir pattern w = (inl e, w') ->
  prefixAndSuffix pattern = None \/ fails o s = true \/ w_fs w !! dir = None \/
  (forall pre suf n, prefixAndSuffix pattern = Some (pre, suf) ->
     n ∈ take tempTries (rand o s) -> is_Some (file_at (w_fs w) dir (pre ++ Uitoa n ++ suf))).
Proof.
  unfold os_CreateTemp, mbind, M_bind, bind, get_fs, fail, ret.
  destruct (prefixAndSuffix pattern) as [[pre suf]|]; [|auto].
  destruct (fails o s); [auto|].
  destruct (w_fs w !! dir) as [d|] eqn:Hd; [|auto].
  destruct (List.find _ _) as [name|] eqn:Hfind.
  { rewrite commit_eq. discriminate. }
  intros _. right. right. right. intros pre' suf' n [= <- <-] Hn.
  unfold file_at. rewrite Hd.
  destruct (d !! (pre ++ Uitoa n ++ suf)) as [f|] eqn:E; [eauto|].
  exfalso.
  assert (Hin : In (pre ++ Uitoa n ++ suf)
                  ((fun r => pre ++ Uitoa r ++ suf) <$> take tempTries (rand o s))).
  { apply list_elem_of_In, list_elem_of_fmap. exists n. auto. }
  pose proof (find_none _ _ Hfind _ Hin) as Hnone. cbv beta in Hnone.
  rewrite bool_decide_eq_false in Hnone. auto.
Qed.

Lemma atomicBody_fail o dir base data tmp perm w e w' :
  file_at (w_fs w) dir tmp = Some (mkFile EmptyString tempPerm) ->
  atomicBody o dir base data tmp perm w = (inl e, w') ->
  fails o TmpWrite = true \/ fails o TmpChmod = true \/
  fails o TmpClose = true \/ fails o TmpRename = true.
Proof.
  intros Htmp H. unfold atomicBody in H.
  apply bind_inv in H as [(e' & H & _)|(rw & w1 & H & H1)].
  { destruct (try_inl _ _ _ _ H). }
  apply try_inr in H. destruct rw as [ew|[]].
  { apply File_Write_fail in H as [H|H]; [auto|congruence]. }
  apply File_Write_spec in H as (_ & HWok & _).
  destruct (HWok eq_refl) as (_ & f & Hf & Hf' & _).
  apply bind_inv in H1 as [(e' & H & _)|(rc & w2 & H & H1)].
  { destruct (try_inl _ _ _ _ H). }
  apply try_inr in H. destruct rc as [ec|[]].
  { apply File_Chmod_fail in H as [H|H]; [auto|congruence]. }
  apply File_Chmod_spec in H as (_ & HCok & _).
  destruct (HCok eq_refl) as (_ & f2 & Hf2 & Hf2').
  apply bind_inv in H1 as [(e' & H & _)|([] & w3 & H & H1)].
  { unfold File_Close, fail, ret in H. destruct (fails o TmpClose); [auto|discriminate]. }
  apply File_Close_spec in H as (-> & _ & _).
  apply os_Rename_fail in H1 as [H|H]; [auto|congruence].
Qed.

(** Without a failing call, with the directory in place, a base name
    without separator and a free temporary name among those tried,
    [writeFileAtomic] succeeds. *)
Lemma writeFileAtomic_ok o dir base data perm w n :
  fails o TmpCreate = false -> fails o TmpWrite = false -> fails o TmpChmod = false ->
  fails o TmpClose = false -> fails o TmpRename = false ->
  is_Some (w_fs w !! dir) ->
  string_exists (fun c => (c =? "/")%char) (base ++ ".tmp-*") = false ->
  n ∈ take tempTries (rand o TmpCreate) ->
  file_at (w_fs w) dir ((base ++ ".tmp-") ++ Uitoa n ++ EmptyString) = None ->
  fst (writeFileAtomic o dir base data perm w) = inr tt.
Proof.
  intros E1 E2 E3 E4 E5 [d Hd] Hsep Hn Hfree.
  destruct (writeFileAtomic o dir base data perm w) as [[e|[]] w'] eqn:H; [|reflexivity].
  exfalso. rewrite writeFileAtomic_unfold in H.
  apply bind_inv in H as [(e' & H & _)|(tmp & w1 & H & H1)].
  - apply os_CreateTemp_fail in H as [H|[H|[H|H]]]; try congruence.
    + unfold prefixAndSuffix in H. rewrite Hsep in H. discriminate.
    + destruct (H (base ++ ".tmp-") EmptyString n) as [f Hf]; [|exact Hn|congruence].
      unfold prefixAndSuffix. rewrite Hsep, split_last_star_tmp. reflexivity.
  - apply os_CreateTemp_spec in H as (Hok & _ & _).
    destruct (Hok tmp eq_refl) as (_ & Hdir & _ & _ & Hw1).
    unfold defer in H1.
    destruct (atomicBody o dir base data tmp perm w1) as [rb wb] eqn:Hb.
    injection H1 as -> _.
    apply atomicBody_fail in Hb as [H|[H|[H|H]]]; try congruence.
    rewrite Hw1. cbn [w_fs]. rewrite file_at_put_file, decide_True by auto. reflexivity.
Qed.

(** ** [updateListFile] *)

(** The lines [sc.Text()] returns for a list file. *)
Definition scanned (data : string) : list string := dropCR <$> rawLines EmptyString data.

(** The filter of the reading loop. *)
Definition validLines (lines : list string) : list string :=
  List.filter (fun line => negb (line =? "")%string && semver.IsValid line)%bool lines.

(** The versions [updateListFile] keeps from the list file, if there is one. *)
Definition kept (old : option string) : list string :=
  match old with
  | None => []
  | Some data => validLines (scanned data)
  end.

(** Insert the new version if missing. *)
Definition merged (existing : list string) (newVer : string) : list string :=
  if decide (newVer ∈ existing) then existing else (existing ++ [newVer])%list.

(** The bytes a successful [updateListFile] writes, from the bytes it read. *)
Definition nextList `{SliceSorter} (old : option string) (newVer : string) : string :=
  compose (sort_Slice semver_less (merged (kept old) newVer)).

Lemma readList_spec o atV w r w' :
  readList o atV w = (r, w') ->
  w' = w /\
  (forall l, r = inr l -> l = kept (data_at (w_fs w) atV "list")) /\
  (forall e, r = inl e ->
     fails o ListOpen = true \/ fails o ListScan = true \/
     exists data, data_at (w_fs w) atV "list" = Some data /\
       existsb (fun l => MaxScanTokenSize <=? len l) (rawLines EmptyString data) = true).
Proof.
  unfold readList. intros H.
  apply bind_inv in H as [(e & H & ->)|(f & w1 & H & H1)].
  - apply os_Open_spec in H as (-> & _ & Hok).
    split; [reflexivity|]. split; [discriminate|]. intros _ _.
    destruct (fails o ListOpen); [auto|]. specialize (Hok eq_refl). discriminate.
  - apply os_Open_spec in H as (-> & Hfail & Hok).
    destruct (fails o ListOpen); [specialize (Hfail eq_refl); discriminate|].
    specialize (Hok eq_refl). injection Hok as ->.
    destruct (data_at (w_fs w) atV "list") as [data|] eqn:Hd.
    + unfold Scanner_lines in H1. destruct (fails o ListScan).
      { injection H1 as <- <-. split; [reflexivity|]. split; [discriminate|auto]. }
      destruct (existsb _ _) eqn:Hlong.
      { injection H1 as <- <-. split; [reflexivity|]. split; [discriminate|].
        intros _ _. right. right. eauto. }
      injection H1 as <- <-. split; [reflexivity|]. split; [|discriminate].
      intros l [= <-]. reflexivity.
    + injection H1 as <- <-. split; [reflexivity|]. split; [|discriminate].
      intros l [= <-]. reflexivity.
Qed.

Lemma merged_seen (existing : list string) (newVer : string) :
  (if decide (newVer ∈ (list_to_set existing : gset string))
   then existing else (existing ++ [newVer])%list) = merged existing newVer.
Proof.
  unfold merged.
  destruct (decide (newVer ∈ (list_to_set existing : gset string))) as [H|H];
    destruct (decide (newVer ∈ existing)) as [H'|H']; try reflexivity;
    rewrite elem_of_list_to_set in H; contradiction.
Qed.

Lemma updateListFile_unfold `{SliceSorter} o atV newVer w :
  updateListFile o atV newVer w =
  (existing ← readList o atV;
   writeFileAtomic o atV "list"
     (compose (sort_Slice semver_less (merged existing newVer))) filePerm) w.
Proof.
  unfold updateListFile, mbind, M_bind, bind.
  destruct (readList o atV w) as [[e|l] w1]; [reflexivity|].
  cbv zeta. rewrite merged_seen. reflexivity.
Qed.

Lemma updateListFile_spec `{SliceSorter} o atV newVer w r w' :
  updateListFile o atV newVer w = (r, w') ->
  exists tmp earlier,
    is_temp_of "list" tmp /\
    Forall (only_at atV tmp (w_fs w)) earlier /\
    ((r = inr tt /\ is_Some (w_fs w !! atV) /\
      w' = mkWorld
             (put_file atV "list"
                (mkFile (nextList (data_at (w_fs w) atV "list") newVer) filePerm) (w_fs w))
             (put_file atV "list"
                (mkFile (nextList (data_at (w_fs w) atV "list") newVer) filePerm) (w_fs w)
                :: earlier ++ w_hist w)) \/
     (r <> inr tt /\ only_at atV tmp (w_fs w) (w_fs w') /\
      (fails o TmpRemove = false -> w_fs w' = w_fs w) /\
      w_hist w' = (earlier ++ w_hist w)%list)).
Proof.
  rewrite updateListFile_unfold. intros H0.
  apply bind_inv in H0 as [(e & H0 & ->)|(l & w1 & H0 & H1)].
  - apply readList_spec in H0 as (-> & _ & _).
    exists (("list" ++ ".tmp-") ++ Uitoa 0 ++ EmptyString), [].
    split; [eexists; reflexivity|]. split; [constructor|].
    right. split; [discriminate|]. split; [apply only_at_refl|]. split; reflexivity.
  - apply readList_spec in H0 as (-> & Hl & _). rewrite (Hl l eq_refl) in H1.
    apply writeFileAtomic_spec in H1 as (tmp & earlier & Htmp & HF & Hcase).
    exists tmp, earlier. split; [exact Htmp|]. split; [exact HF|].
    destruct Hcase as [(-> & Hd & _ & _ & _ & _ & _ & ->)|Hcase]; [left|right; exact Hcase].
    split; [reflexivity|]. split; [exact Hd|]. reflexivity.
Qed.

(** Without a failing call, with the directory in place, lines that fit the
    scanner's buffer and a free temporary name, [updateListFile] succeeds. *)
Lemma updateListFile_ok `{SliceSorter} o atV newVer w n :
  fails o ListOpen = false -> fails o ListScan = false ->
  fails o TmpCreate = false -> fails o TmpWrite = false -> fails o TmpChmod = false ->
  fails o TmpClose = false -> fails o TmpRename = false ->
  is_Some (w_fs w !! atV) ->
  (forall data, data_at (w_fs w) atV "list" = Some data ->
     existsb (fun l => MaxScanTokenSize <=? len l) (rawLines EmptyString data) = false) ->
  n ∈ take tempTries (rand o TmpCreate) ->
  file_at (w_fs w) atV (("list" ++ ".tmp-") ++ Uitoa n ++ EmptyString) = None ->
  fst (updateListFile o atV newVer w) = inr tt.
Proof.
  intros E1 E2 E3 E4 E5 E6 E7 Hd Hlong Hn Hfree.
  rewrite updateListFile_unfold.
  unfold mbind, M_bind, bind.
  destruct (readList o atV w) as [[e|l] w1] eqn:HR.
  - exfalso. apply readList_spec in HR as (_ & _ & He).
    destruct (He e eq_refl) as [E|[E|(data & Hdata & E)]]; try congruence.
    rewrite (Hlong data Hdata) in E. discriminate.
  - apply readList_spec in HR as (-> & _ & _).
    eapply writeFileAtomic_ok; eauto.
Qed.

(** ** The bytes of a valid version *)

Fixpoint string_forall (p : ascii -> bool) (s : string) : bool :=
  match s with
  | EmptyString => true
  | String c s' => (p c && string_forall p s')%bool
  end.

(** Letters, digits, ['-'], ['.'] and ['+']. *)
Definition plain_byte (c : ascii) : bool :=
  (semver.isIdentChar c || (c =? ".")%char || (c =? "+")%char)%bool.

Lemma string_forall_app p a b :
  string_forall p (a ++ b) = (string_forall p a && string_forall p b)%bool.
Proof.
  induction a as [|c a IH]; [reflexivity|].
  rewrite string_app_cons. simpl. rewrite IH. apply andb_assoc.
Qed.

Lemma string_forall_impl (p q : ascii -> bool) s :
  (forall c, p c = true -> q c = true) ->
  string_forall p s = true -> string_forall q s = true.
Proof.
  intros Hpq. induction s as [|c s IH]; simpl; [auto|].
  rewrite !andb_true_iff. intros [H1 H2]. auto.
Qed.

Lemma span_spec p s a b :
  span p s = (a, b) -> s = a ++ b /\ string_forall p a = true.
Proof.
  revert a b. induction s as [|c s IH]; simpl; intros a b.
  - intros [= <- <-]. auto.
  - destruct (p c) eqn:Hc.
    + destruct (span p s) as [a' b']. intros [= <- <-].
      destruct (IH a' b' eq_refl) as [-> Hf]. simpl. rewrite Hc, Hf. auto.
    + intros [= <- <-]. auto.
Qed.

Lemma parseInt_spec v t rest :
  semver.parseInt v = Some (t, rest) -> v = t ++ rest /\ string_forall is_digit t = true.
Proof.
  unfold semver.parseInt. destruct v as [|c v]; [discriminate|].
  destruct (negb (is_digit c)); [discriminate|].
  destruct (span is_digit (String c v)) as [a b] eqn:E.
  destruct (_ && _)%bool; [discriminate|]. intros [= <- <-].
  apply span_spec. exact E.
Qed.

Lemma scanIdents_spec pre seen cur v t r :
  semver.scanIdents pre seen cur v = Some (t, r) ->
  exists s, t = seen ++ s /\ v = s ++ r /\ string_forall plain_byte s = true.
Proof.
  revert seen cur. induction v as [|c v IH]; intros seen cur; simpl.
  - destruct (_ || _)%bool; [discriminate|].
    intros [= <- <-]. exists EmptyString. rewrite string_app_nil_r. auto.
  - destruct (pre && (c =? "+")%char)%bool.
    { destruct (_ || _)%bool; [discriminate|].
      intros [= <- <-]. exists EmptyString. rewrite string_app_nil_r. auto. }
    destruct (negb (semver.isIdentChar c) && negb (c =? ".")%char)%bool eqn:Hc; [discriminate|].
    assert (Hp : plain_byte c = true).
    { unfold plain_byte. destruct (semver.isIdentChar c), (c =? ".")%char;
        simpl in *; congruence. }
    assert (Hstep : forall seen' cur',
      semver.scanIdents pre seen' cur' v = Some (t, r) ->
      seen' = seen ++ String c EmptyString ->
      exists s, t = seen ++ s /\ String c v = s ++ r /\ string_forall plain_byte s = true).
    { intros seen' cur' H ->. apply IH in H as (s & -> & -> & Hs).
      exists (String c s). rewrite string_app_assoc. simpl. rewrite Hp, Hs. auto. }
    destruct (c =? ".")%char.
    + destruct (_ || _)%bool; [discriminate|]. intros H. eapply Hstep; eauto.
    + intros H. eapply Hstep; eauto.
Qed.

Lemma parseTail_plain ma mi pa v p :
  semver.parseTail ma mi pa v = Some p -> string_forall plain_byte v = true.
Proof.
  unfold semver.parseTail.
  destruct (match v with String "-" _ => semver.parsePrerelease v | _ => Some (EmptyString, v) end)
    as [[pre v']|] eqn:E1; [|discriminate].
  destruct (match v' with String "+" _ => semver.parseBuild v' | _ => Some (EmptyString, v') end)
    as [[bu v'']|] eqn:E2; [|discriminate].
  destruct v''; [|discriminate]. intros _.
  assert (H2 : string_forall plain_byte v' = true).
  { destruct v' as [|c v0]; [reflexivity|].
    destruct (Ascii.eqb_spec c "+") as [->|Hc].
    - unfold semver.parseBuild in E2. apply scanIdents_spec in E2 as (s & _ & E & Hs).
      rewrite string_app_nil_r in E. subst v0. simpl. exact Hs.
    - destruct c as [[] [] [] [] [] [] [] []]; try congruence; discriminate. }
  destruct v as [|c v0]; [reflexivity|].
  destruct (Ascii.eqb_spec c "-") as [->|Hc].
  - unfold semver.parsePrerelease in E1. apply scanIdents_spec in E1 as (s & _ & E & Hs).
    subst v0. simpl. rewrite string_forall_app, Hs, H2. reflexivity.
  - assert (v' = String c v0) as -> ; [|exact H2].
    destruct c as [[] [] [] [] [] [] [] []]; congruence.
Qed.

Lemma digits_plain t : string_forall is_digit t = true -> string_forall plain_byte t = true.
Proof.
  apply string_forall_impl. intros c Hc. unfold plain_byte, semver.isIdentChar.
  rewrite Hc. repeat rewrite orb_true_r. reflexivity.
Qed.

(** A valid version starts with ['v'] and consists of plain bytes. *)
Lemma IsValid_plain v :
  semver.IsValid v = true ->
  exists v1, v = String "v" v1 /\ string_forall plain_byte v = true.
Proof.
  unfold semver.IsValid. destruct (semver.parse v) as [p|] eqn:E; [|discriminate].
  intros _. unfold semver.parse in E.
  destruct v as [|c v1]; [discriminate|].
  destruct (Ascii.eqb_spec c "v") as [->|Hc].
  2:{ destruct c as [[] [] [] [] [] [] [] []]; congruence. }
  exists v1. split; [reflexivity|]. simpl.
  destruct (semver.parseInt v1) as [[ma v2]|] eqn:E1; [|discriminate].
  apply parseInt_spec in E1 as [-> H1]. apply digits_plain in H1.
  rewrite string_forall_app, H1. simpl.
  destruct v2 as [|c2 v3]; [reflexivity|].
  destruct (Ascii.eqb_spec c2 ".") as [->|Hc2].
  2:{ destruct c2 as [[] [] [] [] [] [] [] []]; congruence. }
  simpl.
  destruct (semver.parseInt v3) as [[mi v4]|] eqn:E2; [|discriminate].
  apply parseInt_spec in E2 as [-> H2]. apply digits_plain in H2.
  rewrite string_forall_app, H2. simpl.
  destruct v4 as [|c4 v5]; [reflexivity|].
  destruct (Ascii.eqb_spec c4 ".") as [->|Hc4].
  2:{ destruct c4 as [[] [] [] [] [] [] [] []]; congruence. }
  simpl.
  destruct (semver.parseInt v5) as [[pa v6]|] eqn:E3; [|discriminate].
  apply parseInt_spec in E3 as [-> H3]. apply digits_plain in H3.
  rewrite string_forall_app, H3. simpl.
  eapply parseTail_plain; eauto.
Qed.

(** ** Reading back a list that [updateListFile] wrote *)

Lemma plain_no_byte c s :
  plain_byte c = false -> string_forall plain_byte s = true ->
  string_exists (fun x => (x =? c)%char) s = false.
Proof.
  intros Hc. induction s as [|x s IH]; simpl; [reflexivity|].
  rewrite andb_true_iff. intros [Hx Hs]. rewrite (IH Hs), orb_false_r.
  destruct (Ascii.eqb_spec x c) as [->|]; [congruence|reflexivity].
Qed.

Lemma rawLines_line cur x rest :
  string_exists (fun c => (c =? "010")%char) x = false ->
  rawLines cur (x ++ nl ++ rest) = (cur ++ x) :: rawLines EmptyString rest.
Proof.
  revert cur. induction x as [|c x IH]; intros cur; simpl.
  - intros _. rewrite string_app_nil_r. reflexivity.
  - rewrite orb_false_iff. intros [Hc Hx].
    rewrite Hc, (IH _ Hx), string_app_assoc. reflexivity.
Qed.

Lemma rawLines_compose l :
  Forall (fun x => string_exists (fun c => (c =? "010")%char) x = false) l ->
  rawLines EmptyString (compose l) = l.
Proof.
  induction 1 as [|x l Hx Hl IH]; [reflexivity|].
  simpl. rewrite (rawLines_line _ _ _ Hx), IH. reflexivity.
Qed.

Lemma dropCR_id x : string_exists (fun c => (c =? cr)%char) x = false -> dropCR x = x.
Proof.
  induction x as [|c x IH]; [reflexivity|].
  simpl. rewrite orb_false_iff. intros [Hc Hx].
  destruct x as [|c' x']; [rewrite Hc; reflexivity|].
  rewrite (IH Hx). reflexivity.
Qed.

Lemma scanned_compose l :
  Forall (fun x => string_forall plain_byte x = true) l -> scanned (compose l) = l.
Proof.
  intros H. unfold scanned. rewrite rawLines_compose.
  - induction H as [|x l Hx Hl IH]; [reflexivity|].
    rewrite fmap_cons, IH. f_equal. apply dropCR_id.
    apply plain_no_byte; [reflexivity|exact Hx].
  - eapply Forall_impl; [exact H|]. intros x Hx.
    apply plain_no_byte; [reflexivity|exact Hx].
Qed.

Lemma validLines_id l :
  Forall (fun x => semver.IsValid x = true) l -> validLines l = l.
Proof.
  induction 1 as [|x l Hx Hl IH]; [reflexivity|].
  unfold validLines in *. simpl. rewrite Hx, IH.
  destruct x; [discriminate|reflexivity].
Qed.

Lemma validLines_valid lines : Forall (fun x => semver.IsValid x = true) (validLines lines).
Proof.
  unfold validLines. apply Forall_forall. intros x Hx.
  apply list_elem_of_In, filter_In in Hx as [_ Hx].
  apply andb_true_iff in Hx as [_ Hx]. exact Hx.
Qed.

Lemma kept_valid old : Forall (fun x => semver.IsValid x = true) (kept old).
Proof. destruct old; [apply validLines_valid|constructor]. Qed.

Lemma valid_plain_all l :
  Forall (fun x => semver.IsValid x = true) l ->
  Forall (fun x => string_forall plain_byte x = true) l.
Proof.
  intros H. eapply Forall_impl; [exact H|].
  intros x Hx. apply IsValid_plain in Hx as (_ & _ & Hp). exact Hp.
Qed.

(** The lines of a list of valid versions, as written, are these versions. *)
Lemma kept_compose l :
  Forall (fun x => semver.IsValid x = true) l -> kept (Some (compose l)) = l.
Proof.
  intros H. unfold kept. rewrite scanned_compose by (apply valid_plain_all, H).
  apply validLines_id, H.
Qed.

Lemma merged_valid l v :
  Forall (fun x => semver.IsValid x = true) l -> semver.IsValid v = true ->
  Forall (fun x => semver.IsValid x = true) (merged l v).
Proof.
  intros Hl Hv. unfold merged. destruct (decide (v ∈ l)); [exact Hl|].
  apply Forall_app. split; [exact Hl|]. repeat constructor. exact Hv.
Qed.

(** The versions in the list after a successful update with a valid version. *)
Lemma kept_nextList `{SliceSorter} old v :
  semver.IsValid v = true ->
  kept (Some (nextList old v)) = sort_Slice semver_less (merged (kept old) v) /\
  scanned (nextList old v) = sort_Slice semver_less (merged (kept old) v).
Proof.
  intros Hv. unfold nextList.
  assert (Hall : Forall (fun x => semver.IsValid x = true)
                   (sort_Slice semver_less (merged (kept old) v))).
  { rewrite sort_Slice_perm. apply merged_valid; [apply kept_valid|exact Hv]. }
  split; [apply kept_compose, Hall|apply scanned_compose, valid_plain_all, Hall].
Qed.

(** The slice that is written is sorted. *)
Lemma sort_Slice_Compare `{SliceSorter} l :
  StronglySorted (fun a b => semver.Compare a b <= 0) (sort_Slice semver_less l).
Proof.
  pose proof (sort_Slice_sorted semver_less l (semver_less_strict_weak l)) as Hs.
  induction Hs as [|a k Hk IH Ha]; constructor; [exact IH|].
  eapply Forall_impl; [exact Ha|]. intros b Hb. apply not_after_Compare. exact Hb.
Qed.

(** ** The sorted slice is determined when no two versions compare equal *)

(** No two different strings of [l] compare equal. *)
Definition distinct_keys (l : list string) : bool :=
  forallb (fun a => forallb (fun b => negb (semver.Compare a b =? 0) || (a =? b)%string)%bool l) l.

Lemma distinct_keys_spec l a b :
  distinct_keys l = true -> a ∈ l -> b ∈ l -> semver.Compare a b = 0 -> a = b.
Proof.
  unfold distinct_keys. rewrite forallb_forall. intros H Ha Hb E.
  apply list_elem_of_In in Ha, Hb.
  specialize (H a Ha). rewrite forallb_forall in H. specialize (H b Hb).
  rewrite E in H. simpl in H. apply String.eqb_eq. exact H.
Qed.

Lemma sort_Slice_unique `{SliceSorter} l :
  distinct_keys l = true -> sort_Slice semver_less l = insertionSort semver_less l.
Proof.
  intros Hd.
  apply (StronglySorted_unique_strong (not_after semver_less)).
  - intros a b Ha Hb Hab Hba. rewrite sort_Slice_perm in Ha.
    rewrite insertionSort_perm in Hb.
    apply (distinct_keys_spec l); auto.
    apply not_after_Compare in Hab, Hba.
    rewrite (cp_opp _ _ Compare_preorder a b I I) in Hba. lia.
  - apply sort_Slice_sorted, semver_less_strict_weak.
  - apply insertionSort_sorted, semver_less_strict_weak.
  - rewrite sort_Slice_perm, insertionSort_perm. reflexivity.
Qed.

Lemma nextList_unique `{SliceSorter} old v :
  distinct_keys (merged (kept old) v) = true ->
  nextList old v = compose (insertionSort semver_less (merged (kept old) v)).
Proof. intros Hd. unfold nextList. rewrite sort_Slice_unique by exact Hd. reflexivity. Qed.

(** ** Successive invocations *)

(** The list file after a successful [updateListFile]. *)
Lemma updateListFile_list `{SliceSorter} o atV newVer w w' :
  updateListFile o atV newVer w = (inr tt, w') ->
  data_at (w_fs w') atV "list" = Some (nextList (data_at (w_fs w) atV "list") newVer).
Proof.
  intros H0. apply updateListFile_spec in H0 as (tmp & earlier & _ & _ & Hcase).
  destruct Hcase as [(_ & Hd & ->)|(Hr & _)]; [|contradiction].
  unfold data_at at 1. cbn [w_fs].
  rewrite file_at_put_file, decide_True by auto. reflexivity.
Qed.

(** Invocations of [updateListFile] one after the other, each with its own
    oracle; [None] when one of them fails. *)
Fixpoint updateListFiles `{SliceSorter} (atVDir : string) (calls : list (Oracle * string))
    (w : World) : option World :=
  match calls with
  | [] => Some w
  | (o, v) :: rest =>
      match updateListFile o atVDir v w with
      | (inr _, w') => updateListFiles atVDir rest w'
      | (inl _, _) => None
      end
  end.

(** The list file after these invocations, computed from its bytes before. *)
Fixpoint nextLists `{SliceSorter} (old : option string) (versions : list string) : option string :=
  match versions with
  | [] => old
  | v :: rest => nextLists (Some (nextList old v)) rest
  end.

Lemma updateListFiles_list `{SliceSorter} atV calls w w' :
  updateListFiles atV calls w = Some w' ->
  data_at (w_fs w') atV "list" = nextLists (data_at (w_fs w) atV "list") (snd <$> calls).
Proof.
  revert w. induction calls as [|[o v] calls IH]; intros w; simpl.
  - intros [= <-]. reflexivity.
  - destruct (updateListFile o atV v w) as [[e|[]] w1] eqn:E; [discriminate|].
    intros H1. rewrite (IH _ H1). rewrite (updateListFile_list _ _ _ _ _ E). reflexivity.
Qed.

(** ** An example environment *)

Definition succeeds {A} (x : option A) : bool :=
  match x with Some _ => true | None => false end.

Lemma succeeds_Some {A} (x : option A) : succeeds x = true -> exists a, x = Some a.
Proof. destruct x as [a|]; [eauto|discriminate]. Qed.

Lemma pair_of_fst {A B} (x : A * B) (a : A) : fst x = a -> x = (a, snd x).
Proof. destruct x as [a' b]. cbn [fst snd]. intros ->. reflexivity. Qed.

(** No call fails; [os.CreateTemp] draws 7, 8, 9. *)
Definition quiet : Oracle :=
  mkOracle (fun _ => false) (fun _ => O) (fun _ => [7; 8; 9]%N) (Some "2024-01-02T03:04:05Z").

Definition exDir : string := "out/example.com/m/@v".

(** An output directory holding the given list file, or none. *)
Definition listWorld (content : option string) : World :=
  mkWorld {[ exDir := match content with
                      | Some data => {[ "list" := mkFile data filePerm ]}
                      | None => ∅
                      end ]} [].

(** ** The claims on the version list *)

(** C2, as stated, at the sorter Go runs on short slices: the four
    publications leave [v1.0.0], [v1.2.0], [v2.0.0-beta] in this order, not
    [v1.0.0], [v2.0.0-beta], [v1.2.0]. *)
Lemma list_example_not_as_claimed :
  (fun w => data_at (w_fs w) exDir "list") <$>
    updateListFiles (H := GoInsertionSort) exDir
      [(quiet, "v1.2.0"); (quiet, "v1.0.0"); (quiet, "v1.2.0"); (quiet, "v2.0.0-beta")]
      (listWorld None)
  = Some (Some (compose ["v1.0.0"; "v1.2.0"; "v2.0.0-beta"])) /\
  compose ["v1.0.0"; "v1.2.0"; "v2.0.0-beta"] <> compose ["v1.0.0"; "v2.0.0-beta"; "v1.2.0"].
Proof. split; [vm_compute; reflexivity|discriminate]. Qed.

(** C2, amended. From no list file, successful invocations with [v1.2.0],
    [v1.0.0], [v1.2.0], [v2.0.0-beta] leave the list
    [v1.0.0], [v1.2.0], [v2.0.0-beta], one version per line, whatever
    sorter within the contract of [sort.Slice] is used: a higher major
    version comes after, pre-release or not. *)
Theorem list_example `{SliceSorter} o1 o2 o3 o4 atV w w' :
  data_at (w_fs w) atV "list" = None ->
  updateListFiles atV
    [(o1, "v1.2.0"); (o2, "v1.0.0"); (o3, "v1.2.0"); (o4, "v2.0.0-beta")] w = Some w' ->
  data_at (w_fs w') atV "list" = Some (compose ["v1.0.0"; "v1.2.0"; "v2.0.0-beta"]).
Proof.
  intros Hnone Hrun. rewrite (updateListFiles_list _ _ _ _ Hrun), Hnone.
  cbn [fmap list_fmap snd nextLists].
  assert (E1 : nextList None "v1.2.0" = compose ["v1.2.0"]).
  { rewrite nextList_unique by (vm_compute; reflexivity). vm_compute. reflexivity. }
  rewrite E1.
  assert (E2 : nextList (Some (compose ["v1.2.0"])) "v1.0.0" = compose ["v1.0.0"; "v1.2.0"]).
  { rewrite nextList_unique by (vm_compute; reflexivity). vm_compute. reflexivity. }
  rewrite E2.
  assert (E3 : nextList (Some (compose ["v1.0.0"; "v1.2.0"])) "v1.2.0"
               = compose ["v1.0.0"; "v1.2.0"]).
  { rewrite nextList_unique by (vm_compute; reflexivity). vm_compute. reflexivity. }
  rewrite E3.
  assert (E4 : nextList (Some (compose ["v1.0.0"; "v1.2.0"])) "v2.0.0-beta"
               = compose ["v1.0.0"; "v1.2.0"; "v2.0.0-beta"]).
  { rewrite nextList_unique by (vm_compute; reflexivity). vm_compute. reflexivity. }
  rewrite E4. reflexivity.
Qed.

Lemma list_example_witness :
  exists w',
    updateListFiles (H := GoInsertionSortRev) exDir
      [(quiet, "v1.2.0"); (quiet, "v1.0.0"); (quiet, "v1.2.0"); (quiet, "v2.0.0-beta")]
      (listWorld None) = Some w' /\
    data_at (w_fs w') exDir "list" = Some (compose ["v1.0.0"; "v1.2.0"; "v2.0.0-beta"]).
Proof.
  destruct (succeeds_Some
              (updateListFiles (H := GoInsertionSortRev) exDir
                 [(quiet, "v1.2.0"); (quiet, "v1.0.0"); (quiet, "v1.2.0");
                  (quiet, "v2.0.0-beta")] (listWorld None))) as [w' E].
  { vm_compute. reflexivity. }
  exists w'. split; [exact E|].
  exact (list_example (H := GoInsertionSortRev) quiet quiet quiet quiet exDir
           (listWorld None) w' eq_refl E).
Defined.

(** What a successful [updateListFile] leaves in the list file. *)
Lemma updateListFile_lines `{SliceSorter} o atV newVer w w' :
  updateListFile o atV newVer w = (inr tt, w') ->
  exists lines,
    data_at (w_fs w') atV "list" = Some (compose lines) /\
    lines ≡ₚ merged (kept (data_at (w_fs w) atV "list")) newVer /\
    StronglySorted (fun a b => semver.Compare a b <= 0) lines.
Proof.
  intros H0. exists (sort_Slice semver_less (merged (kept (data_at (w_fs w) atV "list")) newVer)).
  split; [exact (updateListFile_list _ _ _ _ _ H0)|].
  split; [apply sort_Slice_perm|apply sort_Slice_Compare].
Qed.

Lemma merged_NoDup l v : NoDup l -> NoDup (merged l v).
Proof.
  intros Hl. unfold merged. destruct (decide (v ∈ l)) as [|Hv]; [exact Hl|].
  apply NoDup_app. split; [exact Hl|]. split.
  - intros x Hx Hx'. apply list_elem_of_singleton in Hx'. subst. contradiction.
  - apply NoDup_singleton.
Qed.

(** X3. A list file with blank lines and lines that are not valid versions:
    when no call fails, the lines fit the scanner's buffer and a temporary
    name is free, [updateListFile] reports no error, and the file it writes
    holds, one per line and sorted, the lines of the old file that are not
    empty and valid, each as often as it stood there, and the new version
    if it was not among them; no duplicate arises when there was none. *)
Theorem updateListFile_drops_invalid_lines `{SliceSorter} o atV newVer w data n :
  data_at (w_fs w) atV "list" = Some data ->
  (forall s, fails o s = false) ->
  existsb (fun l => MaxScanTokenSize <=? len l) (rawLines EmptyString data) = false ->
  n ∈ take tempTries (rand o TmpCreate) ->
  file_at (w_fs w) atV (("list" ++ ".tmp-") ++ Uitoa n ++ EmptyString) = None ->
  exists w' lines,
    updateListFile o atV newVer w = (inr tt, w') /\
    data_at (w_fs w') atV "list" = Some (compose lines) /\
    lines ≡ₚ merged (List.filter (fun line => negb (line =? "")%string && semver.IsValid line)%bool
                       (scanned data)) newVer /\
    StronglySorted (fun a b => semver.Compare a b <= 0) lines /\
    (NoDup (validLines (scanned data)) -> NoDup lines).
Proof.
  intros Hdata Hq Hlong Hn Hfree.
  assert (Hdir : is_Some (w_fs w !! atV)).
  { unfold data_at in Hdata. destruct (file_at (w_fs w) atV "list") eqn:E; [|discriminate].
    eapply file_at_dir; eauto. }
  assert (Hok : fst (updateListFile o atV newVer w) = inr tt).
  { apply (updateListFile_ok o atV newVer w n); auto.
    intros d Hd. rewrite Hdata in Hd. injection Hd as <-. exact Hlong. }
  destruct (updateListFile o atV newVer w) as [r w'] eqn:E.
  cbn [fst] in Hok. subst r.
  destruct (updateListFile_lines _ _ _ _ _ E) as (lines & Hl & Hp & Hs).
  rewrite Hdata in Hp. cbn [kept] in Hp.
  exists w', lines. repeat split; auto.
  intros Hnd. rewrite Hp. apply merged_NoDup. exact Hnd.
Qed.

Lemma updateListFile_drops_invalid_lines_witness :
  exists w' lines,
    updateListFile (H := GoInsertionSort) quiet exDir "v1.1.0"
      (listWorld (Some ("v1.2.0" ++ nl ++ nl ++ "not-a-version" ++ nl ++ "v1.0.0" ++ nl)))
    = (inr tt, w') /\
    data_at (w_fs w') exDir "list" = Some (compose lines) /\
    lines ≡ₚ merged ["v1.2.0"; "v1.0.0"] "v1.1.0" /\
    StronglySorted (fun a b => semver.Compare a b <= 0) lines /\
    (NoDup ["v1.2.0"; "v1.0.0"] -> NoDup lines).
Proof.
  apply (updateListFile_drops_invalid_lines (H := GoInsertionSort) quiet exDir "v1.1.0"
           (listWorld (Some ("v1.2.0" ++ nl ++ nl ++ "not-a-version" ++ nl ++ "v1.0.0" ++ nl)))
           ("v1.2.0" ++ nl ++ nl ++ "not-a-version" ++ nl ++ "v1.0.0" ++ nl) 7%N).
  - reflexivity.
  - intros s. reflexivity.
  - reflexivity.
  - vm_compute. apply list_elem_of_here.
  - reflexivity.
Defined.

(** C9. [updateListFile] inserts the new version unless the same string is
    already a line of the list; the lines it writes never decrease under
    [semver.Compare]. Two different strings can compare equal, as [v1.0.0]
    and [v1.0.0+build] do: both are then kept, the list is not strictly
    ascending, and two sorters within the contract of [sort.Slice] write
    them in different orders. *)
Theorem list_dedup_is_by_string :
  (forall (S : SliceSorter) o atV newVer w w',
     updateListFile o atV newVer w = (inr tt, w') ->
     exists lines,
       data_at (w_fs w') atV "list" = Some (compose lines) /\
       lines ≡ₚ (if decide (newVer ∈ kept (data_at (w_fs w) atV "list"))
                 then kept (data_at (w_fs w) atV "list")
                 else kept (data_at (w_fs w) atV "list") ++ [newVer])%list /\
       StronglySorted (fun a b => semver.Compare a b <= 0) lines) /\
  (semver.Compare "v1.0.0" "v1.0.0+build" = 0 /\ "v1.0.0" <> "v1.0.0+build") /\
  fst (updateListFile (H := GoInsertionSort) quiet exDir "v1.0.0+build"
         (listWorld (Some (compose ["v1.0.0"])))) = inr tt /\
  data_at (w_fs (snd (updateListFile (H := GoInsertionSort) quiet exDir "v1.0.0+build"
                        (listWorld (Some (compose ["v1.0.0"])))))) exDir "list"
  = Some (compose ["v1.0.0"; "v1.0.0+build"]) /\
  data_at (w_fs (snd (updateListFile (H := GoInsertionSortRev) quiet exDir "v1.0.0+build"
                        (listWorld (Some (compose ["v1.0.0"])))))) exDir "list"
  = Some (compose ["v1.0.0+build"; "v1.0.0"]).
Proof.
  split; [|split; [|split; [|split]]].
  - intros S o atV newVer w w' H0. apply (updateListFile_lines o atV newVer w w' H0).
  - split; [vm_compute; reflexivity|discriminate].
  - vm_compute. reflexivity.
  - vm_compute. reflexivity.
  - vm_compute. reflexivity.
Qed.

Lemma list_dedup_is_by_string_witness :
  exists lines,
    data_at (w_fs (snd (updateListFile (H := GoInsertionSort) quiet exDir "v1.0.0+build"
                          (listWorld (Some (compose ["v1.0.0"])))))) exDir "list"
    = Some (compose lines) /\
    lines ≡ₚ ["v1.0.0"; "v1.0.0+build"] /\
    StronglySorted (fun a b => semver.Compare a b <= 0) lines.
Proof.
  exact (proj1 list_dedup_is_by_string GoInsertionSort quiet exDir "v1.0.0+build"
           (listWorld (Some (compose ["v1.0.0"]))) _
           (pair_of_fst _ _ (proj1 (proj2 (proj2 list_dedup_is_by_string))))).
Defined.

(** C1, at a list file that holds the same valid version on two lines:
    [updateListFile] succeeds and writes both lines again. *)
Lemma updateListFile_keeps_duplicate_lines :
  fst (updateListFile (H := GoInsertionSort) quiet exDir "v1.0.0"
         (listWorld (Some (compose ["v1.0.0"; "v1.0.0"])))) = inr tt /\
  fst (updateListFile (H := GoInsertionSort) quiet exDir "v2.0.0"
         (listWorld (Some (compose ["v1.0.0"; "v1.0.0"])))) = inr tt /\
  data_at (w_fs (snd (updateListFile (H := GoInsertionSort) quiet exDir "v1.0.0"
                        (listWorld (Some (compose ["v1.0.0"; "v1.0.0"])))))) exDir "list"
  = Some (compose ["v1.0.0"; "v1.0.0"]) /\
  data_at (w_fs (snd (updateListFile (H := GoInsertionSort) quiet exDir "v2.0.0"
                        (listWorld (Some (compose ["v1.0.0"; "v1.0.0"])))))) exDir "list"
  = Some (compose ["v1.0.0"; "v1.0.0"; "v2.0.0"]).
Proof. repeat split; vm_compute; reflexivity. Qed.

(** C6, at a list file with a blank line, a line that is no version, and the
    same valid version on two lines: [updateListFile] succeeds, drops the
    blank and the invalid line, and writes the two equal lines again, so the
    list is sorted and not deduplicated. *)
Lemma updateListFile_keeps_duplicates_beside_invalid_lines :
  fst (updateListFile (H := GoInsertionSort) quiet exDir "v1.1.0"
         (listWorld (Some ("v1.0.0" ++ nl ++ nl ++ "not-a-version" ++ nl ++ "v1.0.0" ++ nl))))
  = inr tt /\
  data_at (w_fs (snd (updateListFile (H := GoInsertionSort) quiet exDir "v1.1.0"
                        (listWorld (Some ("v1.0.0" ++ nl ++ nl ++ "not-a-version" ++ nl
                                          ++ "v1.0.0" ++ nl)))))) exDir "list"
  = Some (compose ["v1.0.0"; "v1.0.0"; "v1.1.0"]) /\
  ~ NoDup ["v1.0.0"; "v1.0.0"; "v1.1.0"].
Proof.
  split; [vm_compute; reflexivity|]. split; [vm_compute; reflexivity|].
  intros Hnd. apply NoDup_cons in Hnd as [Hnin _]. apply Hnin. apply list_elem_of_here.
Qed.

(** ** Escaping *)

Lemma lower_byte_not_upper c : is_upper c = true -> is_upper (lower_byte c) = false.
Proof. destruct c as [[] [] [] [] [] [] [] []]; intros H; try discriminate H; reflexivity. Qed.

Lemma to_lower_byte_not_upper c : is_upper (to_lower_byte c) = false.
Proof. destruct c as [[] [] [] [] [] [] [] []]; reflexivity. Qed.

Lemma string_exists_app p a b :
  string_exists p (a ++ b) = (string_exists p a || string_exists p b)%bool.
Proof.
  induction a as [|c a IH]; [reflexivity|].
  rewrite string_app_cons. simpl. rewrite IH. apply orb_assoc.
Qed.

Lemma escaped_no_upper s : string_exists is_upper (string_flat_map module.escapeByte s) = false.
Proof.
  induction s as [|c s IH]; [reflexivity|].
  simpl. rewrite string_exists_app, IH, orb_false_r.
  unfold module.escapeByte. destruct (is_upper c) eqn:Hc; simpl.
  - rewrite (lower_byte_not_upper c Hc). reflexivity.
  - rewrite Hc. reflexivity.
Qed.

Lemma escaped_has_bang s :
  string_exists is_upper s = true ->
  string_exists (fun c => (c =? "!")%char) (string_flat_map module.escapeByte s) = true.
Proof.
  induction s as [|c s IH]; simpl; [discriminate|].
  rewrite string_exists_app. destruct (is_upper c) eqn:Hc; simpl.
  - intros _. unfold module.escapeByte at 1. rewrite Hc. reflexivity.
  - intros H. rewrite (IH H). apply orb_true_r.
Qed.

Lemma to_lower_no_upper s : string_exists is_upper (to_lower s) = false.
Proof.
  unfold to_lower. induction s as [|c s IH]; [reflexivity|].
  simpl. rewrite to_lower_byte_not_upper, IH. reflexivity.
Qed.

(** What [escapeString] returns. *)
Lemma escapeString_spec s e :
  module.escapeString s = Some e ->
  string_exists (fun c => (c =? "!")%char) s = false /\
  e = (if string_exists is_upper s then string_flat_map module.escapeByte s else s).
Proof.
  unfold module.escapeString.
  destruct (string_exists (fun c => ((c =? "!")%char || (module.RuneSelf <=? N_of_ascii c)%N)%bool) s)
    eqn:Hbad; [discriminate|].
  assert (Hbang : string_exists (fun c => (c =? "!")%char) s = false).
  { clear e. induction s as [|c s IH]; [reflexivity|]. simpl in *.
    apply orb_false_iff in Hbad as [Hc Hs]. apply orb_false_iff in Hc as [Hc _].
    rewrite Hc, (IH Hs). reflexivity. }
  destruct (string_exists is_upper s); simpl; intros [= <-]; auto.
Qed.

(** C8. A module path with an upper-case letter that [module.EscapePath]
    accepts: the escaped path has no upper-case letter, and it is not the
    escaped form of the lower-cased path, whatever [CheckPath] accepts. *)
Theorem EscapePath_case (CheckPath : string -> bool) (path esc : string) :
  string_exists is_upper path = true ->
  module.EscapePath CheckPath path = Some esc ->
  string_exists is_upper esc = false /\
  module.EscapePath CheckPath (to_lower path) <> Some esc /\
  module.escapeString (to_lower path) <> Some esc.
Proof.
  intros Hup H. unfold module.EscapePath in H.
  destruct (CheckPath path); [|discriminate].
  apply escapeString_spec in H as [_ He]. rewrite Hup in He. subst esc.
  split; [apply escaped_no_upper|].
  assert (Hne : module.escapeString (to_lower path)
                <> Some (string_flat_map module.escapeByte path)).
  { intros H. apply escapeString_spec in H as [Hbang He].
    rewrite to_lower_no_upper in He. rewrite <- He in Hbang.
    rewrite (escaped_has_bang path Hup) in Hbang. discriminate. }
  split; [|exact Hne].
  unfold module.EscapePath. destruct (CheckPath (to_lower path)); [exact Hne|discriminate].
Qed.

Lemma EscapePath_case_witness :
  module.EscapePath (fun _ => true) "github.com/Azure/azure-sdk-for-go"
    = Some "github.com/!azure/azure-sdk-for-go" /\
  string_exists is_upper "github.com/!azure/azure-sdk-for-go" = false /\
  module.EscapePath (fun _ => true) (to_lower "github.com/Azure/azure-sdk-for-go")
    <> Some "github.com/!azure/azure-sdk-for-go" /\
  module.escapeString (to_lower "github.com/Azure/azure-sdk-for-go")
    <> Some "github.com/!azure/azure-sdk-for-go".
Proof.
  split; [reflexivity|].
  exact (EscapePath_case (fun _ => true) "github.com/Azure/azure-sdk-for-go"
           "github.com/!azure/azure-sdk-for-go" eq_refl eq_refl).
Defined.

(** ** [run] in two parts

    What [run] computes before it touches the output tree, and what it
    does to the tree with it. *)

Record Plan := mkPlan {
  p_absSrc : string;
  p_goMod : string;
  p_modPath : string;
  p_escVer : string;
  p_atV : string
}.

Definition plan (E : Env) (srcDir version outRoot : string) : error + Plan :=
  if ((srcDir =? "")%string || (version =? "")%string || (outRoot =? "")%string)%bool
  then inl (Errorf "required flags: -src, -version, -out")
  else if negb (semver.IsValid version) then inl (InvalidVersion version)
  else
    match filepath_Abs E srcDir with
    | None => inl (LibErr "filepath")
    | Some absSrc =>
    match src_gomod E absSrc with
    | None => inl (Wrap "read go.mod" (LibErr "os"))
    | Some goModBytes =>
    match modfile_Parse E goModBytes with
    | None => inl (Wrap "parse go.mod" (LibErr "modfile"))
    | Some None | Some (Some EmptyString) =>
        inl (Errorf "cannot determine module path from go.mod")
    | Some (Some modPath) =>
    match module.EscapePath (module_CheckPath E) modPath with
    | None => inl (Wrap "escape module path" (LibErr "module"))
    | Some escPath =>
    match module.EscapeVersion (module_checkElem E) version with
    | None => inl (Wrap "escape version" (LibErr "module"))
    | Some escVer =>
        inr (mkPlan absSrc goModBytes modPath escVer
               (filepath_Join E (filepath_Join E outRoot escPath) "@v"))
    end end end end end.

(** The bytes of the [.info] file. *)
Definition infoBytes (version t : string) : string :=
  ("{" ++ json_string "Version" ++ ":" ++ json_string version ++ ","
       ++ json_string "Time" ++ ":" ++ json_string t ++ "}") ++ nl.

(** From the archive builder's call to the rename of the archive. *)
Definition zipSteps (E : Env) (o : Oracle) (version : string) (p : Plan) (tmpZip : string)
  : M unit :=
  let '(bytes, ok) := zip_CreateFromDir E (p_modPath p) version (p_absSrc p) in
  File_Write o ZipWrite (p_atV p) tmpZip bytes;;
  (if ok then ret tt else fail (LibErr "zip"));;
  File_Close o ZipClose;;
  os_Rename o ZipRename (p_atV p) tmpZip (p_escVer p ++ ".zip").

Definition threePaths (p : Plan) : list (string * string) :=
  [(p_atV p, p_escVer p ++ ".mod"); (p_atV p, p_escVer p ++ ".info");
   (p_atV p, p_escVer p ++ ".zip")].

(** The end of the first program's [run]. *)
Definition listTail `{SliceSorter} (o : Oracle) (version : string) (p : Plan)
  : M (list (string * string)) :=
  err ← try (updateListFile o (p_atV p) version);
  match err with
  | inl e => fail (Wrap "update list" e)
  | inr _ => ret (threePaths p ++ [(p_atV p, "list")])%list
  end.

(** The end of the second program's [run]. *)
Definition plainTail (p : Plan) : M (list (string * string)) := ret (threePaths p).

(** Everything [run] does to the output tree; [tail] follows the rename. *)
Definition publish (tail : M (list (string * string))) (E : Env) (o : Oracle)
    (version : string) (p : Plan) : M (list (string * string)) :=
  os_MkdirAll o MkdirAllAtV (p_atV p) dirPerm;;
  os_WriteFile o ModOpen ModWrite ModClose (p_atV p) (p_escVer p ++ ".mod") (p_goMod p) filePerm;;
  ib ← lift (json_Marshal (mkInfo version (time_Now o))) (LibErr "json");
  os_WriteFile o InfoOpen InfoWrite InfoClose (p_atV p) (p_escVer p ++ ".info") (ib ++ nl) filePerm;;
  tmpZip ← os_CreateTemp o ZipCreateTemp (p_atV p) "zip-*";
  defer (discard (os_Remove o ZipRemove (p_atV p) tmpZip))
    (defer (discard (File_Close o ZipClose))
       (zipSteps E o version p tmpZip;; tail)).

Lemma bind_assoc_w {A B C} (m : M A) (k : A -> M B) (k' : B -> M C) w :
  ((m ≫= k) ≫= k') w = (m ≫= fun a => k a ≫= k') w.
Proof. unfold mbind, M_bind, bind. destruct (m w) as [[e|a] w1]; reflexivity. Qed.

Lemma bind_ext_w {A B} (m : M A) (k1 k2 : A -> M B) w :
  (forall a w1, m w = (inr a, w1) -> k1 a w1 = k2 a w1) ->
  (m ≫= k1) w = (m ≫= k2) w.
Proof.
  intros Hk. unfold mbind, M_bind, bind.
  destruct (m w) as [[e|a] w1]; [reflexivity|]. apply Hk. reflexivity.
Qed.

Lemma defer_ext {A} (c : M unit) (b1 b2 : M A) w :
  b1 w = b2 w -> defer c b1 w = defer c b2 w.
Proof. unfold defer. intros ->. reflexivity. Qed.

Lemma lift_bind {A B} (x : option A) e (k : A -> M B) w :
  (lift x e ≫= k) w = match x with Some a => k a w | None => (inl e, w) end.
Proof. destruct x; reflexivity. Qed.

Lemma WithList_run_plan `{SliceSorter} E o srcDir version outRoot w :
  WithList.run E o srcDir version outRoot w =
  match plan E srcDir version outRoot with
  | inl e => (inl e, w)
  | inr p => publish (listTail o version p) E o version p w
  end.
Proof.
  unfold WithList.run, plan.
  destruct (_ || _)%bool; [reflexivity|].
  destruct (negb (semver.IsValid version)); [reflexivity|].
  rewrite lift_bind. destruct (filepath_Abs E srcDir) as [absSrc|]; [|reflexivity].
  rewrite lift_bind. destruct (src_gomod E absSrc) as [goMod|]; [|reflexivity].
  rewrite lift_bind.
  destruct (modfile_Parse E goMod) as [[modPath|]|]; [|reflexivity|reflexivity].
  destruct modPath as [|c modPath]; [reflexivity|].
  rewrite lift_bind. destruct (module.EscapePath _ _) as [escPath|]; [|reflexivity].
  rewrite lift_bind. destruct (module.EscapeVersion _ _) as [escVer|]; [|reflexivity].
  unfold publish. cbn [p_atV p_escVer p_goMod p_modPath p_absSrc].
  do 5 (apply bind_ext_w; intros ? ? _).
  do 2 apply defer_ext.
  unfold zipSteps. cbn [p_atV p_escVer p_goMod p_modPath p_absSrc].
  destruct (zip_CreateFromDir E (String c modPath) version absSrc) as [bytes ok].
  do 3 (rewrite bind_assoc_w; apply bind_ext_w; intros ? ? _).
  reflexivity.
Qed.

Lemma WithoutList_run_plan E o srcDir version outRoot w :
  WithoutList.run E o srcDir version outRoot w =
  match plan E srcDir version outRoot with
  | inl e => (inl e, w)
  | inr p => publish (plainTail p) E o version p w
  end.
Proof.
  unfold WithoutList.run, plan.
  destruct (_ || _)%bool; [reflexivity|].
  destruct (negb (semver.IsValid version)); [reflexivity|].
  rewrite lift_bind. destruct (filepath_Abs E srcDir) as [absSrc|]; [|reflexivity].
  rewrite lift_bind. destruct (src_gomod E absSrc) as [goMod|]; [|reflexivity].
  rewrite lift_bind.
  destruct (modfile_Parse E goMod) as [[modPath|]|]; [|reflexivity|reflexivity].
  destruct modPath as [|c modPath]; [reflexivity|].
  rewrite lift_bind. destruct (module.EscapePath _ _) as [escPath|]; [|reflexivity].
  rewrite lift_bind. destruct (module.EscapeVersion _ _) as [escVer|]; [|reflexivity].
  unfold publish. cbn [p_atV p_escVer p_goMod p_modPath p_absSrc].
  do 5 (apply bind_ext_w; intros ? ? _).
  do 2 apply defer_ext.
  unfold zipSteps. cbn [p_atV p_escVer p_goMod p_modPath p_absSrc].
  destruct (zip_CreateFromDir E (String c modPath) version absSrc) as [bytes ok].
  do 3 (rewrite bind_assoc_w; apply bind_ext_w; intros ? ? _).
  reflexivity.
Qed.

(** ** The check of the version *)

(** An example environment: module [example.com/M] in [/work/src]; the
    archive builder refuses [v1.2], which is not in canonical form. *)
Definition exEnv : Env :=
  mkEnv (fun s => Some ("/work/" ++ s))
        (fun a b => a ++ "/" ++ b)
        (fun _ => Some ("module example.com/M" ++ nl))
        (fun _ => Some (Some "example.com/M"))
        (fun _ => true)
        (fun _ => true)
        (fun m v _ => if (v =? "v1.2")%string then (EmptyString, false)
                      else ("PK:" ++ m ++ "@" ++ v, true)).

Definition emptyWorld : World := mkWorld ∅ [].

(** C5, at [-version v1.2]: the version is not of the form [vX.Y.Z] the
    program asks for, yet [semver.IsValid] accepts it, and [run] creates the
    directory and writes the [.mod] and [.info] files before the archive
    builder refuses the version. *)
Lemma run_accepts_short_version :
  semver.IsValid "v1.2" = true /\
  fst (WithList.run (H := GoInsertionSort) exEnv quiet "src" "v1.2" "out" emptyWorld)
    = inl (LibErr "zip") /\
  data_at (w_fs (snd (WithList.run (H := GoInsertionSort) exEnv quiet "src" "v1.2" "out"
                        emptyWorld))) "out/example.com/!m/@v" "v1.2.mod"
    = Some ("module example.com/M" ++ nl) /\
  data_at (w_fs (snd (WithList.run (H := GoInsertionSort) exEnv quiet "src" "v1.2" "out"
                        emptyWorld))) "out/example.com/!m/@v" "v1.2.info"
    = Some (infoBytes "v1.2" "2024-01-02T03:04:05Z").
Proof. repeat split; vm_compute; reflexivity. Qed.

(** ** What [run] does to the output tree *)

Lemma bind_post {A B} (F : (error + B) * World -> (error + B) * World)
    (m : M A) (kL kR : A -> M B) w :
  (forall e w', F (inl e, w') = (inl e, w')) ->
  (forall a w1, m w = (inr a, w1) -> kL a w1 = F (kR a w1)) ->
  (m ≫= kL) w = F ((m ≫= kR) w).
Proof.
  intros HF Hk. unfold mbind, M_bind, bind.
  destruct (m w) as [[e|a] w1]; [symmetry; apply HF|]. apply Hk. reflexivity.
Qed.

Lemma discard_Remove_absent o s dir base w :
  file_at (w_fs w) dir base = None -> snd (discard (os_Remove o s dir base) w) = w.
Proof.
  intros Hn. unfold discard. cbn [snd].
  destruct (os_Remove o s dir base w) as [r w'] eqn:E.
  apply os_Remove_spec in E as [E _]. cbn [snd]. apply E, Hn.
Qed.

Lemma plan_escVer E srcDir version outRoot p :
  plan E srcDir version outRoot = inr p ->
  semver.IsValid version = true /\ exists r, p_escVer p = String "v" r.
Proof.
  unfold plan. destruct (_ || _)%bool; [discriminate|].
  destruct (semver.IsValid version) eqn:Hv; [|discriminate]. cbn [negb].
  destruct (filepath_Abs E srcDir) as [absSrc|]; [|discriminate].
  destruct (src_gomod E absSrc) as [goMod|]; [|discriminate].
  destruct (modfile_Parse E goMod) as [[[|c modPath]|]|]; try discriminate.
  destruct (module.EscapePath _ _) as [escPath|]; [|discriminate].
  destruct (module.EscapeVersion _ _) as [escVer|] eqn:He; [|discriminate].
  intros [= <-]. split; [reflexivity|]. cbn [p_escVer].
  unfold module.EscapeVersion in He. destruct (_ || _)%bool; [discriminate|].
  apply escapeString_spec in He as [_ ->].
  apply IsValid_plain in Hv as (v1 & -> & _).
  destruct (string_exists is_upper (String "v" v1)); eauto.
Qed.

Section Publish.

Context `{SliceSorter} (E : Env) (o : Oracle) (version : string) (p : Plan).
Context (escTail : string) (Hesc : p_escVer p = String "v" escTail).

Lemma names_mod_info : p_escVer p ++ ".mod" <> p_escVer p ++ ".info".
Proof. intros E0. apply (inj (String.app _)) in E0. discriminate. Qed.

Lemma names_mod_zip : p_escVer p ++ ".mod" <> p_escVer p ++ ".zip".
Proof. intros E0. apply (inj (String.app _)) in E0. discriminate. Qed.

Lemma names_info_zip : p_escVer p ++ ".info" <> p_escVer p ++ ".zip".
Proof. intros E0. apply (inj (String.app _)) in E0. discriminate. Qed.

Lemma names_v_list suffix : p_escVer p ++ suffix <> "list".
Proof. rewrite Hesc, string_app_cons. discriminate. Qed.

Lemma names_v_listtmp suffix tmp : is_temp_of "list" tmp -> p_escVer p ++ suffix <> tmp.
Proof. intros [n ->]. rewrite Hesc, !string_app_cons. discriminate. Qed.

(** The temporary names of the archive. *)
Definition is_zip_temp (name : string) : Prop :=
  exists n, name = "zip-" ++ Uitoa n ++ EmptyString.

Lemma names_v_ziptmp suffix tmp : is_zip_temp tmp -> p_escVer p ++ suffix <> tmp.
Proof. intros [n ->]. rewrite Hesc, !string_app_cons. discriminate. Qed.

Lemma names_ziptmp_list tmp : is_zip_temp tmp -> tmp <> "list".
Proof. intros [n ->]. rewrite !string_app_cons. discriminate. Qed.

Lemma names_ziptmp_listtmp tmp tmp' : is_zip_temp tmp -> is_temp_of "list" tmp' -> tmp <> tmp'.
Proof. intros [n ->] [m ->]. rewrite !string_app_cons. discriminate. Qed.

Lemma zipSteps_spec tmpZip w r w' :
  file_at (w_fs w) (p_atV p) tmpZip = Some (mkFile EmptyString tempPerm) ->
  zipSteps E o version p tmpZip w = (r, w') ->
  exists w3, continues (only_at (p_atV p) tmpZip) w w3 /\
    ((r = inr tt /\
      exists bytes,
        zip_CreateFromDir E (p_modPath p) version (p_absSrc p) = (bytes, true) /\
        file_at (w_fs w3) (p_atV p) tmpZip = Some (mkFile bytes tempPerm) /\
        w' = mkWorld (put_file (p_atV p) (p_escVer p ++ ".zip") (mkFile bytes tempPerm)
                        (del_file (p_atV p) tmpZip (w_fs w3)))
                     (put_file (p_atV p) (p_escVer p ++ ".zip") (mkFile bytes tempPerm)
                        (del_file (p_atV p) tmpZip (w_fs w3)) :: w_hist w3)) \/
     (r <> inr tt /\ w' = w3)).
Proof.
  intros Htmp H0. unfold zipSteps in H0.
  destruct (zip_CreateFromDir E (p_modPath p) version (p_absSrc p)) as [bytes ok].
  apply bind_inv in H0 as [(e & H0 & ->)|([] & w1 & H0 & H1)].
  { apply File_Write_spec in H0 as (C1 & _ & _).
    exists w'. split; [exact C1|]. right. split; [discriminate|reflexivity]. }
  apply File_Write_spec in H0 as (C1 & HWok & _).
  destruct (HWok eq_refl) as (_ & f & Hf & Hf' & _).
  rewrite Htmp in Hf. injection Hf as <-. cbn [f_data f_mode] in Hf'.
  apply bind_inv in H1 as [(e & H1 & ->)|([] & w2 & H1 & H2)].
  { destruct ok; [discriminate|]. injection H1 as _ <-.
    exists w1. split; [exact C1|]. right. split; [discriminate|reflexivity]. }
  destruct ok; [|discriminate]. injection H1 as <-.
  apply bind_inv in H2 as [(e & H2 & ->)|([] & w3 & H2 & H3)].
  { apply File_Close_spec in H2 as (-> & _ & _).
    exists w1. split; [exact C1|]. right. split; [discriminate|reflexivity]. }
  apply File_Close_spec in H2 as (-> & _ & _).
  apply os_Rename_spec in H3 as (HRok & HRerr & _).
  exists w1. split; [exact C1|].
  destruct r as [e|[]].
  - right. split; [discriminate|]. apply HRerr. discriminate.
  - left. split; [reflexivity|]. destruct (HRok eq_refl) as (_ & f & Hf & ->).
    rewrite Hf' in Hf. injection Hf as <-. exists bytes. auto.
Qed.

End Publish.

(** ** The two programs *)

(** What the first program does after the point where the second one ends. *)
Definition thenList `{SliceSorter} (o : Oracle) (version : string)
    (x : (error + list (string * string)) * World) : (error + list (string * string)) * World :=
  match x with
  | (inl e, w') => (inl e, w')
  | (inr paths, w') =>
      let atV := fst (hd (EmptyString, EmptyString) paths) in
      match updateListFile o atV version w' with
      | (inl e, w'') => (inl (Wrap "update list" e), w'')
      | (inr _, w'') => (inr (paths ++ [(atV, "list")])%list, w'')
      end
  end.

Lemma zip_temp_name o s dir w tmpZip w' :
  os_CreateTemp o s dir "zip-*" w = (inr tmpZip, w') ->
  is_zip_temp tmpZip /\
  file_at (w_fs w') dir tmpZip = Some (mkFile EmptyString tempPerm).
Proof.
  intros H0. apply os_CreateTemp_spec in H0 as (Hok & _ & _).
  destruct (Hok tmpZip eq_refl) as (_ & Hd & _ & (pre & suf & n & Hps & ->) & ->).
  injection Hps as <- <-. split; [exists n; reflexivity|].
  cbn [w_fs]. rewrite file_at_put_file, decide_True by auto. reflexivity.
Qed.

(** [updateListFile] leaves every entry of the directory alone that is
    neither the list nor one of its temporary names. *)
Lemma updateListFile_keeps `{SliceSorter} o atV newVer w r w' x :
  updateListFile o atV newVer w = (r, w') ->
  x <> "list" -> ~ is_temp_of "list" x ->
  file_at (w_fs w') atV x = file_at (w_fs w) atV x.
Proof.
  intros H0 Hx Hxt. apply updateListFile_spec in H0 as (tmp & earlier & Htmp & _ & Hcase).
  destruct Hcase as [(_ & Hd & ->)|(_ & Ho & _)].
  - cbn [w_fs]. rewrite file_at_put_file by exact Hd.
    rewrite decide_False; [reflexivity|]. intros [_ E0]. auto.
  - eapply only_at_other; [|exact Ho]. intros ->. exact (Hxt Htmp).
Qed.

Lemma publish_tails `{SliceSorter} E o version p escTail w :
  p_escVer p = String "v" escTail ->
  publish (listTail o version p) E o version p w =
  thenList o version (publish (plainTail p) E o version p w).
Proof.
  intros Hesc. unfold publish.
  do 4 (apply bind_post; [reflexivity|]; intros ? ? _).
  apply bind_post; [reflexivity|]. intros tmpZip w5 Htmp.
  apply zip_temp_name in Htmp as [Hname Htmp].
  unfold defer, mbind, M_bind, bind.
  destruct (zipSteps E o version p tmpZip w5) as [[e|[]] w6] eqn:Hz.
  { reflexivity. }
  apply (zipSteps_spec E o version p tmpZip w5) in Hz; [|exact Htmp].
  destruct Hz as (w7 & _ & [(_ & bytes & _ & _ & Hw6)|(Hr & _)]); [|contradiction].
  assert (Hgone : file_at (w_fs w6) (p_atV p) tmpZip = None).
  { rewrite Hw6. cbn [w_fs].
    destruct (w_fs w7 !! p_atV p) as [d|] eqn:Hd.
    - rewrite file_at_put_file.
      2:{ apply del_file_dirs. eauto. }
      rewrite decide_False.
      2:{ intros [_ E0]. symmetry in E0. revert E0.
          apply (names_v_ziptmp p escTail Hesc). exact Hname. }
      rewrite file_at_del_file, decide_True by auto. reflexivity.
    - unfold file_at, put_file, del_file. repeat rewrite Hd. reflexivity. }
  unfold plainTail, ret, listTail, mbind, M_bind, bind, try.
  rewrite !discard_Close. cbn [snd].
  rewrite discard_Remove_absent by exact Hgone.
  unfold thenList, threePaths. cbn [hd fst].
  destruct (updateListFile o (p_atV p) version w6) as [[e|[]] w8] eqn:Hu.
  - unfold fail. rewrite !discard_Close. cbn [snd].
    rewrite discard_Remove_absent; [reflexivity|].
    rewrite (updateListFile_keeps _ _ _ _ _ _ _ Hu); [exact Hgone| |].
    + apply names_ziptmp_list, Hname.
    + intros Ht. exact (names_ziptmp_listtmp tmpZip tmpZip Hname Ht eq_refl).
  - unfold ret. rewrite !discard_Close. cbn [snd].
    rewrite discard_Remove_absent; [reflexivity|].
    rewrite (updateListFile_keeps _ _ _ _ _ _ _ Hu); [exact Hgone| |].
    + apply names_ziptmp_list, Hname.
    + intros Ht. exact (names_ziptmp_listtmp tmpZip tmpZip Hname Ht eq_refl).
Qed.

(** C10. On every input, the first program's [run] is the second program's
    [run] followed, when that one succeeds, by [updateListFile] on the
    directory of the files it wrote: the same errors and the same tree in
    every error case up to the archive, the same bytes in the three files;
    then the list update, whose error is wrapped as ["update list"], and the
    list path added to what is printed. *)
Theorem run_variants `{SliceSorter} E o srcDir version outRoot w :
  WithList.run E o srcDir version outRoot w =
  thenList o version (WithoutList.run E o srcDir version outRoot w).
Proof.
  rewrite WithList_run_plan, WithoutList_run_plan.
  destruct (plan E srcDir version outRoot) as [e|p] eqn:Hp; [reflexivity|].
  apply plan_escVer in Hp as [_ [r Hr]].
  apply (publish_tails E o version p r w Hr).
Qed.

(** ** A successful publication, step by step *)

(** The entry [name] of [dir] is as in [fs], or is the complete file [full]. *)
Definition old_or (dir name : string) (full : File) (fs st : FS) : Prop :=
  file_at st dir name = file_at fs dir name \/ file_at st dir name = Some full.

Lemma old_or_refl dir name full fs : old_or dir name full fs fs.
Proof. left. reflexivity. Qed.

Lemma old_or_trans dir name full a b c :
  old_or dir name full a b -> old_or dir name full b c -> old_or dir name full a c.
Proof. unfold old_or. intros [H1|H1] [H2|H2]; rewrite ?H2, ?H1; auto. Qed.

Lemma only_at_old_or dir b name full fs st :
  b <> name -> only_at dir b fs st -> old_or dir name full fs st.
Proof. intros Hne Ho. left. eapply only_at_other; eauto. Qed.

Lemma continues_seen R w w' st : continues R w w' -> seen_between w w' st -> R (w_fs w) st.
Proof.
  intros (new & E1 & _ & HF) (new' & E2 & Hin).
  rewrite E1 in E2. apply app_inv_tail in E2. subst new'.
  rewrite Forall_forall in HF. apply HF, Hin.
Qed.

Lemma publish_inr (tail : M (list (string * string))) E o version p w paths w' :
  publish tail E o version p w = (inr paths, w') ->
  exists t w1 w2 w3 tmpZip w4 w5 w6,
    time_Now o = Some t /\
    os_MkdirAll o MkdirAllAtV (p_atV p) dirPerm w = (inr tt, w1) /\
    os_WriteFile o ModOpen ModWrite ModClose (p_atV p) (p_escVer p ++ ".mod")
      (p_goMod p) filePerm w1 = (inr tt, w2) /\
    os_WriteFile o InfoOpen InfoWrite InfoClose (p_atV p) (p_escVer p ++ ".info")
      (infoBytes version t) filePerm w2 = (inr tt, w3) /\
    os_CreateTemp o ZipCreateTemp (p_atV p) "zip-*" w3 = (inr tmpZip, w4) /\
    zipSteps E o version p tmpZip w4 = (inr tt, w5) /\
    tail w5 = (inr paths, w6) /\
    w' = snd (discard (os_Remove o ZipRemove (p_atV p) tmpZip) w6).
Proof.
  unfold publish. intros H0.
  apply bind_inr in H0 as ([] & w1 & H1 & H0).
  apply bind_inr in H0 as ([] & w2 & H2 & H0).
  apply bind_inr in H0 as (ib & w2' & Hib & H0).
  unfold lift, json_Marshal in Hib. cbn [Time Version] in Hib.
  destruct (time_Now o) as [t|] eqn:Ht; [|discriminate]. injection Hib as <- <-.
  apply bind_inr in H0 as ([] & w3 & H3 & H0).
  apply bind_inr in H0 as (tmpZip & w4 & H4 & H0).
  unfold defer in H0.
  destruct ((zipSteps E o version p tmpZip;; tail) w4) as [r w6] eqn:Hb.
  rewrite discard_Close in H0. cbn [snd] in H0. injection H0 as -> <-.
  apply bind_inr in Hb as ([] & w5 & H5 & H6).
  exists t, w1, w2, w3, tmpZip, w4, w5, w6. repeat split; auto.
Qed.

(** [w'] comes after [w]. *)
Definition extends (w w' : World) : Prop := continues (fun _ _ => True) w w'.

Lemma continues_extends R w w' : continues R w w' -> extends w w'.
Proof. apply continues_mono. auto. Qed.

Lemma extends_trans w1 w2 w3 : extends w1 w2 -> extends w2 w3 -> extends w1 w3.
Proof. apply continues_trans; auto. Qed.

Lemma continues_keeps dir b x w w' :
  continues (only_at dir b) w w' -> b <> x ->
  file_at (w_fs w') dir x = file_at (w_fs w) dir x.
Proof.
  intros C Hne. apply continues_cur in C; [|apply only_at_refl].
  eapply only_at_other; eauto.
Qed.

Lemma continues_dirs dir b d w w' :
  continues (only_at dir b) w w' -> is_Some (w_fs w !! d) -> is_Some (w_fs w' !! d).
Proof.
  intros C. apply continues_cur in C; [|apply only_at_refl].
  apply only_at_differs in C as [C _]. apply C.
Qed.

Lemma continues_cur_seen R w0 w1 w2 :
  seen_between w0 w1 (w_fs w1) -> continues R w1 w2 -> seen_between w0 w2 (w_fs w2).
Proof.
  intros (n1 & E1 & H1) (n2 & E2 & C2 & _). exists (n2 ++ n1)%list. split.
  - rewrite E2, E1. apply app_assoc.
  - rewrite C2. apply elem_of_app. destruct n2 as [|s n2]; simpl; [auto|].
    left. apply list_elem_of_here.
Qed.

Section PublishFacts.

Context (E : Env) (o : Oracle) (version : string) (p : Plan).
Context (escTail : string) (Hesc : p_escVer p = String "v" escTail).
Context (t tmpZip : string) (w w1 w2 w3 w4 w5 : World).
Context
  (H1 : os_MkdirAll o MkdirAllAtV (p_atV p) dirPerm w = (inr tt, w1))
  (H2 : os_WriteFile o ModOpen ModWrite ModClose (p_atV p) (p_escVer p ++ ".mod")
          (p_goMod p) filePerm w1 = (inr tt, w2))
  (H3 : os_WriteFile o InfoOpen InfoWrite InfoClose (p_atV p) (p_escVer p ++ ".info")
          (infoBytes version t) filePerm w2 = (inr tt, w3))
  (H4 : os_CreateTemp o ZipCreateTemp (p_atV p) "zip-*" w3 = (inr tmpZip, w4))
  (H5 : zipSteps E o version p tmpZip w4 = (inr tt, w5)).

Lemma publish_steps :
  exists bytes,
    zip_CreateFromDir E (p_modPath p) version (p_absSrc p) = (bytes, true) /\
    is_zip_temp tmpZip /\
    is_Some (w_fs w5 !! p_atV p) /\
    data_at (w_fs w5) (p_atV p) (p_escVer p ++ ".mod") = Some (p_goMod p) /\
    data_at (w_fs w5) (p_atV p) (p_escVer p ++ ".info") = Some (infoBytes version t) /\
    file_at (w_fs w5) (p_atV p) (p_escVer p ++ ".zip") = Some (mkFile bytes tempPerm) /\
    file_at (w_fs w5) (p_atV p) tmpZip = None /\
    file_at (w_fs w5) (p_atV p) "list" = file_at (w_fs w) (p_atV p) "list" /\
    continues (old_or (p_atV p) (p_escVer p ++ ".zip") (mkFile bytes tempPerm)) w w5 /\
    (forall k, (k <= String.length (p_goMod p))%nat ->
       exists st, seen_between w w5 st /\
         data_at st (p_atV p) (p_escVer p ++ ".mod") = Some (substring 0 k (p_goMod p))) /\
    (forall k, (k <= String.length (infoBytes version t))%nat ->
       exists st, seen_between w w5 st /\
         data_at st (p_atV p) (p_escVer p ++ ".info")
           = Some (substring 0 k (infoBytes version t))) /\
    (exists st, seen_between w w5 st /\
       file_at st (p_atV p) tmpZip = Some (mkFile bytes tempPerm) /\
       file_at st (p_atV p) (p_escVer p ++ ".zip")
         = file_at (w_fs w) (p_atV p) (p_escVer p ++ ".zip")).
Proof.
  (* the steps *)
  apply os_MkdirAll_spec in H1 as (C1 & Hdir1 & _). specialize (Hdir1 eq_refl).
  apply os_WriteFile_spec in H2 as (C2 & Hmod & _).
  destruct (Hmod eq_refl) as (_ & _ & _ & _ & Dmod & Pmod). clear Hmod.
  apply os_WriteFile_spec in H3 as (C3 & Hinfo & _).
  destruct (Hinfo eq_refl) as (_ & _ & _ & _ & Dinfo & Pinfo). clear Hinfo.
  pose proof (zip_temp_name _ _ _ _ _ _ H4) as [Hname Htmp].
  apply os_CreateTemp_spec in H4 as (Hok & _ & _).
  destruct (Hok tmpZip eq_refl) as (_ & _ & _ & _ & Hw4). clear Hok.
  assert (C4 : continues (only_at (p_atV p) tmpZip) w3 w4).
  { rewrite Hw4. apply continues_one, only_at_put_file. }
  assert (S4 : seen_between w3 w4 (w_fs w4)) by (rewrite Hw4; apply seen_one).
  apply (zipSteps_spec E o version p tmpZip w4) in H5; [|exact Htmp].
  destruct H5 as (w4' & C5 & [(_ & bytes & Hzip & Hfull & Hw5)|(Hr & _)]); [|contradiction].
  set (full := mkFile bytes tempPerm) in *.
  set (X := put_file (p_atV p) (p_escVer p ++ ".zip") full (del_file (p_atV p) tmpZip (w_fs w4'))) in *.
  (* the names *)
  pose proof (names_mod_info p) as Nmi.
  pose proof (names_mod_zip p) as Nmz.
  pose proof (names_info_zip p) as Niz.
  pose proof (names_v_ziptmp p escTail Hesc ".mod" tmpZip Hname) as Nmt.
  pose proof (names_v_ziptmp p escTail Hesc ".info" tmpZip Hname) as Nit.
  pose proof (names_v_ziptmp p escTail Hesc ".zip" tmpZip Hname) as Nzt.
  pose proof (names_v_list p escTail Hesc ".mod") as Nml.
  pose proof (names_v_list p escTail Hesc ".info") as Nil.
  pose proof (names_v_list p escTail Hesc ".zip") as Nzl.
  pose proof (names_ziptmp_list tmpZip Hname) as Ntl.
  (* the directory *)
  assert (Hdir4' : is_Some (w_fs w4' !! (p_atV p))).
  { eapply continues_dirs; [exact C5|]. eapply continues_dirs; [exact C4|].
    eapply continues_dirs; [exact C3|]. eapply continues_dirs; [exact C2|]. exact Hdir1. }
  assert (Hdel : is_Some (del_file (p_atV p) tmpZip (w_fs w4') !! (p_atV p)))
    by (apply del_file_dirs; exact Hdir4').
  (* an entry other than the archive and its temporary file, from w1 on *)
  assert (Keep1 : forall x, file_at (w_fs w1) (p_atV p) x = file_at (w_fs w) (p_atV p) x).
  { intros x. apply continues_cur in C1; [|apply differs_in_refl].
    destruct C1 as [_ C1]. apply C1. tauto. }
  assert (Keep5 : forall x, x <> (p_escVer p ++ ".zip") -> x <> tmpZip ->
            file_at (w_fs w5) (p_atV p) x = file_at (w_fs w3) (p_atV p) x).
  { intros x Hxz Hxt. rewrite Hw5. cbn [w_fs]. unfold X.
    rewrite file_at_put_file by exact Hdel. rewrite decide_False by tauto.
    rewrite file_at_del_file, decide_False by tauto.
    rewrite (continues_keeps _ _ x _ _ C5) by auto.
    apply (continues_keeps _ _ x _ _ C4). auto. }
  assert (C45 : continues (only_at (p_atV p) tmpZip) w3 w4').
  { eapply continues_trans; eauto using only_at_refl, only_at_trans. }
  assert (Hzip4' : file_at (w_fs w4') (p_atV p) (p_escVer p ++ ".zip") = file_at (w_fs w) (p_atV p) (p_escVer p ++ ".zip")).
  { rewrite (continues_keeps _ _ (p_escVer p ++ ".zip") _ _ C45) by auto.
    rewrite (continues_keeps _ _ (p_escVer p ++ ".zip") _ _ C3) by auto.
    rewrite (continues_keeps _ _ (p_escVer p ++ ".zip") _ _ C2) by auto. apply Keep1. }
  assert (E45 : extends w4' w5) by (rewrite Hw5; apply continues_one; exact I).
  assert (E25 : extends w2 w5).
  { eapply extends_trans; [eapply continues_extends; exact C3|].
    eapply extends_trans; [eapply continues_extends; exact C45|exact E45]. }
  exists bytes. split; [exact Hzip|]. split; [exact Hname|].
  split; [rewrite Hw5; cbn [w_fs]; unfold X; apply put_file_dirs; exact Hdel|].
  split; [|split; [|split; [|split; [|split; [|split; [|split; [|split]]]]]]].
  - unfold data_at. rewrite Keep5 by auto.
    rewrite (continues_keeps _ _ (p_escVer p ++ ".mod") _ _ C3) by auto. exact Dmod.
  - unfold data_at. rewrite Keep5 by auto. exact Dinfo.
  - rewrite Hw5. cbn [w_fs]. unfold X.
    rewrite file_at_put_file, decide_True by auto. reflexivity.
  - rewrite Hw5. cbn [w_fs]. unfold X.
    rewrite file_at_put_file by exact Hdel. rewrite decide_False by (intros [_ E0]; auto).
    rewrite file_at_del_file, decide_True by auto. reflexivity.
  - rewrite Keep5 by auto.
    rewrite (continues_keeps _ _ "list" _ _ C3) by auto.
    rewrite (continues_keeps _ _ "list" _ _ C2) by auto. apply Keep1.
  - eapply continues_trans; [apply old_or_refl|apply old_or_trans| |].
    { eapply continues_mono; [|exact C1]. intros s [_ Hs]. left. apply Hs. tauto. }
    eapply continues_trans; [apply old_or_refl|apply old_or_trans| |].
    { eapply continues_mono; [|exact C2]. intros s. apply only_at_old_or. auto. }
    eapply continues_trans; [apply old_or_refl|apply old_or_trans| |].
    { eapply continues_mono; [|exact C3]. intros s. apply only_at_old_or. auto. }
    eapply continues_trans; [apply old_or_refl|apply old_or_trans| |].
    { eapply continues_mono; [|exact C45]. intros s. apply only_at_old_or. auto. }
    rewrite Hw5. apply continues_one. right. unfold X.
    rewrite file_at_put_file, decide_True by auto. reflexivity.
  - intros k Hk. destruct (Pmod k Hk) as (st & Hs & Hd). exists st. split; [|exact Hd].
    eapply seen_between_trans_r; [exact C1|].
    eapply seen_between_trans_l; [exact Hs|exact E25].
  - intros k Hk. destruct (Pinfo k Hk) as (st & Hs & Hd). exists st. split; [|exact Hd].
    eapply seen_between_trans_r; [exact C1|].
    eapply seen_between_trans_r; [exact C2|].
    eapply seen_between_trans_l; [exact Hs|].
    eapply extends_trans; [eapply continues_extends; exact C45|exact E45].
  - exists (w_fs w4'). split; [|split; [exact Hfull|exact Hzip4']].
    eapply seen_between_trans_r; [exact C1|].
    eapply seen_between_trans_r; [exact C2|].
    eapply seen_between_trans_r; [exact C3|].
    eapply seen_between_trans_l; [|exact E45].
    eapply continues_cur_seen; [exact S4|exact C5].
Qed.

End PublishFacts.

Lemma updateListFile_continues_ok `{SliceSorter} o atV newVer w w' :
  updateListFile o atV newVer w = (inr tt, w') ->
  continues (differs_in atV (fun b => b = "list" \/ is_temp_of "list" b)) w w'.
Proof.
  intros H0. apply updateListFile_spec in H0 as (tmp & earlier & Htmp & HF & Hcase).
  destruct Hcase as [(_ & Hd & ->)|(Hr & _)]; [|contradiction].
  eexists (_ :: earlier). split; [reflexivity|]. split; [reflexivity|].
  constructor.
  - eapply differs_in_mono; [|apply differs_in_put_file]. intros b <-. auto.
  - eapply Forall_impl; [exact HF|]. intros s Hs.
    eapply differs_in_mono; [|apply only_at_differs; exact Hs]. intros b <-. auto.
Qed.

(** A successful [run] of the first program. *)
Lemma run_list_facts `{SliceSorter} E o srcDir version outRoot w paths w' :
  WithList.run E o srcDir version outRoot w = (inr paths, w') ->
  exists p t bytes tmpZip,
    plan E srcDir version outRoot = inr p /\
    semver.IsValid version = true /\
    time_Now o = Some t /\
    zip_CreateFromDir E (p_modPath p) version (p_absSrc p) = (bytes, true) /\
    is_zip_temp tmpZip /\
    paths = (threePaths p ++ [(p_atV p, "list")])%list /\
    data_at (w_fs w') (p_atV p) (p_escVer p ++ ".mod") = Some (p_goMod p) /\
    data_at (w_fs w') (p_atV p) (p_escVer p ++ ".info") = Some (infoBytes version t) /\
    file_at (w_fs w') (p_atV p) (p_escVer p ++ ".zip") = Some (mkFile bytes tempPerm) /\
    data_at (w_fs w') (p_atV p) "list"
      = Some (nextList (data_at (w_fs w) (p_atV p) "list") version) /\
    continues (old_or (p_atV p) (p_escVer p ++ ".zip") (mkFile bytes tempPerm)) w w' /\
    (forall k, (k <= String.length (p_goMod p))%nat ->
       exists st, seen_between w w' st /\
         data_at st (p_atV p) (p_escVer p ++ ".mod") = Some (substring 0 k (p_goMod p))) /\
    (forall k, (k <= String.length (infoBytes version t))%nat ->
       exists st, seen_between w w' st /\
         data_at st (p_atV p) (p_escVer p ++ ".info")
           = Some (substring 0 k (infoBytes version t))) /\
    (exists st, seen_between w w' st /\
       file_at st (p_atV p) tmpZip = Some (mkFile bytes tempPerm) /\
       file_at st (p_atV p) (p_escVer p ++ ".zip")
         = file_at (w_fs w) (p_atV p) (p_escVer p ++ ".zip")).
Proof.
  rewrite WithList_run_plan. intros H0.
  destruct (plan E srcDir version outRoot) as [e|p] eqn:Hp; [discriminate|].
  destruct (plan_escVer _ _ _ _ _ Hp) as [Hvalid [escTail Hesc]].
  apply publish_inr in H0
    as (t & w1 & w2 & w3 & tmpZip & w4 & w5 & w6 & Ht & H1 & H2 & H3 & H4 & H5 & H6 & Hw').
  destruct (publish_steps E o version p escTail Hesc t tmpZip w w1 w2 w3 w4 w5 H1 H2 H3 H4 H5)
    as (bytes & Hzip & Hname & Hdir & Dmod & Dinfo & Dzip & Dtmp & Dlist & Czip
        & Pmod & Pinfo & Ptmp).
  unfold listTail in H6.
  apply bind_inr in H6 as (err & w6' & H6 & H7). apply try_inr in H6.
  destruct err as [e|[]]; [discriminate|]. injection H7 as <- <-.
  assert (Hgone : file_at (w_fs w6') (p_atV p) tmpZip = None).
  { rewrite (updateListFile_keeps _ _ _ _ _ _ _ H6); [exact Dtmp| |].
    - apply names_ziptmp_list, Hname.
    - intros Ht0. exact (names_ziptmp_listtmp tmpZip tmpZip Hname Ht0 eq_refl). }
  rewrite discard_Remove_absent in Hw' by exact Hgone. subst w6'.
  pose proof (updateListFile_continues_ok _ _ _ _ _ H6) as CL.
  assert (Keep : forall suffix, file_at (w_fs w') (p_atV p) (p_escVer p ++ suffix)
                               = file_at (w_fs w5) (p_atV p) (p_escVer p ++ suffix)).
  { intros suffix. apply (updateListFile_keeps _ _ _ _ _ _ _ H6).
    - apply (names_v_list p escTail Hesc).
    - intros Ht0. exact (names_v_listtmp p escTail Hesc suffix _ Ht0 eq_refl). }
  exists p, t, bytes, tmpZip.
  split; [reflexivity|]. split; [exact Hvalid|]. split; [exact Ht|]. split; [exact Hzip|].
  split; [exact Hname|]. split; [reflexivity|].
  split; [unfold data_at; rewrite Keep; exact Dmod|].
  split; [unfold data_at; rewrite Keep; exact Dinfo|].
  split; [rewrite Keep; exact Dzip|].
  split.
  { rewrite (updateListFile_list _ _ _ _ _ H6). unfold data_at. rewrite Dlist. reflexivity. }
  split.
  { eapply continues_trans; [apply old_or_refl|apply old_or_trans|exact Czip|].
    eapply continues_mono; [|exact CL]. intros s [_ Hs]. left. apply Hs.
    intros [_ [E0|E0]].
    - revert E0. apply (names_v_list p escTail Hesc).
    - revert E0. intros E0. exact (names_v_listtmp p escTail Hesc ".zip" _ E0 eq_refl). }
  split.
  { intros k Hk. destruct (Pmod k Hk) as (st & Hs & Hd). exists st. split; [|exact Hd].
    eapply seen_between_trans_l; [exact Hs|exact CL]. }
  split.
  { intros k Hk. destruct (Pinfo k Hk) as (st & Hs & Hd). exists st. split; [|exact Hd].
    eapply seen_between_trans_l; [exact Hs|exact CL]. }
  destruct Ptmp as (st & Hs & Hd1 & Hd2). exists st. split; [|auto].
  eapply seen_between_trans_l; [exact Hs|exact CL].
Qed.

(** ** How the three files are written *)

(** The publication of [v1.2.0] of the example module into an empty tree. *)
Definition exRun : (error + list (string * string)) * World :=
  WithList.run (H := GoInsertionSort) exEnv quiet "src" "v1.2.0" "out" emptyWorld.

Definition exAtV : string := "out/example.com/!m/@v".

Definition exPaths : list (string * string) :=
  [(exAtV, "v1.2.0.mod"); (exAtV, "v1.2.0.info"); (exAtV, "v1.2.0.zip"); (exAtV, "list")].

(** C4, as stated, at the example publication: it succeeds, the [.mod]
    file is seen with one byte only, and in no state of the tree does the
    [.zip] file hold anything but the complete archive. *)
Lemma zip_never_partial_in_example :
  fst exRun = inr [(exAtV, "v1.2.0.mod"); (exAtV, "v1.2.0.info"); (exAtV, "v1.2.0.zip");
                   (exAtV, "list")] /\
  existsb (fun st => match data_at st exAtV "v1.2.0.mod" with
                     | Some d => (d =? "m")%string
                     | None => false
                     end) (w_hist (snd exRun)) = true /\
  forallb (fun st => match data_at st exAtV "v1.2.0.zip" with
                     | Some d => (d =? "PK:example.com/M@v1.2.0")%string
                     | None => true
                     end) (w_hist (snd exRun)) = true.
Proof. repeat split; vm_compute; reflexivity. Qed.

(** C4, amended. In a successful publication the [.mod] and [.info] files
    are written in place: every prefix of their bytes, the empty one
    included, is seen at the final path. The archive is not: it is written
    to a temporary file [zip-N] of the same directory, which is seen holding
    the complete archive while the [.zip] path is still as before, and in
    every state the [.zip] path holds what it held before the run or the
    complete archive. *)
Theorem run_write_modes `{SliceSorter} E o srcDir version outRoot w paths w' :
  WithList.run E o srcDir version outRoot w = (inr paths, w') ->
  exists p t bytes tmpZip,
    plan E srcDir version outRoot = inr p /\
    time_Now o = Some t /\
    zip_CreateFromDir E (p_modPath p) version (p_absSrc p) = (bytes, true) /\
    is_zip_temp tmpZip /\
    (forall k, (k <= String.length (p_goMod p))%nat ->
       exists st, seen_between w w' st /\
         data_at st (p_atV p) (p_escVer p ++ ".mod") = Some (substring 0 k (p_goMod p))) /\
    (forall k, (k <= String.length (infoBytes version t))%nat ->
       exists st, seen_between w w' st /\
         data_at st (p_atV p) (p_escVer p ++ ".info")
           = Some (substring 0 k (infoBytes version t))) /\
    (exists st, seen_between w w' st /\
       file_at st (p_atV p) tmpZip = Some (mkFile bytes tempPerm) /\
       file_at st (p_atV p) (p_escVer p ++ ".zip")
         = file_at (w_fs w) (p_atV p) (p_escVer p ++ ".zip")) /\
    (forall st, seen_between w w' st ->
       file_at st (p_atV p) (p_escVer p ++ ".zip")
         = file_at (w_fs w) (p_atV p) (p_escVer p ++ ".zip") \/
       file_at st (p_atV p) (p_escVer p ++ ".zip") = Some (mkFile bytes tempPerm)) /\
    file_at (w_fs w') (p_atV p) (p_escVer p ++ ".zip") = Some (mkFile bytes tempPerm).
Proof.
  intros H0. apply run_list_facts in H0
    as (p & t & bytes & tmpZip & Hp & _ & Ht & Hzip & Hname & _ & _ & _ & Dzip & _ & Czip
        & Pmod & Pinfo & Ptmp).
  exists p, t, bytes, tmpZip. repeat split; auto.
  intros st Hs. exact (continues_seen _ _ _ _ Czip Hs).
Qed.

Lemma run_write_modes_witness :
  exists p t bytes tmpZip,
    plan exEnv "src" "v1.2.0" "out" = inr p /\
    time_Now quiet = Some t /\
    zip_CreateFromDir exEnv (p_modPath p) "v1.2.0" (p_absSrc p) = (bytes, true) /\
    is_zip_temp tmpZip /\
    (forall k, (k <= String.length (p_goMod p))%nat ->
       exists st, seen_between emptyWorld (snd exRun) st /\
         data_at st (p_atV p) (p_escVer p ++ ".mod") = Some (substring 0 k (p_goMod p))) /\
    (forall k, (k <= String.length (infoBytes "v1.2.0" t))%nat ->
       exists st, seen_between emptyWorld (snd exRun) st /\
         data_at st (p_atV p) (p_escVer p ++ ".info")
           = Some (substring 0 k (infoBytes "v1.2.0" t))) /\
    (exists st, seen_between emptyWorld (snd exRun) st /\
       file_at st (p_atV p) tmpZip = Some (mkFile bytes tempPerm) /\
       file_at st (p_atV p) (p_escVer p ++ ".zip")
         = file_at (w_fs emptyWorld) (p_atV p) (p_escVer p ++ ".zip")) /\
    (forall st, seen_between emptyWorld (snd exRun) st ->
       file_at st (p_atV p) (p_escVer p ++ ".zip")
         = file_at (w_fs emptyWorld) (p_atV p) (p_escVer p ++ ".zip") \/
       file_at st (p_atV p) (p_escVer p ++ ".zip") = Some (mkFile bytes tempPerm)) /\
    file_at (w_fs (snd exRun)) (p_atV p) (p_escVer p ++ ".zip") = Some (mkFile bytes tempPerm).
Proof.
  apply (run_write_modes (H := GoInsertionSort) exEnv quiet "src" "v1.2.0" "out" emptyWorld
           exPaths (snd exRun)).
  apply (pair_of_fst exRun). vm_compute. reflexivity.
Defined.

(** ** Running twice *)

Lemma count_merged l v :
  count_occ string_dec (merged l v) v = Nat.max 1 (count_occ string_dec l v).
Proof.
  unfold merged. destruct (decide (v ∈ l)) as [Hin|Hnin].
  - apply list_elem_of_In in Hin. apply (count_occ_In string_dec) in Hin. lia.
  - rewrite count_occ_app. simpl. destruct (string_dec v v); [|contradiction].
    assert (count_occ string_dec l v = 0%nat).
    { apply count_occ_not_In. intros Hin. apply Hnin, list_elem_of_In, Hin. }
    lia.
Qed.

Lemma count_sort_Slice `{SliceSorter} less l v :
  count_occ string_dec (sort_Slice less l) v = count_occ string_dec l v.
Proof. apply Permutation_count_occ. apply sort_Slice_perm. Qed.

(** The lines of the list after a successful update with a valid version:
    the version is a line, as often as before if it was one, once if not. *)
Lemma count_nextList `{SliceSorter} old v :
  semver.IsValid v = true ->
  count_occ string_dec (scanned (nextList old v)) v
    = Nat.max 1 (count_occ string_dec (kept old) v) /\
  count_occ string_dec (kept (Some (nextList old v))) v
    = Nat.max 1 (count_occ string_dec (kept old) v).
Proof.
  intros Hv. destruct (kept_nextList old v Hv) as [-> ->].
  rewrite count_sort_Slice, count_merged. auto.
Qed.

(** X2. Two successful runs of the first program, one after the other,
    with the same flags on the same source tree. The second run prints the
    same paths and leaves the same bytes in the [.mod] and [.zip] files; the
    [.info] files are the same function of the version and of the clock of
    each run; the second run adds no line to the list, and the version is
    the text of exactly one line after each run, provided that it was the
    text of at most one valid line of the list before the first run (as in
    a new tree or in a list this program alone has written). *)
Theorem run_twice `{SliceSorter} E o1 o2 srcDir version outRoot w0 paths1 w1 paths2 w2 :
  WithList.run E o1 srcDir version outRoot w0 = (inr paths1, w1) ->
  WithList.run E o2 srcDir version outRoot w1 = (inr paths2, w2) ->
  exists p t1 t2 bytes list1 list2,
    plan E srcDir version outRoot = inr p /\
    paths2 = paths1 /\
    time_Now o1 = Some t1 /\ time_Now o2 = Some t2 /\
    data_at (w_fs w1) (p_atV p) (p_escVer p ++ ".mod") = Some (p_goMod p) /\
    data_at (w_fs w2) (p_atV p) (p_escVer p ++ ".mod") = Some (p_goMod p) /\
    file_at (w_fs w1) (p_atV p) (p_escVer p ++ ".zip") = Some (mkFile bytes tempPerm) /\
    file_at (w_fs w2) (p_atV p) (p_escVer p ++ ".zip") = Some (mkFile bytes tempPerm) /\
    data_at (w_fs w1) (p_atV p) (p_escVer p ++ ".info") = Some (infoBytes version t1) /\
    data_at (w_fs w2) (p_atV p) (p_escVer p ++ ".info") = Some (infoBytes version t2) /\
    data_at (w_fs w1) (p_atV p) "list" = Some list1 /\
    data_at (w_fs w2) (p_atV p) "list" = Some list2 /\
    scanned list2 ≡ₚ scanned list1 /\
    ((count_occ string_dec (kept (data_at (w_fs w0) (p_atV p) "list")) version <= 1)%nat ->
     count_occ string_dec (scanned list1) version = 1%nat /\
     count_occ string_dec (scanned list2) version = 1%nat).
Proof.
  intros R1 R2.
  apply run_list_facts in R1
    as (p & t1 & bytes & tmp1 & Hp & Hv & Ht1 & Hzip & _ & Hpaths1 & Dmod1 & Dinfo1 & Dzip1
        & Dlist1 & _).
  apply run_list_facts in R2
    as (p' & t2 & bytes' & tmp2 & Hp' & _ & Ht2 & Hzip' & _ & Hpaths2 & Dmod2 & Dinfo2 & Dzip2
        & Dlist2 & _).
  rewrite Hp in Hp'. injection Hp' as <-.
  rewrite Hzip in Hzip'. injection Hzip' as <-.
  rewrite Dlist1 in Dlist2.
  set (old := data_at (w_fs w0) (p_atV p) "list") in *.
  destruct (kept_nextList old version Hv) as [K1 S1].
  destruct (kept_nextList (Some (nextList old version)) version Hv) as [K2 S2].
  destruct (count_nextList old version Hv) as [N1 N1'].
  destruct (count_nextList (Some (nextList old version)) version Hv) as [N2 _].
  exists p, t1, t2, bytes, (nextList old version),
    (nextList (Some (nextList old version)) version).
  repeat split; auto; try congruence.
  - rewrite S2, S1, K1. rewrite sort_Slice_perm.
    unfold merged. rewrite decide_True; [reflexivity|].
    rewrite sort_Slice_perm. unfold merged.
    destruct (decide (version ∈ kept old)) as [Hin|Hnin]; [exact Hin|].
    apply elem_of_app. right. apply list_elem_of_here.
  - rewrite N1. subst old. lia.
  - rewrite N2, N1'. subst old. lia.
Qed.

Lemma run_twice_witness :
  exists p t1 t2 bytes list1 list2,
    plan exEnv "src" "v1.2.0" "out" = inr p /\
    exPaths = exPaths /\
    time_Now quiet = Some t1 /\ time_Now quiet = Some t2 /\
    data_at (w_fs (snd exRun)) (p_atV p) (p_escVer p ++ ".mod") = Some (p_goMod p) /\
    data_at (w_fs (snd (WithList.run (H := GoInsertionSort) exEnv quiet "src" "v1.2.0" "out"
                          (snd exRun)))) (p_atV p) (p_escVer p ++ ".mod") = Some (p_goMod p) /\
    file_at (w_fs (snd exRun)) (p_atV p) (p_escVer p ++ ".zip") = Some (mkFile bytes tempPerm) /\
    file_at (w_fs (snd (WithList.run (H := GoInsertionSort) exEnv quiet "src" "v1.2.0" "out"
                          (snd exRun)))) (p_atV p) (p_escVer p ++ ".zip")
      = Some (mkFile bytes tempPerm) /\
    data_at (w_fs (snd exRun)) (p_atV p) (p_escVer p ++ ".info")
      = Some (infoBytes "v1.2.0" t1) /\
    data_at (w_fs (snd (WithList.run (H := GoInsertionSort) exEnv quiet "src" "v1.2.0" "out"
                          (snd exRun)))) (p_atV p) (p_escVer p ++ ".info")
      = Some (infoBytes "v1.2.0" t2) /\
    data_at (w_fs (snd exRun)) (p_atV p) "list" = Some list1 /\
    data_at (w_fs (snd (WithList.run (H := GoInsertionSort) exEnv quiet "src" "v1.2.0" "out"
                          (snd exRun)))) (p_atV p) "list" = Some list2 /\
    scanned list2 ≡ₚ scanned list1 /\
    ((count_occ string_dec (kept (data_at (w_fs emptyWorld) (p_atV p) "list")) "v1.2.0"
        <= 1)%nat ->
     count_occ string_dec (scanned list1) "v1.2.0" = 1%nat /\
     count_occ string_dec (scanned list2) "v1.2.0" = 1%nat).
Proof.
  assert (R1 : exRun = (inr exPaths, snd exRun)).
  { apply pair_of_fst. vm_compute. reflexivity. }
  assert (R2 : WithList.run (H := GoInsertionSort) exEnv quiet "src" "v1.2.0" "out" (snd exRun)
               = (inr exPaths,
                  snd (WithList.run (H := GoInsertionSort) exEnv quiet "src" "v1.2.0" "out"
                         (snd exRun)))).
  { apply pair_of_fst. vm_compute. reflexivity. }
  exact (run_twice (H := GoInsertionSort) exEnv quiet quiet "src" "v1.2.0" "out" emptyWorld
           exPaths (snd exRun) exPaths _ R1 R2).
Defined.

(** An output tree of the example module whose list holds [v1.2.0] twice. *)
Definition dupWorld : World :=
  mkWorld {[ exAtV := {[ "list" := mkFile (compose ["v1.2.0"; "v1.2.0"]) filePerm ]} ]} [].

Definition dupRun1 : (error + list (string * string)) * World :=
  WithList.run (H := GoInsertionSort) exEnv quiet "src" "v1.2.0" "out" dupWorld.

Definition dupRun2 : (error + list (string * string)) * World :=
  WithList.run (H := GoInsertionSort) exEnv quiet "src" "v1.2.0" "out" (snd dupRun1).

(** C7, at an output tree whose list holds the version on two lines: both
    runs succeed and leave the same [.mod] and [.zip] bytes, and the list
    holds the version twice, not once, after each of them. *)
Lemma run_twice_keeps_duplicate_lines :
  fst dupRun1 = inr exPaths /\ fst dupRun2 = inr exPaths /\
  data_at (w_fs (snd dupRun1)) exAtV "v1.2.0.mod"
    = data_at (w_fs (snd dupRun2)) exAtV "v1.2.0.mod" /\
  data_at (w_fs (snd dupRun1)) exAtV "v1.2.0.zip"
    = data_at (w_fs (snd dupRun2)) exAtV "v1.2.0.zip" /\
  data_at (w_fs (snd dupRun1)) exAtV "list" = Some (compose ["v1.2.0"; "v1.2.0"]) /\
  data_at (w_fs (snd dupRun2)) exAtV "list" = Some (compose ["v1.2.0"; "v1.2.0"]) /\
  count_occ string_dec (scanned (compose ["v1.2.0"; "v1.2.0"])) "v1.2.0" = 2%nat.
Proof. repeat split; vm_compute; reflexivity. Qed.

(** ** The list invariant, from a list without duplicates *)

Lemma elem_of_merged l v x : x ∈ merged l v <-> x ∈ l \/ x = v.
Proof.
  unfold merged. destruct (decide (v ∈ l)) as [Hin|Hnin].
  - split; [auto|]. intros [Hx| ->]; assumption.
  - rewrite elem_of_app, list_elem_of_singleton. tauto.
Qed.

Lemma nextLists_invariant `{SliceSorter} old v rest :
  NoDup (kept old) ->
  Forall (fun x => semver.IsValid x = true) (v :: rest) ->
  exists lines,
    nextLists old (v :: rest) = Some (compose lines) /\
    NoDup lines /\
    StronglySorted (fun a b => semver.Compare a b <= 0) lines /\
    Forall (fun x => semver.IsValid x = true) lines /\
    (forall x, x ∈ lines <-> x ∈ kept old \/ x ∈ v :: rest).
Proof.
  revert old v. induction rest as [|v' rest IH]; intros old v Hnd Hval.
  - exists (sort_Slice semver_less (merged (kept old) v)).
    apply Forall_cons in Hval as [Hv _].
    split; [reflexivity|]. split; [|split; [|split]].
    + rewrite sort_Slice_perm. apply merged_NoDup, Hnd.
    + apply sort_Slice_Compare.
    + rewrite sort_Slice_perm. apply merged_valid; [apply kept_valid|exact Hv].
    + intros x. rewrite sort_Slice_perm, elem_of_merged, list_elem_of_singleton. tauto.
  - apply Forall_cons in Hval as [Hv Hval].
    destruct (kept_nextList old v Hv) as [K _].
    destruct (IH (Some (nextList old v)) v') as (lines & E1 & Hn & Hs & Hva & Hin).
    + rewrite K, sort_Slice_perm. apply merged_NoDup, Hnd.
    + exact Hval.
    + exists lines. split; [exact E1|]. split; [exact Hn|]. split; [exact Hs|].
      split; [exact Hva|]. intros x. rewrite Hin, K, sort_Slice_perm, elem_of_merged.
      rewrite (elem_of_cons (v' :: rest) x v). tauto.
Qed.

(** X1. From no list file, or from a list file whose valid lines are pairwise
    different, and after at least one invocation, all invocations being
    successful and with valid versions: the list file holds, one per line,
    the valid lines it held and the versions given, each once, in an order
    that never decreases under [semver.Compare]. *)
Theorem list_invariant `{SliceSorter} atV calls w w' :
  NoDup (kept (data_at (w_fs w) atV "list")) ->
  Forall (fun c => semver.IsValid (snd c) = true) calls ->
  calls <> [] ->
  updateListFiles atV calls w = Some w' ->
  exists lines,
    data_at (w_fs w') atV "list" = Some (compose lines) /\
    NoDup lines /\
    StronglySorted (fun a b => semver.Compare a b <= 0) lines /\
    Forall (fun x => semver.IsValid x = true) lines /\
    (forall x, x ∈ lines <->
       x ∈ kept (data_at (w_fs w) atV "list") \/ x ∈ (snd <$> calls)).
Proof.
  intros Hnd Hval Hne Hrun. rewrite (updateListFiles_list _ _ _ _ Hrun).
  destruct calls as [|[o v] rest]; [contradiction|].
  rewrite fmap_cons. cbn [snd]. apply nextLists_invariant; [exact Hnd|].
  apply Forall_cons in Hval as [Hv Hval]. constructor; [exact Hv|].
  apply Forall_fmap. exact Hval.
Qed.

Lemma list_invariant_witness :
  exists w' lines,
    updateListFiles (H := GoInsertionSort) exDir
      [(quiet, "v1.10.0"); (quiet, "v1.9.0"); (quiet, "v1.10.0"); (quiet, "v1.9.0-rc.1")]
      (listWorld None) = Some w' /\
    data_at (w_fs w') exDir "list" = Some (compose lines) /\
    NoDup lines /\
    StronglySorted (fun a b => semver.Compare a b <= 0) lines /\
    Forall (fun x => semver.IsValid x = true) lines /\
    (forall x, x ∈ lines <->
       x ∈ kept (data_at (w_fs (listWorld None)) exDir "list") \/
       x ∈ ["v1.10.0"; "v1.9.0"; "v1.10.0"; "v1.9.0-rc.1"]).
Proof.
  destruct (succeeds_Some
              (updateListFiles (H := GoInsertionSort) exDir
                 [(quiet, "v1.10.0"); (quiet, "v1.9.0"); (quiet, "v1.10.0");
                  (quiet, "v1.9.0-rc.1")] (listWorld None))) as [w' Hrun].
  { vm_compute. reflexivity. }
  destruct (list_invariant (H := GoInsertionSort) exDir
              [(quiet, "v1.10.0"); (quiet, "v1.9.0"); (quiet, "v1.10.0"); (quiet, "v1.9.0-rc.1")]
              (listWorld None) w') as [lines Hl].
  - apply NoDup_nil_2.
  - repeat constructor.
  - discriminate.
  - exact Hrun.
  - exists w', lines. split; [exact Hrun|exact Hl].
Defined.

(** * Further properties of the list file *)

(** X4. [updateListFile] is all or nothing for the list. A successful call
    leaves the tree it found with the entry [list] holding the new content,
    with mode [filePerm]. A failed call, whatever failed (the open, the scan
    or any step of the atomic write), leaves the list as it found it, and the
    tree as it found it but for one temporary name [list.tmp-N] at most; the
    tree is the one it found when the removal of the temporary file does
    not fail. Every state the tree goes through on the way is the final one
    or differs from the tree found at one temporary name only. *)
Theorem updateListFile_all_or_nothing `{SliceSorter} o atV newVer w :
  let '(r, w') := updateListFile o atV newVer w in
  ((r = inr tt /\
    w_fs w' = put_file atV "list"
                (mkFile (nextList (data_at (w_fs w) atV "list") newVer) filePerm) (w_fs w)) \/
   (r <> inr tt /\
    file_at (w_fs w') atV "list" = file_at (w_fs w) atV "list" /\
    (exists tmp, is_temp_of "list" tmp /\ only_at atV tmp (w_fs w) (w_fs w')) /\
    (fails o TmpRemove = false -> w_fs w' = w_fs w))) /\
  forall s, seen_between w w' s ->
    s = w_fs w' \/ exists tmp, is_temp_of "list" tmp /\ only_at atV tmp (w_fs w) s.
Proof.
  destruct (updateListFile o atV newVer w) as [r w'] eqn:E.
  apply updateListFile_spec in E as (tmp & earlier & Htmp & HF & Hcase).
  rewrite Forall_forall in HF.
  destruct Hcase as [(-> & _ & ->)|(Hr & Ho & Hfs & Hh)].
  - split; [left; split; reflexivity|].
    intros s (new & Hnew & Hs). cbn [w_hist w_fs] in *.
    rewrite app_comm_cons in Hnew. apply app_inv_tail in Hnew. subst new.
    apply elem_of_cons in Hs as [->|Hs]; [left; reflexivity|].
    right. exists tmp. split; [exact Htmp|]. apply HF, Hs.
  - split.
    + right. split; [exact Hr|]. split; [|split; [eauto|exact Hfs]].
      eapply only_at_other; [|exact Ho]. apply is_temp_of_neq, Htmp.
    + intros s (new & Hnew & Hs). rewrite Hh in Hnew. apply app_inv_tail in Hnew. subst new.
      right. exists tmp. split; [exact Htmp|]. apply HF, Hs.
Qed.

(** ** Reading back what was written *)

(** A list file as an editor on Windows leaves it: every line ends in CR LF. *)
Definition composeCRLF (versions : list string) : string :=
  fold_right (fun v out => v ++ String cr nl ++ out) EmptyString versions.

Lemma dropCR_snoc x : dropCR (x ++ String cr EmptyString) = x.
Proof.
  induction x as [|c x IH]; [reflexivity|].
  rewrite string_app_cons. simpl. rewrite IH.
  destruct (x ++ String cr EmptyString) eqn:E; [|reflexivity].
  destruct x; discriminate E.
Qed.

Lemma string_app_snoc x c r : (x ++ String c EmptyString) ++ r = x ++ String c r.
Proof. induction x as [|d x IH]; [reflexivity|]. rewrite !string_app_cons, IH. reflexivity. Qed.

Lemma string_exists_snoc p x c :
  string_exists p (x ++ String c EmptyString) = (string_exists p x || p c)%bool.
Proof. rewrite string_exists_app. simpl. rewrite orb_false_r. reflexivity. Qed.

Lemma scanned_composeCRLF l :
  Forall (fun x => string_exists (fun c => (c =? "010")%char) x = false) l ->
  scanned (composeCRLF l) = l.
Proof.
  unfold scanned. induction 1 as [|x l Hx Hl IH]; [reflexivity|].
  cbn [composeCRLF fold_right]. fold (composeCRLF l).
  change (x ++ String cr nl ++ composeCRLF l) with (x ++ String cr (nl ++ composeCRLF l)).
  rewrite <- (string_app_snoc x cr).
  rewrite rawLines_line by (rewrite string_exists_snoc, Hx; reflexivity).
  rewrite fmap_cons, IH, string_app_nil_l, dropCR_snoc. reflexivity.
Qed.

(** The bytes after the last newline are a line when there are any. *)
Lemma rawLines_rest cur x :
  string_exists (fun c => (c =? "010")%char) x = false ->
  rawLines cur x = if (cur ++ x =? "")%string then [] else [cur ++ x].
Proof.
  revert cur. induction x as [|c x IH]; intros cur Hx.
  - simpl. rewrite string_app_nil_r. reflexivity.
  - simpl in Hx. apply orb_false_iff in Hx as [Hc Hx].
    cbn [rawLines]. rewrite Hc, (IH _ Hx), string_app_snoc. reflexivity.
Qed.

Lemma scanned_unterminated l x :
  Forall (fun x => string_forall plain_byte x = true) l ->
  string_forall plain_byte x = true -> x <> EmptyString ->
  scanned (compose l ++ x) = (l ++ [x])%list.
Proof.
  intros Hl Hx Hne. unfold scanned. induction Hl as [|y l Hy Hl IH].
  - cbn [compose fold_right]. rewrite string_app_nil_l.
    rewrite rawLines_rest by (apply (plain_no_byte "010" _ eq_refl Hx)).
    rewrite string_app_nil_l. destruct x as [|c x]; [contradiction|].
    cbn [String.eqb fmap list_fmap].
    rewrite dropCR_id by (apply (plain_no_byte cr _ eq_refl Hx)). reflexivity.
  - cbn [compose fold_right]. fold (compose l).
    rewrite !string_app_assoc.
    rewrite rawLines_line by (apply (plain_no_byte "010" _ eq_refl Hy)).
    rewrite fmap_cons, IH, string_app_nil_l.
    rewrite dropCR_id by (apply (plain_no_byte cr _ eq_refl Hy)). reflexivity.
Qed.

(** X6. What [updateListFile] writes, it reads back, as long as the lines
    fit the scanner's buffer. When the list file holds valid versions one per
    line, each line ended by a newline, or each by CR LF, or the last one
    without its newline, and no line as the scanner cuts it has
    [MaxScanTokenSize] bytes or more, the reading loop of [updateListFile]
    returns these versions, in their order, and leaves the world as it
    was. *)
Theorem list_round_trip o atV w data l :
  Forall (fun v => semver.IsValid v = true) l ->
  (data = compose l \/ data = composeCRLF l \/
   exists l' x, l = (l' ++ [x])%list /\ data = compose l' ++ x) ->
  data_at (w_fs w) atV "list" = Some data ->
  existsb (fun line => MaxScanTokenSize <=? len line) (rawLines EmptyString data) = false ->
  fails o ListOpen = false -> fails o ListScan = false ->
  readList o atV w = (inr l, w).
Proof.
  intros Hl Hshape Hdata Hfit HO HS.
  assert (Hk : kept (Some data) = l).
  { pose proof (valid_plain_all l Hl) as Pl.
    destruct Hshape as [->|[->|(l' & x & -> & ->)]].
    - apply kept_compose, Hl.
    - unfold kept. rewrite scanned_composeCRLF; [apply validLines_id, Hl|].
      eapply Forall_impl; [exact Pl|]. intros v Hv. apply (plain_no_byte "010" _ eq_refl Hv).
    - apply Forall_app in Hl as [Hl' Hx]. apply Forall_cons in Hx as [Hx _].
      apply Forall_app in Pl as [Pl' _].
      destruct (IsValid_plain x Hx) as (x1 & -> & Px).
      unfold kept. rewrite scanned_unterminated by (auto; discriminate).
      apply validLines_id. apply Forall_app. split; [exact Hl'|]. repeat constructor. exact Hx. }
  unfold readList, os_Open, Scanner_lines.
  unfold mbind, M_bind, bind, get_fs, ret, fail. rewrite HO. cbn.
  rewrite Hdata, HS, Hfit. rewrite <- Hk. reflexivity.
Qed.

Lemma list_round_trip_witness :
  readList quiet exDir
    (listWorld (Some (composeCRLF ["v1.0.0"; "v1.2.0-rc.1"])))
  = (inr ["v1.0.0"; "v1.2.0-rc.1"],
     listWorld (Some (composeCRLF ["v1.0.0"; "v1.2.0-rc.1"]))).
Proof.
  apply (list_round_trip quiet exDir
           (listWorld (Some (composeCRLF ["v1.0.0"; "v1.2.0-rc.1"])))
           (composeCRLF ["v1.0.0"; "v1.2.0-rc.1"]) ["v1.0.0"; "v1.2.0-rc.1"]).
  - repeat constructor.
  - right. left. reflexivity.
  - reflexivity.
  - reflexivity.
  - reflexivity.
  - reflexivity.
Defined.

(** ** The order handed to [sort.Slice] *)

(** X7. The comparison that [updateListFile] hands to [sort.Slice] is a
    strict weak order on all strings, the invalid ones included:
    irreflexive, asymmetric, transitive, and with a transitive
    incomparability; [semver.Compare] itself is antisymmetric in its sign.
    So the requirement of [sort.Slice] on its [less] is met whatever the
    list file held. *)
Theorem semver_less_is_strict_weak_order :
  (forall a, semver_less a a = false) /\
  (forall a b, semver_less a b = true -> semver_less b a = false) /\
  (forall a b c, semver_less a b = true -> semver_less b c = true -> semver_less a c = true) /\
  (forall a b c, semver_less a b = false -> semver_less b c = false -> semver_less a c = false) /\
  (forall a b, semver.Compare b a = - semver.Compare a b).
Proof.
  pose proof Compare_preorder as [Hr Ho Ht].
  assert (In3 : forall a b c : string, a ∈ [a; b; c] /\ b ∈ [a; b; c] /\ c ∈ [a; b; c]).
  { intros a b c. repeat split; repeat constructor. }
  split; [|split; [|split; [|split]]].
  - intros a. destruct (In3 a a a) as (Ha & _ & _).
    exact (sw_irrefl _ _ (semver_less_strict_weak [a; a; a]) a Ha).
  - intros a b. unfold semver_less. rewrite (Ho a b I I). intros H1.
    apply Z.ltb_lt in H1. apply Z.ltb_ge. lia.
  - intros a b c. destruct (In3 a b c) as (Ha & Hb & Hc).
    exact (sw_trans _ _ (semver_less_strict_weak [a; b; c]) a b c Ha Hb Hc).
  - intros a b c. destruct (In3 a b c) as (Ha & Hb & Hc).
    exact (sw_negtrans _ _ (semver_less_strict_weak [a; b; c]) a b c Ha Hb Hc).
  - intros a b. apply Ho; exact I.
Qed.

(** ** Escaped names *)

Lemma lower_byte_inj c c' :
  is_upper c = true -> is_upper c' = true -> lower_byte c = lower_byte c' -> c = c'.
Proof.
  intros Hc Hc' E.
  assert (G : forall x, is_upper x = true -> ascii_of_N (N_of_ascii (lower_byte x) - 32) = x).
  { intros x. destruct x as [[] [] [] [] [] [] [] []]; intros Hx; try discriminate Hx; reflexivity. }
  rewrite <- (G c Hc), <- (G c' Hc'), E. reflexivity.
Qed.

Lemma escaped_id s :
  string_exists is_upper s = false -> string_flat_map module.escapeByte s = s.
Proof.
  induction s as [|c s IH]; [reflexivity|]. simpl. intros Hs.
  apply orb_false_iff in Hs as [Hc Hs]. unfold module.escapeByte at 1.
  rewrite Hc, (IH Hs). reflexivity.
Qed.

Lemma escaped_inj s s' :
  string_exists (fun c => (c =? "!")%char) s = false ->
  string_exists (fun c => (c =? "!")%char) s' = false ->
  string_flat_map module.escapeByte s = string_flat_map module.escapeByte s' -> s = s'.
Proof.
  revert s'. induction s as [|c s IH]; intros [|c' s'] Hs Hs' E.
  - reflexivity.
  - exfalso. simpl in E. unfold module.escapeByte at 1 in E.
    destruct (is_upper c'); discriminate E.
  - exfalso. simpl in E. unfold module.escapeByte at 1 in E.
    destruct (is_upper c); discriminate E.
  - simpl in Hs, Hs'. apply orb_false_iff in Hs as [Hc Hs].
    apply orb_false_iff in Hs' as [Hc' Hs'].
    cbn [string_flat_map] in E. unfold module.escapeByte at 1 3 in E.
    destruct (is_upper c) eqn:Uc, (is_upper c') eqn:Uc'; rewrite !string_app_cons in E;
      cbn [append] in E.
    + injection E as E1 E2. rewrite (lower_byte_inj c c' Uc Uc' E1), (IH s' Hs Hs' E2).
      reflexivity.
    + injection E as E1 _. rewrite <- E1 in Hc'. discriminate Hc'.
    + injection E as E1 _. rewrite E1 in Hc. discriminate Hc.
    + injection E as E1 E2. rewrite E1, (IH s' Hs Hs' E2). reflexivity.
Qed.

Lemma escapeString_inj a b e :
  module.escapeString a = Some e -> module.escapeString b = Some e -> a = b.
Proof.
  intros Ha Hb.
  apply escapeString_spec in Ha as [Na Ea]. apply escapeString_spec in Hb as [Nb Eb].
  apply (escaped_inj a b Na Nb).
  destruct (string_exists is_upper a) eqn:Ua, (string_exists is_upper b) eqn:Ub.
  - congruence.
  - rewrite (escaped_id b Ub). congruence.
  - rewrite (escaped_id a Ua). congruence.
  - rewrite (escaped_id a Ua), (escaped_id b Ub). congruence.
Qed.

(** X8. Escaping loses nothing: two module paths that [module.EscapePath]
    maps to the same directory name are the same path, and two versions
    that [module.EscapeVersion] maps to the same file name are the same
    version, whatever the library's checks accept. Two modules, or two
    versions of one module, never share their files. *)
Theorem escaping_is_injective (CheckPath checkElem : string -> bool) :
  (forall a b e, module.EscapePath CheckPath a = Some e ->
                 module.EscapePath CheckPath b = Some e -> a = b) /\
  (forall a b e, module.EscapeVersion checkElem a = Some e ->
                 module.EscapeVersion checkElem b = Some e -> a = b).
Proof.
  split; intros a b e Ha Hb.
  - unfold module.EscapePath in Ha, Hb.
    destruct (CheckPath a); [|discriminate]. destruct (CheckPath b); [|discriminate].
    exact (escapeString_inj a b e Ha Hb).
  - unfold module.EscapeVersion in Ha, Hb.
    destruct (negb (checkElem a) || _)%bool; [discriminate|].
    destruct (negb (checkElem b) || _)%bool; [discriminate|].
    exact (escapeString_inj a b e Ha Hb).
Qed.

(** The bytes of an escaped version: lower-case letters, digits, ['-'],
    ['.'], ['+'] and ['!']. *)
Definition name_byte (c : ascii) : bool :=
  ((plain_byte c && negb (is_upper c)) || (c =? "!")%char)%bool.

Lemma name_byte_escaped s :
  string_forall plain_byte s = true ->
  string_forall name_byte (string_flat_map module.escapeByte s) = true.
Proof.
  induction s as [|c s IH]; [reflexivity|]. simpl. intros Hs.
  apply andb_true_iff in Hs as [Hc Hs]. rewrite string_forall_app, (IH Hs), andb_true_r.
  unfold module.escapeByte. destruct (is_upper c) eqn:Uc.
  - clear - Uc. destruct c as [[] [] [] [] [] [] [] []]; try discriminate Uc; reflexivity.
  - simpl. unfold name_byte. rewrite Hc, Uc. reflexivity.
Qed.

(** X9. The version cannot lead out of the directory. For a version that
    [run] accepts ([semver.IsValid]) and [module.EscapeVersion] escapes, the
    escaped version starts with ['v'] and holds lower-case letters, digits,
    ['-'], ['.'], ['+'] and ['!'] only: no path separator, so the [.mod],
    [.info] and [.zip] names are entries of the [@v] directory itself, and
    none of them is [list] or a temporary name. *)
Theorem escaped_version_is_a_file_name (checkElem : string -> bool) (version escVer : string) :
  semver.IsValid version = true ->
  module.EscapeVersion checkElem version = Some escVer ->
  (exists rest, escVer = String "v" rest) /\
  string_forall name_byte escVer = true /\
  string_exists (fun c => (c =? "/")%char || (c =? "\")%char || (c =? "000")%char)%bool escVer
    = false /\
  forall suffix name,
    name = "list" \/ is_temp_of "list" name \/ is_zip_temp name -> escVer ++ suffix <> name.
Proof.
  intros Hv He. destruct (IsValid_plain version Hv) as (v1 & -> & Hp).
  unfold module.EscapeVersion in He.
  destruct (negb _ || _)%bool; [discriminate|].
  apply escapeString_spec in He as [_ He].
  assert (Hname : string_forall name_byte escVer = true).
  { destruct (string_exists is_upper (String "v" v1)) eqn:U.
    - rewrite He. apply name_byte_escaped, Hp.
    - rewrite He. clear He. revert U Hp. generalize (String "v" v1). intros s.
      induction s as [|c s IH]; [reflexivity|]. simpl. intros U Hp.
      apply orb_false_iff in U as [Uc U]. apply andb_true_iff in Hp as [Hc Hp].
      rewrite (IH U Hp), andb_true_r. unfold name_byte. rewrite Hc, Uc. reflexivity. }
  assert (Hhead : exists rest, escVer = String "v" rest).
  { destruct (string_exists is_upper (String "v" v1)); rewrite He; [|eauto].
    cbn [string_flat_map]. unfold module.escapeByte at 1. cbn. eauto. }
  split; [exact Hhead|]. split; [exact Hname|]. split.
  - clear - Hname. induction escVer as [|c s IH]; [reflexivity|]. simpl in *.
    apply andb_true_iff in Hname as [Hc Hs]. rewrite (IH Hs), orb_false_r.
    clear - Hc. destruct c as [[] [] [] [] [] [] [] []]; try discriminate Hc; reflexivity.
  - destruct Hhead as [rest ->]. intros suffix name [->|[[n ->]|[n ->]]];
      rewrite !string_app_cons; discriminate.
Qed.

Lemma escaped_version_is_a_file_name_witness :
  (exists rest, "v1.2.0-!r!c.1" = String "v" rest) /\
  string_forall name_byte "v1.2.0-!r!c.1" = true /\
  string_exists (fun c => (c =? "/")%char || (c =? "\")%char || (c =? "000")%char)%bool
    "v1.2.0-!r!c.1" = false /\
  forall suffix name,
    name = "list" \/ is_temp_of "list" name \/ is_zip_temp name ->
    "v1.2.0-!r!c.1" ++ suffix <> name.
Proof.
  exact (escaped_version_is_a_file_name (fun _ => true) "v1.2.0-RC.1" "v1.2.0-!r!c.1"
           eq_refl eq_refl).
Defined.

(** ** The list as a function of the set of versions *)

(** X10. The list depends on which versions were published, not on the
    order or the number of their publications: from the same list file
    without duplicate lines, two non-empty sequences of successful
    [updateListFile] calls with the same set of valid versions leave the same
    bytes in the list, for every sorter within the contract of [sort.Slice],
    provided no two different versions at hand compare equal (as versions
    that differ in build metadata only would). *)
Theorem list_is_order_independent `{SliceSorter} atV calls1 calls2 w w1 w2 :
  NoDup (kept (data_at (w_fs w) atV "list")) ->
  Forall (fun c => semver.IsValid (snd c) = true) calls1 ->
  Forall (fun c => semver.IsValid (snd c) = true) calls2 ->
  calls1 <> [] -> calls2 <> [] ->
  (forall v, v ∈ (snd <$> calls1) <-> v ∈ (snd <$> calls2)) ->
  distinct_keys (kept (data_at (w_fs w) atV "list") ++ (snd <$> calls1)) = true ->
  updateListFiles atV calls1 w = Some w1 ->
  updateListFiles atV calls2 w = Some w2 ->
  data_at (w_fs w1) atV "list" = data_at (w_fs w2) atV "list".
Proof.
  intros Hnd V1 V2 N1 N2 Hsame Hkeys R1 R2.
  rewrite (updateListFiles_list _ _ _ _ R1), (updateListFiles_list _ _ _ _ R2).
  set (old := data_at (w_fs w) atV "list") in *.
  destruct calls1 as [|[o1 v1] rest1]; [contradiction|].
  destruct calls2 as [|[o2 v2] rest2]; [contradiction|].
  rewrite !fmap_cons in *. cbn [snd] in *.
  destruct (nextLists_invariant old v1 (snd <$> rest1) Hnd) as (l1 & -> & D1 & S1 & _ & M1).
  { apply Forall_cons in V1 as [Hv V1]. constructor; [exact Hv|]. apply Forall_fmap. exact V1. }
  destruct (nextLists_invariant old v2 (snd <$> rest2) Hnd) as (l2 & -> & D2 & S2 & _ & M2).
  { apply Forall_cons in V2 as [Hv V2]. constructor; [exact Hv|]. apply Forall_fmap. exact V2. }
  f_equal. f_equal.
  pose proof Compare_preorder as [_ Ho _].
  apply (StronglySorted_unique_strong (fun a b => semver.Compare a b <= 0)); auto.
  - intros x y Hx Hy Hxy Hyx.
    apply (distinct_keys_spec _ x y Hkeys).
    + apply elem_of_app. apply M1 in Hx. exact Hx.
    + apply elem_of_app. apply M2 in Hy. destruct Hy as [Hy|Hy]; [auto|].
      right. apply Hsame. exact Hy.
    + rewrite (Ho x y I I) in Hyx. lia.
  - apply NoDup_Permutation; auto. intros x. rewrite M1, M2, (Hsame x). reflexivity.
Qed.

Lemma list_is_order_independent_witness :
  exists w1 w2,
    updateListFiles (H := GoInsertionSort) exDir
      [(quiet, "v1.10.0"); (quiet, "v1.9.0"); (quiet, "v2.0.0-rc.1")]
      (listWorld (Some (compose ["v1.0.0"]))) = Some w1 /\
    updateListFiles (H := GoInsertionSort) exDir
      [(quiet, "v2.0.0-rc.1"); (quiet, "v1.10.0"); (quiet, "v1.9.0"); (quiet, "v1.10.0")]
      (listWorld (Some (compose ["v1.0.0"]))) = Some w2 /\
    data_at (w_fs w1) exDir "list" = data_at (w_fs w2) exDir "list".
Proof.
  destruct (succeeds_Some
              (updateListFiles (H := GoInsertionSort) exDir
                 [(quiet, "v1.10.0"); (quiet, "v1.9.0"); (quiet, "v2.0.0-rc.1")]
                 (listWorld (Some (compose ["v1.0.0"]))))) as [w1 R1].
  { vm_compute. reflexivity. }
  destruct (succeeds_Some
              (updateListFiles (H := GoInsertionSort) exDir
                 [(quiet, "v2.0.0-rc.1"); (quiet, "v1.10.0"); (quiet, "v1.9.0");
                  (quiet, "v1.10.0")]
                 (listWorld (Some (compose ["v1.0.0"]))))) as [w2 R2].
  { vm_compute. reflexivity. }
  exists w1, w2. split; [exact R1|]. split; [exact R2|].
  apply (list_is_order_independent (H := GoInsertionSort) exDir
           [(quiet, "v1.10.0"); (quiet, "v1.9.0"); (quiet, "v2.0.0-rc.1")]
           [(quiet, "v2.0.0-rc.1"); (quiet, "v1.10.0"); (quiet, "v1.9.0"); (quiet, "v1.10.0")]
           (listWorld (Some (compose ["v1.0.0"]))) w1 w2).
  - vm_compute. repeat constructor. intros Hin. inversion Hin.
  - repeat constructor.
  - repeat constructor.
  - discriminate.
  - discriminate.
  - intros v. cbn [fmap list_fmap snd]. rewrite !elem_of_cons, !elem_of_nil. tauto.
  - vm_compute. reflexivity.
  - exact R1.
  - exact R2.
Defined.

(** * Further properties of [run] *)

(** The three files of the version. *)
Definition version_files (p : Plan) (b : string) : Prop :=
  b = p_escVer p ++ ".mod" \/ b = p_escVer p ++ ".info" \/ b = p_escVer p ++ ".zip".

Lemma differs_in_cur dir N w w' :
  continues (differs_in dir N) w w' -> differs_in dir N (w_fs w) (w_fs w').
Proof. apply continues_cur. intros fs. apply differs_in_refl. Qed.

Lemma continues_differs_trans dir N w1 w2 w3 :
  continues (differs_in dir N) w1 w2 -> continues (differs_in dir N) w2 w3 ->
  continues (differs_in dir N) w1 w3.
Proof.
  apply continues_trans; [intros fs; apply differs_in_refl|].
  intros a b c. apply differs_in_trans.
Qed.

Lemma continues_only_at_differs dir (N : string -> Prop) base w w' :
  N base -> continues (only_at dir base) w w' -> continues (differs_in dir N) w w'.
Proof.
  intros HN. apply continues_mono. intros s Hs.
  eapply differs_in_mono; [|apply only_at_differs; exact Hs]. intros b <-. exact HN.
Qed.

Lemma continues_differs_mono dir (N N' : string -> Prop) w w' :
  (forall b, N b -> N' b) -> continues (differs_in dir N) w w' ->
  continues (differs_in dir N') w w'.
Proof. intros HN. apply continues_mono. intros s. apply differs_in_mono, HN. Qed.

Section PublishFrame.

Context (E : Env) (o : Oracle) (version : string) (p : Plan).
Context (escTail : string) (Hesc : p_escVer p = String "v" escTail).

(** The second program's [publish], whatever it returns: every state it
    goes through differs from the tree it found at the three files of the
    version and at temporary names of the archive only, and the tree it
    leaves at the three files only, and at a temporary name of the archive
    when its removal fails. *)
Lemma publish_plain_frame w r w' :
  publish (plainTail p) E o version p w = (r, w') ->
  continues (differs_in (p_atV p) (fun b => version_files p b \/ is_zip_temp b)) w w' /\
  differs_in (p_atV p)
    (fun b => version_files p b \/ (fails o ZipRemove = true /\ is_zip_temp b))
    (w_fs w) (w_fs w').
Proof.
  set (Rv := differs_in (p_atV p) (version_files p)).
  assert (early : forall w', continues Rv w w' ->
            continues (differs_in (p_atV p) (fun b => version_files p b \/ is_zip_temp b)) w w' /\
            differs_in (p_atV p)
              (fun b => version_files p b \/ (fails o ZipRemove = true /\ is_zip_temp b))
              (w_fs w) (w_fs w')).
  { intros w0 C. split.
    - eapply continues_differs_mono; [|exact C]. auto.
    - eapply differs_in_mono; [|apply differs_in_cur, C]. auto. }
  unfold publish. intros H0.
  (* MkdirAll *)
  apply bind_inv in H0 as [(e & H1 & ->)|([] & w1 & H1 & H0)];
    apply os_MkdirAll_spec in H1 as (C1 & _).
  { apply early. eapply continues_differs_mono; [|exact C1]. contradiction. }
  assert (K1 : continues Rv w w1).
  { eapply continues_differs_mono; [|exact C1]. contradiction. }
  clear C1.
  (* .mod *)
  apply bind_inv in H0 as [(e & H2 & ->)|([] & w2 & H2 & H0)];
    apply os_WriteFile_spec in H2 as (C2 & _);
    apply (continues_only_at_differs _ (version_files p)) in C2; try (left; reflexivity);
    pose proof (continues_differs_trans _ _ _ _ _ K1 C2) as K2.
  { apply early, K2. }
  clear K1 C2.
  (* .info *)
  apply bind_inv in H0 as [(e & Hib & ->)|(ib & w2' & Hib & H0)].
  { unfold lift in Hib. destruct (json_Marshal _); [discriminate|]. injection Hib as _ <-.
    apply early, K2. }
  unfold lift in Hib. destruct (json_Marshal _) as [ib'|]; [|discriminate].
  injection Hib as <- <-.
  apply bind_inv in H0 as [(e & H3 & ->)|([] & w3 & H3 & H0)];
    apply os_WriteFile_spec in H3 as (C3 & _);
    apply (continues_only_at_differs _ (version_files p)) in C3;
    try (right; left; reflexivity);
    pose proof (continues_differs_trans _ _ _ _ _ K2 C3) as K3.
  { apply early, K3. }
  clear K2 C3.
  (* the temporary file *)
  apply bind_inv in H0 as [(e & H4 & ->)|(tmpZip & w4 & H4 & H0)].
  { apply os_CreateTemp_spec in H4 as (_ & Hw & _). rewrite (Hw e eq_refl). apply early, K3. }
  pose proof (zip_temp_name _ _ _ _ _ _ H4) as [Hname Htmp].
  apply os_CreateTemp_spec in H4 as (Hok & _ & _).
  destruct (Hok tmpZip eq_refl) as (_ & Hdir3 & Hfree & _ & Hw4). clear Hok.
  set (Rt := differs_in (p_atV p) (fun b => b = p_escVer p ++ ".zip" \/ b = tmpZip)).
  assert (C4 : continues Rt w3 w4).
  { rewrite Hw4. apply continues_one.
    eapply differs_in_mono; [|apply differs_in_put_file]. intros b <-. auto. }
  (* the archive and the deferred calls *)
  unfold defer in H0.
  destruct ((zipSteps E o version p tmpZip;; plainTail p) w4) as [r6 w6] eqn:Hb.
  rewrite discard_Close in H0. cbn [snd] in H0. injection H0 as -> <-.
  assert (C6 : continues Rt w4 w6).
  { assert (Z : forall rz wz, zipSteps E o version p tmpZip w4 = (rz, wz) -> continues Rt w4 wz).
    { intros rz wz Hz. apply (zipSteps_spec E o version p tmpZip w4) in Hz; [|exact Htmp].
      destruct Hz as (w3' & C5 & Hcase).
      apply (continues_only_at_differs _ (fun b => b = p_escVer p ++ ".zip" \/ b = tmpZip))
        in C5; [|auto].
      destruct Hcase as [(_ & bytes & _ & _ & ->)|(_ & ->)]; [|exact C5].
      eapply continues_differs_trans; [exact C5|].
      apply continues_one. eapply differs_in_trans.
      - eapply differs_in_mono; [|apply differs_in_del_file]. intros b <-. auto.
      - eapply differs_in_mono; [|apply differs_in_put_file]. intros b <-. auto. }
    apply bind_inv in Hb as [(e & H5 & _)|([] & w5 & H5 & H6)].
    - apply (Z _ _ H5).
    - unfold plainTail, ret in H6. injection H6 as _ <-. apply (Z _ _ H5). }
  unfold discard.
  destruct (os_Remove o ZipRemove (p_atV p) tmpZip w6) as [rr wr] eqn:HR. cbn [snd].
  apply os_Remove_continues in HR as [C7 Hgone].
  apply (continues_only_at_differs _ (fun b => b = p_escVer p ++ ".zip" \/ b = tmpZip)) in C7;
    [|auto].
  pose proof (continues_differs_trans _ _ _ _ _ C4
                (continues_differs_trans _ _ _ _ _ C6 C7)) as Ct.
  assert (Call : continues (differs_in (p_atV p) (fun b => version_files p b \/ is_zip_temp b))
                   w wr).
  { eapply continues_differs_trans.
    + eapply continues_differs_mono; [|exact K3]. auto.
    + eapply continues_differs_mono; [|exact Ct].
      intros b [->| ->]; [left; right; right; reflexivity|right; exact Hname]. }
  split; [exact Call|].
  destruct (fails o ZipRemove) eqn:Hrm.
  { eapply differs_in_mono; [|apply differs_in_cur, Call]. intros b [Hvf|Hzt]; auto. }
  specialize (Hgone eq_refl).
  apply differs_in_cur in K3. apply differs_in_cur in Ct.
  destruct K3 as [D3 F3], Ct as [Dt Ft]. split; [auto|].
  intros d b Hdb.
  assert (Hdb' : ~ (d = p_atV p /\ version_files p b)) by (intros [? ?]; apply Hdb; auto).
  destruct (decide (d = p_atV p /\ b = tmpZip)) as [[-> ->]|Hn].
  - rewrite Hgone, <- Hfree. apply F3. exact Hdb'.
  - rewrite Ft, F3; [reflexivity|exact Hdb'|].
    intros [-> [->| ->]]; [|apply Hn; auto]. apply Hdb'. split; [reflexivity|].
    right. right. reflexivity.
Qed.

End PublishFrame.

(** The first program's [run] is the second one's, then the list update. *)
Lemma WithList_run_inv `{SliceSorter} E o srcDir version outRoot p w r w' :
  plan E srcDir version outRoot = inr p ->
  WithList.run E o srcDir version outRoot w = (r, w') ->
  exists r1 w1,
    WithoutList.run E o srcDir version outRoot w = (r1, w1) /\
    ((exists e, r1 = inl e /\ r = inl e /\ w' = w1) \/
     (r1 = inr (threePaths p) /\
      exists ru, updateListFile o (p_atV p) version w1 = (ru, w') /\
        r = match ru with
            | inl e => inl (Wrap "update list" e)
            | inr _ => inr (threePaths p ++ [(p_atV p, "list")])%list
            end)).
Proof.
  intros Hp. rewrite WithList_run_plan, WithoutList_run_plan, Hp.
  destruct (plan_escVer _ _ _ _ _ Hp) as [_ [escTail Hesc]].
  rewrite (publish_tails E o version p escTail w Hesc).
  destruct (publish (plainTail p) E o version p w) as [[e|paths] w1] eqn:H1; cbn [thenList].
  - intros [= <- <-]. exists (inl e), w1. split; [reflexivity|]. left. eauto.
  - assert (Hpaths : paths = threePaths p).
    { apply publish_inr in H1 as (t & x1 & x2 & x3 & tmpZip & x4 & x5 & x6 & _ & _ & _ & _ & _
                                  & _ & Htail & _).
      unfold plainTail, ret in Htail. congruence. }
    subst paths. cbn [threePaths hd fst].
    destruct (updateListFile o (p_atV p) version w1) as [[e|[]] w2] eqn:H2;
      intros [= <- <-]; exists (inr (threePaths p)), w1; (split; [reflexivity|]); right;
      (split; [reflexivity|]).
    + exists (inl e). split; [exact H2|reflexivity].
    + exists (inr tt). split; [exact H2|reflexivity].
Qed.

(** X11. [run] changes nothing but its own files. When a flag is missing,
    the version is invalid, [go.mod] cannot be read or parsed or names no
    module, or an escape fails, both programs return the error and leave the
    world as it was. Otherwise, whatever [run] returns, the tree it leaves
    has every directory it had, and differs from the tree it found at most in
    the [@v] directory of the module, at the [.mod], [.info] and [.zip]
    files of the version and, for the first program, at [list]; and at a
    temporary name, [zip-N] or [list.tmp-N], only under an oracle that makes
    the removal of that temporary file fail, since [run] drops the error
    of [os.Remove]. No other file is created, changed or removed, and the
    second program leaves [list] alone. *)
Theorem run_changes_only_its_files `{SliceSorter} E o srcDir version outRoot w :
  match plan E srcDir version outRoot with
  | inl e =>
      WithList.run E o srcDir version outRoot w = (inl e, w) /\
      WithoutList.run E o srcDir version outRoot w = (inl e, w)
  | inr p =>
      differs_in (p_atV p)
        (fun b => version_files p b \/ b = "list" \/
                  (fails o ZipRemove = true /\ is_zip_temp b) \/
                  (fails o TmpRemove = true /\ is_temp_of "list" b))
        (w_fs w) (w_fs (snd (WithList.run E o srcDir version outRoot w))) /\
      differs_in (p_atV p)
        (fun b => version_files p b \/ (fails o ZipRemove = true /\ is_zip_temp b))
        (w_fs w) (w_fs (snd (WithoutList.run E o srcDir version outRoot w)))
  end.
Proof.
  destruct (plan E srcDir version outRoot) as [e|p] eqn:Hp.
  { rewrite WithList_run_plan, WithoutList_run_plan, Hp. split; reflexivity. }
  destruct (WithList.run E o srcDir version outRoot w) as [r w'] eqn:HR.
  destruct (WithList_run_inv E o srcDir version outRoot p w r w' Hp HR)
    as (r1 & w1 & H1 & Hcase).
  rewrite H1. cbn [snd].
  rewrite WithoutList_run_plan, Hp in H1.
  apply publish_plain_frame in H1 as [_ F].
  split; [|exact F].
  set (N := fun b => version_files p b \/ b = "list" \/
                     (fails o ZipRemove = true /\ is_zip_temp b) \/
                     (fails o TmpRemove = true /\ is_temp_of "list" b)).
  assert (F' : differs_in (p_atV p) N (w_fs w) (w_fs w1)).
  { eapply differs_in_mono; [|exact F]. unfold N. intros b [Hb|Hb]; auto. }
  destruct Hcase as [(e & _ & _ & ->)|(_ & ru & H2 & _)]; [exact F'|].
  eapply differs_in_trans; [exact F'|].
  apply updateListFile_spec in H2
    as (tmp & earlier & Htmp & _ & [(_ & _ & ->)|(_ & Ho & Hfs & _)]).
  - eapply differs_in_mono; [|apply differs_in_put_file]. unfold N. intros b <-. auto.
  - destruct (fails o TmpRemove) eqn:Hrm.
    + eapply differs_in_mono; [|apply only_at_differs, Ho]. unfold N. intros b <-.
      right. right. right. split; [first [reflexivity|exact Hrm]|exact Htmp].
    + rewrite (Hfs eq_refl). apply differs_in_refl.
Qed.

(** What a successful [run] of the second program leaves. *)
Lemma plain_publish_facts E o version p escTail w paths w1 :
  p_escVer p = String "v" escTail ->
  publish (plainTail p) E o version p w = (inr paths, w1) ->
  exists t bytes,
    time_Now o = Some t /\
    zip_CreateFromDir E (p_modPath p) version (p_absSrc p) = (bytes, true) /\
    is_Some (w_fs w1 !! p_atV p) /\
    data_at (w_fs w1) (p_atV p) (p_escVer p ++ ".mod") = Some (p_goMod p) /\
    data_at (w_fs w1) (p_atV p) (p_escVer p ++ ".info") = Some (infoBytes version t) /\
    file_at (w_fs w1) (p_atV p) (p_escVer p ++ ".zip") = Some (mkFile bytes tempPerm) /\
    file_at (w_fs w1) (p_atV p) "list" = file_at (w_fs w) (p_atV p) "list".
Proof.
  intros Hesc H0.
  apply publish_inr in H0
    as (t & x1 & x2 & x3 & tmpZip & x4 & x5 & x6 & Ht & H1 & H2 & H3 & H4 & H5 & H6 & ->).
  destruct (publish_steps E o version p escTail Hesc t tmpZip w x1 x2 x3 x4 x5 H1 H2 H3 H4 H5)
    as (bytes & Hzip & Hname & Hdir & Dmod & Dinfo & Dzip & Dtmp & Dlist & _).
  unfold plainTail, ret in H6. injection H6 as _ <-.
  rewrite (discard_Remove_absent _ _ _ _ _ Dtmp).
  exists t, bytes. repeat split; auto.
Qed.

Lemma seen_between_split R w w1 w2 new2 st :
  continues R w w1 -> w_hist w2 = (new2 ++ w_hist w1)%list ->
  seen_between w w2 st -> seen_between w w1 st \/ st ∈ new2.
Proof.
  intros (new1 & E1 & _) E2 (new & E & Hin).
  rewrite E2, E1, app_assoc in E. apply app_inv_tail in E. subst new.
  apply elem_of_app in Hin as [Hin|Hin]; [auto|]. left. exists new1. auto.
Qed.

(** X12. The list changes last. In every state the tree goes through
    during a [run] of the first program, whatever it returns, the [list]
    file is the one found before the run, except in the final state of a
    successful run; and in that state the [.mod], [.info] and [.zip] files of
    the version are complete. A reader that finds the version in a list
    that did not hold it before finds its three files whole. *)
Theorem list_changes_last `{SliceSorter} E o srcDir version outRoot p w r w' st :
  plan E srcDir version outRoot = inr p ->
  WithList.run E o srcDir version outRoot w = (r, w') ->
  seen_between w w' st ->
  file_at st (p_atV p) "list" = file_at (w_fs w) (p_atV p) "list" \/
  (exists t bytes,
     time_Now o = Some t /\
     zip_CreateFromDir E (p_modPath p) version (p_absSrc p) = (bytes, true) /\
     r = inr (threePaths p ++ [(p_atV p, "list")])%list /\
     st = w_fs w' /\
     data_at st (p_atV p) (p_escVer p ++ ".mod") = Some (p_goMod p) /\
     data_at st (p_atV p) (p_escVer p ++ ".info") = Some (infoBytes version t) /\
     data_at st (p_atV p) (p_escVer p ++ ".zip") = Some bytes /\
     data_at st (p_atV p) "list"
       = Some (nextList (data_at (w_fs w) (p_atV p) "list") version)).
Proof.
  intros Hp HR Hseen.
  destruct (plan_escVer _ _ _ _ _ Hp) as [_ [escTail Hesc]].
  destruct (WithList_run_inv E o srcDir version outRoot p w r w' Hp HR)
    as (r1 & w1 & H1 & Hcase).
  rewrite WithoutList_run_plan, Hp in H1.
  pose proof (publish_plain_frame _ _ _ _ _ _ _ H1) as [C _].
  assert (Hold : forall s, seen_between w w1 s ->
            file_at s (p_atV p) "list" = file_at (w_fs w) (p_atV p) "list").
  { intros s Hs. destruct (continues_seen _ _ _ _ C Hs) as [_ F]. apply F.
    intros [_ [[E0|[E0|E0]]|E0]].
    - symmetry in E0. exact (names_v_list p escTail Hesc _ E0).
    - symmetry in E0. exact (names_v_list p escTail Hesc _ E0).
    - symmetry in E0. exact (names_v_list p escTail Hesc _ E0).
    - exact (names_ziptmp_list _ E0 eq_refl). }
  destruct Hcase as [(e & _ & _ & ->)|(-> & ru & H2 & Hr)]; [left; auto|].
  destruct (plain_publish_facts _ _ _ _ _ _ _ _ Hesc H1)
    as (t & bytes & Ht & Hzip & Hdir & Dmod & Dinfo & Dzip & Dlist).
  apply updateListFile_spec in H2 as (tmp & earlier & Htmp & HF & Hcase).
  rewrite Forall_forall in HF.
  assert (Hearlier : forall s, s ∈ earlier ->
            file_at s (p_atV p) "list" = file_at (w_fs w) (p_atV p) "list").
  { intros s Hs. rewrite <- Dlist. eapply only_at_other; [|apply HF, Hs].
    apply is_temp_of_neq, Htmp. }
  destruct Hcase as [(-> & _ & Hw')|(_ & _ & _ & Hh)].
  - assert (Hh : w_hist w' = ((w_fs w' :: earlier) ++ w_hist w1)%list) by (rewrite Hw'; reflexivity).
    destruct (seen_between_split _ _ _ _ _ _ C Hh Hseen) as [Hs|Hs]; [left; auto|].
    apply elem_of_cons in Hs as [->|Hs]; [|left; auto].
    right. exists t, bytes. split; [exact Ht|]. split; [exact Hzip|].
    split; [exact Hr|]. split; [reflexivity|].
    rewrite Hw'. cbn [w_fs]. unfold data_at in *.
    rewrite !file_at_put_file by exact Hdir.
    rewrite !decide_False, decide_True by
      (try (split; reflexivity); intros [_ E0]; exact (names_v_list p escTail Hesc _ E0)).
    rewrite Dzip, Dlist. auto.
  - destruct (seen_between_split _ _ _ _ _ _ C Hh Hseen) as [Hs|Hs]; left; auto.
Qed.

(** The final state of a successful run is one of the states seen. *)
Lemma run_final_seen `{SliceSorter} E o srcDir version outRoot w paths w' :
  WithList.run E o srcDir version outRoot w = (inr paths, w') ->
  seen_between w w' (w_fs w').
Proof.
  intros HR.
  destruct (plan E srcDir version outRoot) as [e|p] eqn:Hp.
  { rewrite WithList_run_plan, Hp in HR. discriminate HR. }
  destruct (WithList_run_inv E o srcDir version outRoot p w _ w' Hp HR)
    as (r1 & w1 & H1 & [(e & _ & He & _)|(_ & ru & H2 & Hr)]); [discriminate He|].
  destruct ru as [e|[]]; [discriminate Hr|].
  rewrite WithoutList_run_plan, Hp in H1.
  apply publish_plain_frame in H1 as [(new1 & E1 & _) _].
  apply updateListFile_spec in H2 as (tmp & earlier & _ & _ & [(_ & _ & ->)|(Hne & _)]);
    [|contradiction].
  cbn [w_fs w_hist]. eexists (_ :: earlier ++ new1)%list. split.
  - rewrite E1, app_comm_cons, app_assoc. reflexivity.
  - apply list_elem_of_here.
Qed.

(** The plan of the example publication. *)
Definition exPlan : Plan :=
  mkPlan "/work/src" ("module example.com/M" ++ nl) "example.com/M" "v1.2.0" exAtV.

Lemma list_changes_last_witness :
  file_at (w_fs (snd exRun)) (p_atV exPlan) "list"
    = file_at (w_fs emptyWorld) (p_atV exPlan) "list" \/
  (exists t bytes,
     time_Now quiet = Some t /\
     zip_CreateFromDir exEnv (p_modPath exPlan) "v1.2.0" (p_absSrc exPlan) = (bytes, true) /\
     fst exRun = inr (threePaths exPlan ++ [(p_atV exPlan, "list")])%list /\
     w_fs (snd exRun) = w_fs (snd exRun) /\
     data_at (w_fs (snd exRun)) (p_atV exPlan) (p_escVer exPlan ++ ".mod")
       = Some (p_goMod exPlan) /\
     data_at (w_fs (snd exRun)) (p_atV exPlan) (p_escVer exPlan ++ ".info")
       = Some (infoBytes "v1.2.0" t) /\
     data_at (w_fs (snd exRun)) (p_atV exPlan) (p_escVer exPlan ++ ".zip") = Some bytes /\
     data_at (w_fs (snd exRun)) (p_atV exPlan) "list"
       = Some (nextList (H := GoInsertionSort)
                 (data_at (w_fs emptyWorld) (p_atV exPlan) "list") "v1.2.0")).
Proof.
  assert (R1 : exRun = (inr exPaths, snd exRun)).
  { apply pair_of_fst. vm_compute. reflexivity. }
  apply (list_changes_last (H := GoInsertionSort) exEnv quiet "src" "v1.2.0" "out" exPlan
           emptyWorld (fst exRun) (snd exRun) (w_fs (snd exRun))).
  - vm_compute. reflexivity.
  - apply surjective_pairing.
  - exact (run_final_seen (H := GoInsertionSort) exEnv quiet "src" "v1.2.0" "out" emptyWorld
             exPaths (snd exRun) R1).
Defined.

(** ** A failed list update *)

(** The errors of the system calls and of the libraries, as opposed to the
    ones [run] wraps with a message of its own. *)
Definition unwrapped (e : error) : Prop :=
  match e with
  | Wrap _ _ => False
  | _ => True
  end.

Lemma os_MkdirAll_err o s dir perm w e w' :
  os_MkdirAll o s dir perm w = (inl e, w') -> unwrapped e.
Proof.
  unfold os_MkdirAll, mbind, M_bind, bind, get_fs, fail, ret, commit.
  destruct (fails o s); [intros [= <- _]; exact I|].
  destruct (w_fs w !! dir); discriminate.
Qed.

Lemma File_Write_err o s dir base data w e w' :
  File_Write o s dir base data w = (inl e, w') -> unwrapped e.
Proof.
  unfold File_Write, mbind, M_bind, bind, get_fs, fail, ret, commit.
  destruct (file_at (w_fs w) dir base); [|intros [= <- _]; exact I].
  destruct (fails o s); [intros [= <- _]; exact I|discriminate].
Qed.

Lemma File_Close_err o s w e w' : File_Close o s w = (inl e, w') -> unwrapped e.
Proof.
  unfold File_Close, fail, ret. destruct (fails o s); [intros [= <- _]; exact I|discriminate].
Qed.

Lemma os_Rename_err o s dir old new w e w' :
  os_Rename o s dir old new w = (inl e, w') -> unwrapped e.
Proof.
  unfold os_Rename, mbind, M_bind, bind, get_fs, fail, ret, commit.
  destruct (fails o s); [intros [= <- _]; exact I|].
  destruct (file_at (w_fs w) dir old); [discriminate|intros [= <- _]; exact I].
Qed.

Lemma os_WriteFile_err o sO sW sC dir base data perm w e w' :
  os_WriteFile o sO sW sC dir base data perm w = (inl e, w') -> unwrapped e.
Proof.
  unfold os_WriteFile. destruct (fails o sO); [intros [= <- _]; exact I|].
  intros H0. apply bind_inv in H0 as [(e0 & H0 & _)|(fs & w1 & _ & H0)]; [discriminate H0|].
  destruct (fs !! dir); [|injection H0 as <- _; exact I].
  apply bind_inv in H0 as [(e0 & H0 & _)|([] & w2 & _ & H0)]; [discriminate H0|].
  apply bind_inv in H0 as [(e0 & H0 & _)|(err & w3 & H1 & H0)];
    [exfalso; exact (try_inl _ _ _ _ H0)|].
  apply try_inr in H1.
  apply bind_inv in H0 as [(e0 & H0 & _)|(err1 & w4 & H2 & H0)];
    [exfalso; exact (try_inl _ _ _ _ H0)|].
  apply try_inr in H2.
  destruct err as [e1|[]].
  - injection H0 as <- _. exact (File_Write_err _ _ _ _ _ _ _ _ H1).
  - destruct err1 as [e1|[]]; [|discriminate H0].
    injection H0 as <- _. exact (File_Close_err _ _ _ _ _ H2).
Qed.

Lemma os_CreateTemp_err o s dir pattern w e w' :
  os_CreateTemp o s dir pattern w = (inl e, w') -> unwrapped e.
Proof.
  unfold os_CreateTemp, mbind, M_bind, bind, get_fs, fail, ret, commit.
  destruct (prefixAndSuffix pattern) as [[pre suf]|]; [|intros [= <- _]; exact I].
  destruct (fails o s); [intros [= <- _]; exact I|].
  destruct (w_fs w !! dir); [|intros [= <- _]; exact I].
  destruct (List.find _ _); [discriminate|intros [= <- _]; exact I].
Qed.

Lemma zipSteps_err E o version p tmpZip w e w' :
  zipSteps E o version p tmpZip w = (inl e, w') -> unwrapped e.
Proof.
  unfold zipSteps. destruct (zip_CreateFromDir E _ _ _) as [bytes ok].
  intros H0. apply bind_inv in H0 as [(e0 & H0 & [= ->])|([] & w1 & _ & H0)];
    [exact (File_Write_err _ _ _ _ _ _ _ _ H0)|].
  apply bind_inv in H0 as [(e0 & H0 & [= ->])|([] & w2 & _ & H0)].
  { destruct ok; [discriminate H0|]. injection H0 as <- _. exact I. }
  apply bind_inv in H0 as [(e0 & H0 & [= ->])|([] & w3 & _ & H0)];
    [exact (File_Close_err _ _ _ _ _ H0)|].
  exact (os_Rename_err _ _ _ _ _ _ _ _ H0).
Qed.

Lemma publish_plain_err E o version p w e w' :
  publish (plainTail p) E o version p w = (inl e, w') -> unwrapped e.
Proof.
  unfold publish. intros H0.
  apply bind_inv in H0 as [(e0 & H0 & [= ->])|([] & w1 & _ & H0)];
    [exact (os_MkdirAll_err _ _ _ _ _ _ _ H0)|].
  apply bind_inv in H0 as [(e0 & H0 & [= ->])|([] & w2 & _ & H0)];
    [exact (os_WriteFile_err _ _ _ _ _ _ _ _ _ _ _ H0)|].
  apply bind_inv in H0 as [(e0 & H0 & [= ->])|(ib & w3 & _ & H0)].
  { unfold lift in H0. destruct (json_Marshal _); [discriminate H0|].
    injection H0 as <- _. exact I. }
  apply bind_inv in H0 as [(e0 & H0 & [= ->])|([] & w4 & _ & H0)];
    [exact (os_WriteFile_err _ _ _ _ _ _ _ _ _ _ _ H0)|].
  apply bind_inv in H0 as [(e0 & H0 & [= ->])|(tmpZip & w5 & _ & H0)];
    [exact (os_CreateTemp_err _ _ _ _ _ _ _ H0)|].
  unfold defer in H0.
  destruct ((zipSteps E o version p tmpZip;; plainTail p) w5) as [r6 w6] eqn:Hb.
  rewrite discard_Close in H0. cbn [snd] in H0. injection H0 as -> _.
  apply bind_inv in Hb as [(e0 & H0 & [= ->])|([] & w7 & _ & H0)];
    [exact (zipSteps_err _ _ _ _ _ _ _ _ H0)|].
  discriminate H0.
Qed.

(** X13. No rollback, and nothing half done. When [run] of the first program
    fails with an error wrapped as ["update list"], the second program would
    have succeeded, the three files of the version are in place and
    complete, and the [list] file is the one found before the run: the
    version is published but not listed. The tree is the one the second
    program leaves, but for a temporary file of the list when its removal
    fails. *)
Theorem update_list_error_keeps_files `{SliceSorter} E o srcDir version outRoot w e w' :
  WithList.run E o srcDir version outRoot w = (inl (Wrap "update list" e), w') ->
  exists p t bytes w1,
    plan E srcDir version outRoot = inr p /\
    time_Now o = Some t /\
    zip_CreateFromDir E (p_modPath p) version (p_absSrc p) = (bytes, true) /\
    WithoutList.run E o srcDir version outRoot w = (inr (threePaths p), w1) /\
    updateListFile o (p_atV p) version w1 = (inl e, w') /\
    (exists tmp, is_temp_of "list" tmp /\ only_at (p_atV p) tmp (w_fs w1) (w_fs w')) /\
    (fails o TmpRemove = false -> w_fs w' = w_fs w1) /\
    data_at (w_fs w') (p_atV p) (p_escVer p ++ ".mod") = Some (p_goMod p) /\
    data_at (w_fs w') (p_atV p) (p_escVer p ++ ".info") = Some (infoBytes version t) /\
    data_at (w_fs w') (p_atV p) (p_escVer p ++ ".zip") = Some bytes /\
    file_at (w_fs w') (p_atV p) "list" = file_at (w_fs w) (p_atV p) "list".
Proof.
  intros HR.
  destruct (plan E srcDir version outRoot) as [e0|p] eqn:Hp.
  { exfalso. rewrite WithList_run_plan, Hp in HR. injection HR as -> _.
    unfold plan in Hp.
    repeat match type of Hp with
           | (if ?c then _ else _) = _ => destruct c
           | match ?x with _ => _ end = _ => destruct x
           end; discriminate Hp. }
  destruct (plan_escVer _ _ _ _ _ Hp) as [_ [escTail Hesc]].
  destruct (WithList_run_inv E o srcDir version outRoot p w _ w' Hp HR)
    as (r1 & w1 & H1 & [(e1 & -> & He & _)|(-> & ru & H2 & Hr)]).
  { exfalso. injection He as <-. rewrite WithoutList_run_plan, Hp in H1.
    exact (publish_plain_err _ _ _ _ _ _ _ H1). }
  destruct ru as [e2|[]]; [|discriminate Hr]. injection Hr as <-.
  pose proof H1 as H1'. rewrite WithoutList_run_plan, Hp in H1'.
  destruct (plain_publish_facts _ _ _ _ _ _ _ _ Hesc H1')
    as (t & bytes & Ht & Hzip & Hdir & Dmod & Dinfo & Dzip & Dlist).
  pose proof H2 as H2'.
  apply updateListFile_spec in H2'
    as (tmp & earlier & Htmp & _ & [(Hr & _)|(_ & Ho & Hfs & _)]); [discriminate Hr|].
  assert (Keep : forall x, x <> tmp ->
            file_at (w_fs w') (p_atV p) x = file_at (w_fs w1) (p_atV p) x).
  { intros x Hx. eapply only_at_other; [|exact Ho]. auto. }
  assert (Nv : forall suffix, p_escVer p ++ suffix <> tmp)
    by (intros suffix; apply (names_v_listtmp p escTail Hesc), Htmp).
  exists p, t, bytes, w1. unfold data_at in *.
  rewrite !Keep by (try apply Nv; intros E0; exact (is_temp_of_neq _ _ Htmp (eq_sym E0))).
  rewrite Dzip. repeat split; eauto.
Qed.

(** An oracle under which only the last step, the rename of the list's
    temporary file, fails. *)
Definition renameFails : Oracle :=
  mkOracle (fun s => match s with TmpRename => true | _ => false end)
           (fun _ => O) (fun _ => [7; 8; 9]%N) (Some "2024-01-02T03:04:05Z").

Lemma update_list_error_keeps_files_witness :
  exists p t bytes w1,
    plan exEnv "src" "v1.2.0" "out" = inr p /\
    time_Now renameFails = Some t /\
    zip_CreateFromDir exEnv (p_modPath p) "v1.2.0" (p_absSrc p) = (bytes, true) /\
    WithoutList.run exEnv renameFails "src" "v1.2.0" "out" emptyWorld
      = (inr (threePaths p), w1) /\
    updateListFile (H := GoInsertionSort) renameFails (p_atV p) "v1.2.0" w1
      = (inl (SysErr TmpRename),
         snd (WithList.run (H := GoInsertionSort) exEnv renameFails "src" "v1.2.0" "out"
                emptyWorld)) /\
    (exists tmp, is_temp_of "list" tmp /\
       only_at (p_atV p) tmp (w_fs w1)
         (w_fs (snd (WithList.run (H := GoInsertionSort) exEnv renameFails "src" "v1.2.0" "out"
                       emptyWorld)))) /\
    (fails renameFails TmpRemove = false ->
     w_fs (snd (WithList.run (H := GoInsertionSort) exEnv renameFails "src" "v1.2.0" "out"
                  emptyWorld)) = w_fs w1) /\
    data_at (w_fs (snd (WithList.run (H := GoInsertionSort) exEnv renameFails "src" "v1.2.0"
                          "out" emptyWorld))) (p_atV p) (p_escVer p ++ ".mod")
      = Some (p_goMod p) /\
    data_at (w_fs (snd (WithList.run (H := GoInsertionSort) exEnv renameFails "src" "v1.2.0"
                          "out" emptyWorld))) (p_atV p) (p_escVer p ++ ".info")
      = Some (infoBytes "v1.2.0" t) /\
    data_at (w_fs (snd (WithList.run (H := GoInsertionSort) exEnv renameFails "src" "v1.2.0"
                          "out" emptyWorld))) (p_atV p) (p_escVer p ++ ".zip") = Some bytes /\
    file_at (w_fs (snd (WithList.run (H := GoInsertionSort) exEnv renameFails "src" "v1.2.0"
                          "out" emptyWorld))) (p_atV p) "list"
      = file_at (w_fs emptyWorld) (p_atV p) "list".
Proof.
  apply (update_list_error_keeps_files (H := GoInsertionSort) exEnv renameFails "src" "v1.2.0"
           "out" emptyWorld (SysErr TmpRename)).
  apply pair_of_fst. vm_compute. reflexivity.
Defined.

(** ** File modes *)

(** [os.WriteFile] gives [perm] to a file it creates and leaves the mode of
    a file that exists. *)
Lemma os_WriteFile_file o sO sW sC dir base data perm w w' :
  os_WriteFile o sO sW sC dir base data perm w = (inr tt, w') ->
  file_at (w_fs w') dir base
    = Some (mkFile data (from_option f_mode perm (file_at (w_fs w) dir base))).
Proof.
  unfold os_WriteFile. destruct (fails o sO); [discriminate|]. intros H0.
  apply bind_inr in H0 as (fs & w0 & Hfs & H0).
  unfold get_fs in Hfs. injection Hfs as <- <-.
  destruct (w_fs w !! dir) as [d|] eqn:Hd; [|discriminate H0].
  apply bind_inr in H0 as ([] & w1 & H1 & H0).
  unfold commit in H1. cbn [List.last] in H1. injection H1 as <-.
  apply bind_inr in H0 as (err & w2 & H2 & H0). apply try_inr in H2.
  apply bind_inr in H0 as (err1 & w3 & H3 & H0). apply try_inr in H3.
  destruct err as [e|[]]; [discriminate H0|].
  destruct err1 as [e|[]]; [discriminate H0|]. injection H0 as <-.
  assert (w3 = w2) as ->.
  { unfold File_Close, fail, ret in H3. destruct (fails o sC); congruence. }
  apply File_Write_spec in H2 as (_ & Hok & _).
  destruct (Hok eq_refl) as (_ & f & Hf & Hf' & _).
  cbn [w_fs] in Hf. rewrite file_at_put_file, decide_True in Hf by eauto.
  injection Hf as <-. rewrite Hf'. cbn [f_data f_mode]. rewrite string_app_nil_l.
  unfold file_at. rewrite Hd. destruct (d !! base); reflexivity.
Qed.

Section PublishModes.

Context (E : Env) (o : Oracle) (version : string) (p : Plan).
Context (escTail : string) (Hesc : p_escVer p = String "v" escTail).

(** The modes of the [.mod] and [.info] files a successful run of the
    second program leaves. *)
Lemma plain_publish_modes w paths w1 t :
  time_Now o = Some t ->
  publish (plainTail p) E o version p w = (inr paths, w1) ->
  file_at (w_fs w1) (p_atV p) (p_escVer p ++ ".mod")
    = Some (mkFile (p_goMod p)
              (from_option f_mode filePerm (file_at (w_fs w) (p_atV p) (p_escVer p ++ ".mod")))) /\
  file_at (w_fs w1) (p_atV p) (p_escVer p ++ ".info")
    = Some (mkFile (infoBytes version t)
              (from_option f_mode filePerm (file_at (w_fs w) (p_atV p) (p_escVer p ++ ".info")))).
Proof.
  intros Ht H0.
  apply publish_inr in H0
    as (t' & x1 & x2 & x3 & tmpZip & x4 & x5 & x6 & Ht' & H1 & H2 & H3 & H4 & H5 & H6 & ->).
  rewrite Ht in Ht'. injection Ht' as <-.
  destruct (publish_steps E o version p escTail Hesc t tmpZip w x1 x2 x3 x4 x5 H1 H2 H3 H4 H5)
    as (bytes & _ & Hname & _ & _ & _ & _ & Dtmp & _).
  unfold plainTail, ret in H6. injection H6 as _ <-.
  rewrite (discard_Remove_absent _ _ _ _ _ Dtmp).
  pose proof (os_WriteFile_file _ _ _ _ _ _ _ _ _ _ H2) as Fmod.
  pose proof (os_WriteFile_file _ _ _ _ _ _ _ _ _ _ H3) as Finfo.
  apply os_MkdirAll_spec in H1 as (C1 & _).
  apply differs_in_cur in C1. destruct C1 as [_ Keep1].
  apply os_WriteFile_spec in H2 as (C2 & _).
  apply os_WriteFile_spec in H3 as (C3 & _).
  pose proof (zip_temp_name _ _ _ _ _ _ H4) as [_ Htmp].
  apply os_CreateTemp_spec in H4 as (Hok & _ & _).
  destruct (Hok tmpZip eq_refl) as (_ & Hdir3 & _ & _ & Hw4). clear Hok.
  assert (C4 : continues (only_at (p_atV p) tmpZip) x3 x4).
  { rewrite Hw4. apply continues_one, only_at_put_file. }
  apply (zipSteps_spec E o version p tmpZip x4) in H5; [|exact Htmp].
  destruct H5 as (x4' & C5 & [(_ & bytes' & _ & _ & Hw5)|(Hr & _)]); [|contradiction].
  pose proof (names_mod_info p) as Nmi.
  pose proof (names_mod_zip p) as Nmz.
  pose proof (names_info_zip p) as Niz.
  pose proof (names_v_ziptmp p escTail Hesc ".mod" tmpZip Hname) as Nmt.
  pose proof (names_v_ziptmp p escTail Hesc ".info" tmpZip Hname) as Nit.
  assert (Hdir4' : is_Some (w_fs x4' !! (p_atV p))).
  { eapply continues_dirs; [exact C5|]. eapply continues_dirs; [exact C4|]. exact Hdir3. }
  assert (Keep5 : forall x, x <> (p_escVer p ++ ".zip") -> x <> tmpZip ->
            file_at (w_fs x5) (p_atV p) x = file_at (w_fs x3) (p_atV p) x).
  { intros x Hxz Hxt. rewrite Hw5. cbn [w_fs].
    rewrite file_at_put_file by (apply del_file_dirs; exact Hdir4').
    rewrite decide_False by tauto.
    rewrite file_at_del_file, decide_False by tauto.
    rewrite (continues_keeps _ _ x _ _ C5) by auto.
    apply (continues_keeps _ _ x _ _ C4). auto. }
  split.
  - rewrite Keep5 by auto.
    rewrite (continues_keeps _ _ (p_escVer p ++ ".mod") _ _ C3) by auto.
    rewrite Fmod, Keep1 by tauto. reflexivity.
  - rewrite Keep5 by auto. rewrite Finfo.
    rewrite (continues_keeps _ _ (p_escVer p ++ ".info") _ _ C2) by auto.
    rewrite Keep1 by tauto. reflexivity.
Qed.

End PublishModes.

(** X14. The modes a successful [run] of the first program leaves. The
    archive keeps the mode 0600 of the temporary file [os.CreateTemp] made,
    since [run] never changes it; the list gets [filePerm] (0644) whatever
    mode it had; the [.mod] and [.info] files get [filePerm] when [run]
    creates them and keep their mode when they exist, since [os.WriteFile]
    applies its mode to new files only. *)
Theorem run_file_modes `{SliceSorter} E o srcDir version outRoot w paths w' :
  WithList.run E o srcDir version outRoot w = (inr paths, w') ->
  exists p,
    plan E srcDir version outRoot = inr p /\
    f_mode <$> file_at (w_fs w') (p_atV p) (p_escVer p ++ ".zip") = Some tempPerm /\
    f_mode <$> file_at (w_fs w') (p_atV p) "list" = Some filePerm /\
    f_mode <$> file_at (w_fs w') (p_atV p) (p_escVer p ++ ".mod")
      = Some (from_option f_mode filePerm (file_at (w_fs w) (p_atV p) (p_escVer p ++ ".mod"))) /\
    f_mode <$> file_at (w_fs w') (p_atV p) (p_escVer p ++ ".info")
      = Some (from_option f_mode filePerm (file_at (w_fs w) (p_atV p) (p_escVer p ++ ".info"))).
Proof.
  intros HR.
  destruct (plan E srcDir version outRoot) as [e|p] eqn:Hp.
  { rewrite WithList_run_plan, Hp in HR. discriminate HR. }
  destruct (plan_escVer _ _ _ _ _ Hp) as [_ [escTail Hesc]].
  destruct (WithList_run_inv E o srcDir version outRoot p w _ w' Hp HR)
    as (r1 & w1 & H1 & [(e & _ & He & _)|(-> & ru & H2 & Hr)]); [discriminate He|].
  destruct ru as [e|[]]; [discriminate Hr|].
  rewrite WithoutList_run_plan, Hp in H1.
  destruct (plain_publish_facts _ _ _ _ _ _ _ _ Hesc H1)
    as (t & bytes & Ht & _ & Hdir & _ & _ & Dzip & _).
  destruct (plain_publish_modes E o version p escTail Hesc w _ w1 t Ht H1) as [Fmod Finfo].
  exists p. split; [reflexivity|].
  rewrite (updateListFile_keeps _ _ _ _ _ _ (p_escVer p ++ ".zip") H2),
    (updateListFile_keeps _ _ _ _ _ _ (p_escVer p ++ ".mod") H2),
    (updateListFile_keeps _ _ _ _ _ _ (p_escVer p ++ ".info") H2)
    by (first [ intros E0; exact (names_v_list p escTail Hesc _ E0)
              | intros Ht0; exact (names_v_listtmp p escTail Hesc _ _ Ht0 eq_refl) ]).
  rewrite Dzip, Fmod, Finfo.
  apply updateListFile_spec in H2 as (tmp & earlier & _ & _ & [(_ & _ & ->)|(Hne & _)]);
    [|contradiction].
  cbn [w_fs]. rewrite file_at_put_file, decide_True by auto. repeat split.
Qed.

(** An output tree where the [.mod] file of the version is there already,
    read-only. *)
Definition readOnlyWorld : World :=
  mkWorld {[ exAtV := {[ "v1.2.0.mod" := mkFile "old" (4 * 64 + 4 * 8 + 4) ]} ]} [].

Lemma run_file_modes_witness :
  exists p,
    plan exEnv "src" "v1.2.0" "out" = inr p /\
    f_mode <$> file_at (w_fs (snd (WithList.run (H := GoInsertionSort) exEnv quiet "src"
                                     "v1.2.0" "out" readOnlyWorld)))
                 (p_atV p) (p_escVer p ++ ".zip") = Some tempPerm /\
    f_mode <$> file_at (w_fs (snd (WithList.run (H := GoInsertionSort) exEnv quiet "src"
                                     "v1.2.0" "out" readOnlyWorld)))
                 (p_atV p) "list" = Some filePerm /\
    f_mode <$> file_at (w_fs (snd (WithList.run (H := GoInsertionSort) exEnv quiet "src"
                                     "v1.2.0" "out" readOnlyWorld)))
                 (p_atV p) (p_escVer p ++ ".mod")
      = Some (from_option f_mode filePerm
                (file_at (w_fs readOnlyWorld) (p_atV p) (p_escVer p ++ ".mod"))) /\
    f_mode <$> file_at (w_fs (snd (WithList.run (H := GoInsertionSort) exEnv quiet "src"
                                     "v1.2.0" "out" readOnlyWorld)))
                 (p_atV p) (p_escVer p ++ ".info")
      = Some (from_option f_mode filePerm
                (file_at (w_fs readOnlyWorld) (p_atV p) (p_escVer p ++ ".info"))).
Proof.
  apply (run_file_modes (H := GoInsertionSort) exEnv quiet "src" "v1.2.0" "out" readOnlyWorld
           exPaths).
  apply pair_of_fst. vm_compute. reflexivity.
Defined.

(** ** When [run] succeeds *)

Lemma os_MkdirAll_fail o s dir perm w e w' :
  os_MkdirAll o s dir perm w = (inl e, w') -> fails o s = true.
Proof.
  unfold os_MkdirAll, mbind, M_bind, bind, get_fs, fail, ret.
  destruct (fails o s); [auto|].
  destruct (w_fs w !! dir); [discriminate|]. rewrite commit_eq. discriminate.
Qed.

Lemma os_WriteFile_fail o sO sW sC dir base data perm w e w' :
  os_WriteFile o sO sW sC dir base data perm w = (inl e, w') ->
  fails o sO = true \/ fails o sW = true \/ fails o sC = true \/ w_fs w !! dir = None.
Proof.
  unfold os_WriteFile. destruct (fails o sO); [auto|]. intros H0.
  apply bind_inv in H0 as [(e0 & H0 & _)|(fs & w0 & Hfs & H0)]; [discriminate H0|].
  unfold get_fs in Hfs. injection Hfs as <- <-.
  destruct (w_fs w !! dir) as [d|] eqn:Hd; [|auto].
  apply bind_inv in H0 as [(e0 & H0 & _)|([] & w1 & H1 & H0)]; [discriminate H0|].
  rewrite commit_eq in H1. cbn [List.last] in H1. injection H1 as <-.
  apply bind_inv in H0 as [(e0 & H0 & _)|(err & w2 & H2 & H0)];
    [exfalso; exact (try_inl _ _ _ _ H0)|].
  apply try_inr in H2.
  apply bind_inv in H0 as [(e0 & H0 & _)|(err1 & w3 & H3 & H0)];
    [exfalso; exact (try_inl _ _ _ _ H0)|].
  apply try_inr in H3.
  destruct err as [e1|[]].
  - apply File_Write_fail in H2 as [H2|H2]; [auto|].
    cbn [w_fs] in H2. rewrite file_at_put_file, decide_True in H2 by eauto. discriminate H2.
  - destruct err1 as [e1|[]]; [|discriminate H0].
    unfold File_Close, fail, ret in H3. destruct (fails o sC); [auto|discriminate H3].
Qed.

Lemma zipSteps_fail E o version p tmpZip w f e w' :
  file_at (w_fs w) (p_atV p) tmpZip = Some f ->
  zipSteps E o version p tmpZip w = (inl e, w') ->
  fails o ZipWrite = true \/ fails o ZipClose = true \/ fails o ZipRename = true \/
  snd (zip_CreateFromDir E (p_modPath p) version (p_absSrc p)) = false.
Proof.
  intros Hf. unfold zipSteps.
  destruct (zip_CreateFromDir E _ _ _) as [bytes ok]. cbn [snd]. intros H0.
  apply bind_inv in H0 as [(e0 & H0 & _)|([] & w1 & H1 & H0)].
  { apply File_Write_fail in H0 as [H0|H0]; [auto|congruence]. }
  apply File_Write_spec in H1 as (_ & Hok & _).
  destruct (Hok eq_refl) as (_ & f' & _ & Hf' & _).
  apply bind_inv in H0 as [(e0 & H0 & _)|([] & w2 & H2 & H0)].
  { destruct ok; [discriminate H0|auto]. }
  destruct ok; [|discriminate H2]. injection H2 as <-.
  apply bind_inv in H0 as [(e0 & H0 & _)|([] & w3 & H3 & H0)].
  { unfold File_Close, fail, ret in H0. destruct (fails o ZipClose); [auto|discriminate H0]. }
  apply File_Close_spec in H3 as (-> & _).
  apply os_Rename_fail in H0 as [H0|H0]; [auto|congruence].
Qed.

(** Without a failing call, with a clock that can be written, an archive
    builder that succeeds and a free temporary name among those tried, the
    second program's [publish] succeeds. *)
Lemma publish_plain_ok E o version p escTail w t bytes n :
  p_escVer p = String "v" escTail ->
  time_Now o = Some t ->
  zip_CreateFromDir E (p_modPath p) version (p_absSrc p) = (bytes, true) ->
  (forall s, fails o s = false) ->
  n ∈ take tempTries (rand o ZipCreateTemp) ->
  file_at (w_fs w) (p_atV p) ("zip-" ++ Uitoa n ++ EmptyString) = None ->
  fst (publish (plainTail p) E o version p w) = inr (threePaths p).
Proof.
  intros Hesc Ht Hzip Hq Hn Hfree.
  destruct (publish (plainTail p) E o version p w) as [[e|paths] w'] eqn:H0.
  2:{ apply publish_inr in H0 as (t' & x1 & x2 & x3 & tmpZip & x4 & x5 & x6 & _ & _ & _ & _ & _
                                  & _ & Htail & _).
      unfold plainTail, ret in Htail. cbn [fst]. congruence. }
  exfalso. unfold publish in H0.
  apply bind_inv in H0 as [(e0 & H0 & _)|([] & w1 & H1 & H0)].
  { apply os_MkdirAll_fail in H0. rewrite Hq in H0. discriminate H0. }
  apply os_MkdirAll_spec in H1 as (C1 & Hdir1 & _). specialize (Hdir1 eq_refl).
  apply differs_in_cur in C1. destruct C1 as [_ Keep1].
  apply bind_inv in H0 as [(e0 & H0 & _)|([] & w2 & H2 & H0)].
  { apply os_WriteFile_fail in H0 as [H0|[H0|[H0|H0]]]; rewrite ?Hq in H0; try discriminate H0.
    rewrite H0 in Hdir1. destruct Hdir1 as [? Hd]. discriminate Hd. }
  apply os_WriteFile_spec in H2 as (C2 & _).
  pose proof (continues_dirs _ _ _ _ _ C2 Hdir1) as Hdir2.
  apply bind_inv in H0 as [(e0 & H0 & _)|(ib & w2' & Hib & H0)].
  { unfold lift, json_Marshal in H0. cbn [Time] in H0. rewrite Ht in H0. discriminate H0. }
  unfold lift, json_Marshal in Hib. cbn [Time] in Hib. rewrite Ht in Hib.
  injection Hib as _ <-.
  apply bind_inv in H0 as [(e0 & H0 & _)|([] & w3 & H3 & H0)].
  { apply os_WriteFile_fail in H0 as [H0|[H0|[H0|H0]]]; rewrite ?Hq in H0; try discriminate H0.
    rewrite H0 in Hdir2. destruct Hdir2 as [? Hd]. discriminate Hd. }
  apply os_WriteFile_spec in H3 as (C3 & _).
  pose proof (continues_dirs _ _ _ _ _ C3 Hdir2) as Hdir3.
  assert (Hz : is_zip_temp ("zip-" ++ Uitoa n ++ EmptyString)) by (exists n; reflexivity).
  assert (Hfree3 : file_at (w_fs w3) (p_atV p) ("zip-" ++ Uitoa n ++ EmptyString) = None).
  { rewrite (continues_keeps _ _ _ _ _ C3) by (apply (names_v_ziptmp p escTail Hesc), Hz).
    rewrite (continues_keeps _ _ _ _ _ C2) by (apply (names_v_ziptmp p escTail Hesc), Hz).
    rewrite Keep1 by tauto. exact Hfree. }
  apply bind_inv in H0 as [(e0 & H0 & _)|(tmpZip & w4 & H4 & H0)].
  { apply os_CreateTemp_fail in H0 as [H0|[H0|[H0|H0]]].
    - discriminate H0.
    - rewrite Hq in H0. discriminate H0.
    - rewrite H0 in Hdir3. destruct Hdir3 as [? Hd]. discriminate Hd.
    - destruct (H0 "zip-" EmptyString n eq_refl Hn) as [f Hf]. congruence. }
  pose proof (zip_temp_name _ _ _ _ _ _ H4) as [_ Htmp].
  unfold defer in H0.
  destruct ((zipSteps E o version p tmpZip;; plainTail p) w4) as [r6 w6] eqn:Hb.
  rewrite discard_Close in H0. cbn [snd] in H0. injection H0 as -> _.
  apply bind_inv in Hb as [(e0 & H0 & _)|([] & w7 & _ & H0)]; [|discriminate H0].
  apply (zipSteps_fail _ _ _ _ _ _ _ _ _ Htmp) in H0 as [H0|[H0|[H0|H0]]];
    rewrite ?Hq, ?Hzip in H0; discriminate H0.
Qed.

(** X15. [run] succeeds when nothing stands in its way: when the flags, the
    version, [go.mod] and the escapes are in order, the clock can be
    written, the archive builder succeeds, no system call fails, one of the
    random names tried is free for the archive's temporary file and one for
    the list's, and the lines of an existing list fit the scanner's buffer.
    Both programs then return the paths of the files they wrote, whatever
    else the output tree holds, a previous publication of the same version
    included. *)
Theorem run_succeeds `{SliceSorter} E o srcDir version outRoot w p t bytes n m :
  plan E srcDir version outRoot = inr p ->
  time_Now o = Some t ->
  zip_CreateFromDir E (p_modPath p) version (p_absSrc p) = (bytes, true) ->
  (forall s, fails o s = false) ->
  n ∈ take tempTries (rand o ZipCreateTemp) ->
  file_at (w_fs w) (p_atV p) ("zip-" ++ Uitoa n ++ EmptyString) = None ->
  m ∈ take tempTries (rand o TmpCreate) ->
  file_at (w_fs w) (p_atV p) (("list" ++ ".tmp-") ++ Uitoa m ++ EmptyString) = None ->
  (forall data, data_at (w_fs w) (p_atV p) "list" = Some data ->
     existsb (fun l => MaxScanTokenSize <=? len l) (rawLines EmptyString data) = false) ->
  fst (WithList.run E o srcDir version outRoot w)
    = inr (threePaths p ++ [(p_atV p, "list")])%list /\
  fst (WithoutList.run E o srcDir version outRoot w) = inr (threePaths p).
Proof.
  intros Hp Ht Hzip Hq Hn Hfreez Hm Hfreel Hlong.
  destruct (plan_escVer _ _ _ _ _ Hp) as [_ [escTail Hesc]].
  pose proof (publish_plain_ok E o version p escTail w t bytes n Hesc Ht Hzip Hq Hn Hfreez)
    as Hplain.
  assert (H2nd : fst (WithoutList.run E o srcDir version outRoot w) = inr (threePaths p)).
  { rewrite WithoutList_run_plan, Hp. exact Hplain. }
  split; [|exact H2nd].
  destruct (WithList.run E o srcDir version outRoot w) as [r w'] eqn:HR.
  destruct (WithList_run_inv E o srcDir version outRoot p w r w' Hp HR)
    as (r1 & w1 & H1 & Hcase).
  rewrite H1 in H2nd. cbn [fst] in H2nd. subst r1.
  destruct Hcase as [(e & He & _)|(_ & ru & H2 & ->)]; [discriminate He|].
  rewrite WithoutList_run_plan, Hp in H1.
  destruct (plain_publish_facts _ _ _ _ _ _ _ _ Hesc H1)
    as (t' & bytes' & _ & _ & Hdir & _ & _ & _ & Dlist).
  pose proof (publish_plain_frame _ _ _ _ _ _ _ H1) as [_ [_ F]].
  assert (Hok : fst (updateListFile o (p_atV p) version w1) = inr tt).
  { apply (updateListFile_ok o (p_atV p) version w1 m); auto.
    - intros data Hd. apply Hlong. unfold data_at in *. rewrite <- Dlist. exact Hd.
    - rewrite F; [exact Hfreel|].
      intros [_ [[E0|[E0|E0]]|[Hrm _]]]; [| | |rewrite Hq in Hrm; discriminate Hrm];
        symmetry in E0;
        exact (names_v_listtmp p escTail Hesc _ _ (ex_intro _ m eq_refl) E0). }
  rewrite H2 in Hok. cbn [fst] in Hok. subst ru. reflexivity.
Qed.

Lemma run_succeeds_witness :
  fst (WithList.run (H := GoInsertionSort) exEnv quiet "src" "v1.2.0" "out" emptyWorld)
    = inr (threePaths exPlan ++ [(p_atV exPlan, "list")])%list /\
  fst (WithoutList.run exEnv quiet "src" "v1.2.0" "out" emptyWorld) = inr (threePaths exPlan).
Proof.
  apply (run_succeeds (H := GoInsertionSort) exEnv quiet "src" "v1.2.0" "out" emptyWorld exPlan
           "2024-01-02T03:04:05Z" "PK:example.com/M@v1.2.0" 7%N 7%N).
  - vm_compute. reflexivity.
  - reflexivity.
  - vm_compute. reflexivity.
  - intros s. reflexivity.
  - vm_compute. apply list_elem_of_here.
  - reflexivity.
  - vm_compute. apply list_elem_of_here.
  - reflexivity.
  - intros data Hd. discriminate Hd.
Defined.

(** ** What a successful [run] leaves, and what can be seen meanwhile *)

(** X16. A successful [run] of the first program leaves, in the [@v]
    directory of the escaped module path, the bytes of [go.mod] in the
    [.mod] file, the JSON of the version and of the clock followed by a
    newline in the [.info] file, the bytes of the archive builder in the
    [.zip] file and the updated list in [list], whatever these files held
    before, a partial file of an interrupted run included; it prints these
    four paths, and the second program, run instead, prints the first three. *)
Theorem run_publishes `{SliceSorter} E o srcDir version outRoot w paths w' :
  WithList.run E o srcDir version outRoot w = (inr paths, w') ->
  exists p t bytes,
    plan E srcDir version outRoot = inr p /\
    time_Now o = Some t /\
    zip_CreateFromDir E (p_modPath p) version (p_absSrc p) = (bytes, true) /\
    paths = [(p_atV p, p_escVer p ++ ".mod"); (p_atV p, p_escVer p ++ ".info");
             (p_atV p, p_escVer p ++ ".zip"); (p_atV p, "list")] /\
    fst (WithoutList.run E o srcDir version outRoot w)
      = inr [(p_atV p, p_escVer p ++ ".mod"); (p_atV p, p_escVer p ++ ".info");
             (p_atV p, p_escVer p ++ ".zip")] /\
    data_at (w_fs w') (p_atV p) (p_escVer p ++ ".mod") = Some (p_goMod p) /\
    data_at (w_fs w') (p_atV p) (p_escVer p ++ ".info")
      = Some ("{" ++ dquote ++ "Version" ++ dquote ++ ":" ++ dquote ++ version ++ dquote ++ ","
                  ++ dquote ++ "Time" ++ dquote ++ ":" ++ dquote ++ t ++ dquote ++ "}" ++ nl) /\
    data_at (w_fs w') (p_atV p) (p_escVer p ++ ".zip") = Some bytes /\
    data_at (w_fs w') (p_atV p) "list"
      = Some (compose (sort_Slice semver_less
                         (merged (kept (data_at (w_fs w) (p_atV p) "list")) version))).
Proof.
  intros HR.
  pose proof (run_list_facts _ _ _ _ _ _ _ _ HR)
    as (p & t & bytes & tmpZip & Hp & _ & Ht & Hzip & _ & Hpaths & Dmod & Dinfo & Dzip & Dlist & _).
  exists p, t, bytes. split; [exact Hp|]. split; [exact Ht|]. split; [exact Hzip|].
  split; [exact Hpaths|]. split.
  - destruct (WithList_run_inv E o srcDir version outRoot p w _ w' Hp HR)
      as (r1 & w1 & H1 & [(e & _ & He & _)|(-> & _)]); [discriminate He|].
    rewrite H1. reflexivity.
  - split; [exact Dmod|]. split.
    + rewrite Dinfo. f_equal. unfold infoBytes, json_string.
      rewrite !string_app_assoc. reflexivity.
    + split; [|exact Dlist]. unfold data_at. rewrite Dzip. reflexivity.
Qed.

Lemma run_publishes_witness :
  exists p t bytes,
    plan exEnv "src" "v1.2.0" "out" = inr p /\
    time_Now quiet = Some t /\
    zip_CreateFromDir exEnv (p_modPath p) "v1.2.0" (p_absSrc p) = (bytes, true) /\
    exPaths = [(p_atV p, p_escVer p ++ ".mod"); (p_atV p, p_escVer p ++ ".info");
               (p_atV p, p_escVer p ++ ".zip"); (p_atV p, "list")] /\
    fst (WithoutList.run exEnv quiet "src" "v1.2.0" "out" readOnlyWorld)
      = inr [(p_atV p, p_escVer p ++ ".mod"); (p_atV p, p_escVer p ++ ".info");
             (p_atV p, p_escVer p ++ ".zip")] /\
    data_at (w_fs (snd (WithList.run (H := GoInsertionSort) exEnv quiet "src" "v1.2.0" "out"
                          readOnlyWorld))) (p_atV p) (p_escVer p ++ ".mod")
      = Some (p_goMod p) /\
    data_at (w_fs (snd (WithList.run (H := GoInsertionSort) exEnv quiet "src" "v1.2.0" "out"
                          readOnlyWorld))) (p_atV p) (p_escVer p ++ ".info")
      = Some ("{" ++ dquote ++ "Version" ++ dquote ++ ":" ++ dquote ++ "v1.2.0" ++ dquote ++ ","
                  ++ dquote ++ "Time" ++ dquote ++ ":" ++ dquote ++ t ++ dquote ++ "}" ++ nl) /\
    data_at (w_fs (snd (WithList.run (H := GoInsertionSort) exEnv quiet "src" "v1.2.0" "out"
                          readOnlyWorld))) (p_atV p) (p_escVer p ++ ".zip") = Some bytes /\
    data_at (w_fs (snd (WithList.run (H := GoInsertionSort) exEnv quiet "src" "v1.2.0" "out"
                          readOnlyWorld))) (p_atV p) "list"
      = Some (compose (sort_Slice (SliceSorter := GoInsertionSort) semver_less
                         (merged (kept (data_at (w_fs readOnlyWorld) (p_atV p) "list"))
                            "v1.2.0"))).
Proof.
  apply (run_publishes (H := GoInsertionSort) exEnv quiet "src" "v1.2.0" "out" readOnlyWorld
           exPaths).
  apply pair_of_fst. vm_compute. reflexivity.
Defined.

(** X17. Nothing else is touched meanwhile. Every state the tree goes
    through during a [run] of the first program, whatever it returns, has
    every directory the tree had and differs from the tree found only in the
    [@v] directory, at the three files of the version, at [list], and at
    temporary names [zip-N] and [list.tmp-N]. *)
Theorem run_states_frame `{SliceSorter} E o srcDir version outRoot p w r w' st :
  plan E srcDir version outRoot = inr p ->
  WithList.run E o srcDir version outRoot w = (r, w') ->
  seen_between w w' st ->
  differs_in (p_atV p)
    (fun b => version_files p b \/ b = "list" \/ is_zip_temp b \/ is_temp_of "list" b)
    (w_fs w) st.
Proof.
  intros Hp HR Hseen.
  destruct (WithList_run_inv E o srcDir version outRoot p w r w' Hp HR)
    as (r1 & w1 & H1 & Hcase).
  rewrite WithoutList_run_plan, Hp in H1.
  pose proof (publish_plain_frame _ _ _ _ _ _ _ H1) as [C F].
  assert (Hold : forall s, seen_between w w1 s ->
            differs_in (p_atV p)
              (fun b => version_files p b \/ b = "list" \/ is_zip_temp b \/ is_temp_of "list" b)
              (w_fs w) s).
  { intros s Hs. eapply differs_in_mono; [|exact (continues_seen _ _ _ _ C Hs)].
    intros b [Hb|Hb]; auto. }
  destruct Hcase as [(e & _ & _ & ->)|(_ & ru & H2 & _)]; [auto|].
  apply updateListFile_spec in H2 as (tmp & earlier & Htmp & HF & Hcase).
  rewrite Forall_forall in HF.
  assert (F' : differs_in (p_atV p)
                 (fun b => version_files p b \/ b = "list" \/ is_zip_temp b \/ is_temp_of "list" b)
                 (w_fs w) (w_fs w1)).
  { eapply differs_in_mono; [|exact F]. intros b [Hb|[_ Hb]]; auto. }
  assert (Hearlier : forall s, s ∈ earlier ->
            differs_in (p_atV p)
              (fun b => version_files p b \/ b = "list" \/ is_zip_temp b \/ is_temp_of "list" b)
              (w_fs w) s).
  { intros s Hs. eapply differs_in_trans; [exact F'|].
    eapply differs_in_mono; [|apply only_at_differs, HF, Hs]. intros b <-. auto. }
  destruct Hcase as [(_ & _ & Hw')|(_ & _ & _ & Hh)].
  - assert (Hh : w_hist w' = ((w_fs w' :: earlier) ++ w_hist w1)%list) by (rewrite Hw'; reflexivity).
    destruct (seen_between_split _ _ _ _ _ _ C Hh Hseen) as [Hs|Hs]; [auto|].
    apply elem_of_cons in Hs as [->|Hs]; [|auto].
    rewrite Hw'. cbn [w_fs]. eapply differs_in_trans; [exact F'|].
    eapply differs_in_mono; [|apply differs_in_put_file]. intros b <-. auto.
  - destruct (seen_between_split _ _ _ _ _ _ C Hh Hseen) as [Hs|Hs]; auto.
Qed.

Lemma run_states_frame_witness :
  differs_in (p_atV exPlan)
    (fun b => version_files exPlan b \/ b = "list" \/ is_zip_temp b \/ is_temp_of "list" b)
    (w_fs emptyWorld) (w_fs (snd exRun)).
Proof.
  assert (R1 : exRun = (inr exPaths, snd exRun)).
  { apply pair_of_fst. vm_compute. reflexivity. }
  apply (run_states_frame (H := GoInsertionSort) exEnv quiet "src" "v1.2.0" "out" exPlan
           emptyWorld (fst exRun) (snd exRun) (w_fs (snd exRun))).
  - vm_compute. reflexivity.
  - apply surjective_pairing.
  - exact (run_final_seen (H := GoInsertionSort) exEnv quiet "src" "v1.2.0" "out" emptyWorld
             exPaths (snd exRun) R1).
Defined.
